(** * Real-time scheduling simulator: task model, schedulers, aperiodic
    servers and simulation engine, embedded from the Python sources.

    A Python float is an IEEE 754 binary64 number; every finite one is a
    rational, and the model holds the rational value ([Q]).  The constant
    [1e-9] of [Job.is_complete] is the rational 1/10^9 and [float('inf')]
    is a separate top element of the key type.  Comparisons of floats are
    comparisons of their values.  An arithmetic operation of the program
    returns the exact result rounded to binary64: the engine, the servers
    and the statistics are modelled with the exact result, and what is
    proved of them rests on comparisons and on the monotonicity of the
    operations only; activation generation and the utilization report,
    whose outcome depends on the rounded values themselves, take the
    arithmetic as a parameter ([PyFloat.Arith]), with exact and binary64
    rounded instances.  Python objects that are shared and mutated (jobs)
    live in a store and are referred to by their index in it. *)

From Stdlib Require Import Reals Qreals Lra.
From Stdlib Require Import QArith List Bool Arith Lia Lqa ZArith String.
From Stdlib Require Import Sorting.Sorted Sorting.Permutation Qround.
From Stdlib Require Import Ascii.
From Stdlib Require Floats.
Import ListNotations.
Open Scope string_scope.
Open Scope list_scope.
Open Scope Q_scope.

(** ** Comparisons and the two-argument [min]/[max] built-ins *)

Definition Qltb (x y : Q) : bool := negb (Qle_bool y x).

(** [min(a, b)]: the first argument unless the second is strictly smaller. *)
Definition py_min2 (a b : Q) : Q := if Qltb b a then b else a.

(** [max(a, b)]: the first argument unless the second is strictly larger. *)
Definition py_max2 (a b : Q) : Q := if Qltb a b then b else a.

(** ** Float arithmetic *)

Module PyFloat.

(** The four arithmetic operations of [float], acting on the rational
    values of the floats. *)
Record Arith := mkArith {
  add : Q -> Q -> Q;
  sub : Q -> Q -> Q;
  mul : Q -> Q -> Q;
  div : Q -> Q -> Q
}.

(** Arithmetic without rounding. *)
Definition exact : Arith := mkArith Qplus Qminus Qmult Qdiv.

(** Every operation gives the exact result rounded by [rnd]. *)
Definition rounded (rnd : Q -> Q) : Arith :=
  mkArith (fun x y => rnd (x + y)) (fun x y => rnd (x - y))
          (fun x y => rnd (x * y)) (fun x y => rnd (x / y)).

(** [n / d] rounded to the nearest integer, ties to the even one. *)
Definition round_half_even (n d : Z) : Z :=
  let q := (n / d)%Z in
  let r := (n mod d)%Z in
  match (2 * r ?= d)%Z with
  | Lt => q
  | Gt => (q + 1)%Z
  | Eq => if Z.even q then q else (q + 1)%Z
  end.

(** [m * 2^e] *)
Definition scaled (m e : Z) : Q :=
  if (0 <=? e)%Z then inject_Z (m * 2 ^ e)
  else Qred (Qmake m (Z.to_pos (2 ^ (- e)))).

(** A positive [n / d] rounded to 53 significant bits: the exponent [e] is
    chosen with [2^52 <= (n / d) / 2^e < 2^53]. *)
Definition round_positive (n d : Z) : Q :=
  let k := (Z.log2 n - Z.log2 d)%Z in
  let num e := if (0 <=? e)%Z then n else (n * 2 ^ (- e))%Z in
  let den e := if (0 <=? e)%Z then (d * 2 ^ e)%Z else d in
  let e := (k - 52)%Z in
  let e := if (num e / den e <? 2 ^ 52)%Z then (e - 1)%Z else e in
  scaled (round_half_even (num e) (den e)) e.

(** Rounding to binary64: to nearest, ties to even, 53 significant bits.
    The exponent range is not bounded: overflow to infinity and
    subnormal numbers are not modelled. *)
Definition binary64_round (q : Q) : Q :=
  match Qnum q with
  | Z0 => 0
  | Zpos n => round_positive (Zpos n) (Zpos (Qden q))
  | Zneg n => - round_positive (Zpos n) (Zpos (Qden q))
  end.

(** The arithmetic of Python's [float]. *)
Definition binary64 : Arith := rounded binary64_round.

(** [float(x)] for a decimal or integer literal of value [x]. *)
Definition float (x : Q) : Q := binary64_round x.

(** No rounding happens in [F]. *)
Definition exactly (F : Arith) : Prop :=
  (forall x y, add F x y == x + y) /\
  (forall x y, sub F x y == x - y) /\
  (forall x y, mul F x y == x * y) /\
  (forall x y, div F x y == x / y).

(** The rational value of one of the kernel's binary64 numbers, and the
    number [n / d] as the kernel's division computes it. *)
Definition of_primitive (x : PrimFloat.float) : Q :=
  match FloatOps.Prim2SF x with
  | SpecFloat.S754_finite s m e =>
      let v := scaled (Zpos m) e in if s then - v else v
  | _ => 0
  end.

Definition primitive (n d : Z) : PrimFloat.float :=
  PrimFloat.div (PrimFloat.of_uint63 (Uint63.of_Z n))
                (PrimFloat.of_uint63 (Uint63.of_Z d)).

End PyFloat.

(** ** task.py *)

Module Tasks.

Inductive TaskType := PERIODIC | DYNAMIC | APERIODIC.

Inductive ServerType := NONE | BACKGROUND | POLLER | DEFERRABLE.

Definition TaskType_eqb (a b : TaskType) : bool :=
  match a, b with
  | PERIODIC, PERIODIC | DYNAMIC, DYNAMIC | APERIODIC, APERIODIC => true
  | _, _ => false
  end.

Record Task := mkTask {
  id : nat;
  type : TaskType;
  execution_time : Q;
  period : Q;
  deadline : Q;
  release_time : Q;
  server : ServerType
}.

(** [Task.__init__]: the identifier comes from the class-wide counter, which
    the caller threads; [deadline] falls back to [period] unless positive. *)
Definition Task_init (counter : nat) (task_type : TaskType)
  (execution_time period deadline release_time : Q) (server : ServerType)
  : Task * nat :=
  let counter := S counter in
  (mkTask counter task_type execution_time period
          (if Qltb 0 deadline then deadline else period)
          release_time server,
   counter).

Record Job := mkJob {
  task : Task;
  remaining : Q;
  abs_deadline : Q;
  current_release : Q;
  started : bool;
  start_time : option Q;
  completion_time : option Q;
  preemption_count : nat
}.

Definition Job_init (task : Task) (release_time : Q) : Job :=
  mkJob task (execution_time task) (release_time + deadline task)
        release_time false None None 0.

Definition epsilon : Q := 1 # 1000000000.

Definition is_complete (j : Job) : bool := Qle_bool (remaining j) epsilon.

Definition is_deadline_missed (j : Job) (current_time : Q) : bool :=
  Qltb (abs_deadline j) current_time && negb (is_complete j).

(** [Job.execute]: the updated job and the time actually executed. *)
Definition execute (j : Job) (duration : Q) : Job * Q :=
  let actual_time := py_min2 duration (remaining j) in
  (mkJob (task j) (py_max2 0 (remaining j - actual_time)) (abs_deadline j)
         (current_release j) true (start_time j) (completion_time j)
         (preemption_count j),
   actual_time).

End Tasks.
Import Tasks.

(** ** aperiodic_server.py *)

Module Servers.

(** Attributes set by [AperiodicServer.__init__] (the display name is fixed by
    the subclass and is carried by the constructor of [Server]). *)
Record Base := mkBase {
  capacity : Q;
  period : Q;
  current_capacity : Q;
  last_replenishment_time : Q
}.

Definition Base_init (capacity period : Q) : Base :=
  mkBase capacity period capacity 0.

Inductive Server :=
| Background (b : Base)
| Polling (b : Base)
| Deferrable (b : Base) (is_active : bool)
| Sporadic (b : Base) (replenishment_queue : list (Q * Q)).

Definition base (s : Server) : Base :=
  match s with
  | Background b | Polling b | Deferrable b _ | Sporadic b _ => b
  end.

Definition BackgroundServer : Server := Background (Base_init 0 0).
Definition PollingServer (capacity period : Q) : Server :=
  Polling (Base_init capacity period).
Definition DeferrableServer (capacity period : Q) : Server :=
  Deferrable (Base_init capacity period) false.
Definition SporadicServer (capacity period : Q) : Server :=
  Sporadic (Base_init capacity period) [].

Definition set_current (b : Base) (c : Q) : Base :=
  mkBase (capacity b) (period b) c (last_replenishment_time b).

(** [AperiodicServer.reset] *)
Definition Base_reset (b : Base) : Base :=
  mkBase (capacity b) (period b) (capacity b) 0.

(** Body shared by [PollingServer.consume] and [DeferrableServer.consume]. *)
Definition consume_clamped (b : Base) (execution_time : Q) : Base :=
  let c := current_capacity b - execution_time in
  set_current b (if Qltb c 0 then 0 else c).

(** The test of [replenish] at period boundaries. *)
Definition boundary_reached (b : Base) (current_time : Q) : bool :=
  Qle_bool (period b) (current_time - last_replenishment_time b).

Definition replenish_full (b : Base) (current_time : Q) : Base :=
  mkBase (capacity b) (period b) (capacity b) current_time.

(** One pass of the loop of [SporadicServer._process_replenishments]:
    the accumulator is the running capacity and [remaining_queue]. *)
Definition process_entry (cap current_time : Q) (acc : Q * list (Q * Q))
  (entry : Q * Q) : Q * list (Q * Q) :=
  let '(cur, remaining_queue) := acc in
  let '(replenish_time, amount) := entry in
  if Qle_bool replenish_time current_time
  then (py_min2 cap (cur + amount), remaining_queue)
  else (cur, remaining_queue ++ [(replenish_time, amount)]).

Definition process_replenishments (b : Base) (queue : list (Q * Q))
  (current_time : Q) : Base * list (Q * Q) :=
  let r := fold_left (process_entry (capacity b) current_time) queue
                     (current_capacity b, []) in
  (set_current b (fst r), snd r).

Definition can_serve (s : Server) (current_time : Q) : bool * Server :=
  match s with
  | Background b => (true, s)
  | Polling b => (Qltb 0 (current_capacity b), s)
  | Deferrable b a => (Qltb 0 (current_capacity b), s)
  | Sporadic b q =>
      let '(b', q') := process_replenishments b q current_time in
      (Qltb 0 (current_capacity b'), Sporadic b' q')
  end.

Definition consume (s : Server) (execution_time current_time : Q) : Server :=
  match s with
  | Background b => s
  | Polling b => Polling (consume_clamped b execution_time)
  | Deferrable b a => Deferrable (consume_clamped b execution_time) true
  | Sporadic b q =>
      let consumed := py_min2 execution_time (current_capacity b) in
      if Qltb 0 consumed
      then Sporadic (set_current b (current_capacity b - consumed))
                    (q ++ [(current_time + period b, consumed)])
      else s
  end.

Definition replenish (s : Server) (current_time : Q) : Server :=
  match s with
  | Background b => s
  | Polling b =>
      if boundary_reached b current_time
      then Polling (replenish_full b current_time) else s
  | Deferrable b a =>
      if boundary_reached b current_time
      then Deferrable (replenish_full b current_time) false else s
  | Sporadic b q =>
      let '(b', q') := process_replenishments b q current_time in
      Sporadic b' q'
  end.

Definition reset (s : Server) : Server :=
  match s with
  | Background b => Background (Base_reset b)
  | Polling b => Polling (Base_reset b)
  | Deferrable b a => Deferrable (Base_reset b) false
  | Sporadic b q => Sporadic (Base_reset b) []
  end.

(** The interface as a client sees it: a call and what it returns. *)
Inductive Call :=
| CanServe (current_time : Q)
| Consume (execution_time current_time : Q)
| Replenish (current_time : Q)
| Reset.

Definition call (s : Server) (c : Call) : option bool * Server :=
  match c with
  | CanServe t => let '(r, s') := can_serve s t in (Some r, s')
  | Consume e t => (None, consume s e t)
  | Replenish t => (None, replenish s t)
  | Reset => (None, reset s)
  end.

Fixpoint calls (s : Server) (cs : list Call) : list (option bool) * Server :=
  match cs with
  | [] => ([], s)
  | c :: cs =>
      let '(r, s') := call s c in
      let '(rs, s'') := calls s' cs in
      (r :: rs, s'')
  end.

End Servers.

(** Vocabulary of the server properties. *)

Module ServerSpec.
Import Servers.

(** Entries of a Sporadic queue that are due at [now], and those that are not. *)
Definition due (now : Q) (entry : Q * Q) : bool := Qle_bool (fst entry) now.

Definition credit (cap cur : Q) (entry : Q * Q) : Q :=
  py_min2 cap (cur + snd entry).

Definition credited (b : Base) (q : list (Q * Q)) (now : Q) : Q :=
  fold_left (credit (capacity b)) (filter (due now) q) (current_capacity b).

Definition bounded (s : Server) : Prop :=
  0 <= current_capacity (base s) /\
  current_capacity (base s) <= capacity (base s).

(** The queue of a Sporadic server only ever holds positive amounts. *)
Definition queue_ok (s : Server) : Prop :=
  match s with
  | Sporadic _ q => Forall (fun e => 0 < snd e) q
  | _ => True
  end.

Definition nonneg_consume (c : Call) : Prop :=
  match c with
  | Consume e _ => 0 <= e
  | _ => True
  end.

(** The three capacity-tracking constructors. *)
Inductive tracked : (Q -> Q -> Server) -> Prop :=
| tracked_polling : tracked PollingServer
| tracked_deferrable : tracked DeferrableServer
| tracked_sporadic : tracked SporadicServer.

(** What the claim on [SporadicServer.consume] asks for, word for word:
    the capacity drops by [min(a, current_capacity)] and one entry of
    amount [a], due at [t + period], is pushed at the back of the queue. *)
Definition pushes_credit_of_amount (b : Base) (q : list (Q * Q)) (a t : Q)
  : Prop :=
  exists b' e,
    consume (Sporadic b q) a t = Sporadic b' (q ++ [e]) /\
    current_capacity b' ==
      current_capacity b - py_min2 a (current_capacity b) /\
    fst e == t + period b /\ snd e == a.

(** The relation that ties a Polling server to a Deferrable one. *)
Definition same_base (p d : Server) : Prop :=
  exists b a, p = Polling b /\ d = Deferrable b a.

End ServerSpec.

(** ** parser.py: the task-set container *)

Module Parser.

Record TaskSet := mkTaskSet {
  tasks : list Task;
  periodic_tasks : list Task;
  dynamic_tasks : list Task;
  aperiodic_tasks : list Task
}.

Definition TaskSet_init : TaskSet := mkTaskSet [] [] [] [].

Definition add_task (ts : TaskSet) (t : Task) : TaskSet :=
  let all := tasks ts ++ [t] in
  match type t with
  | PERIODIC =>
      mkTaskSet all (periodic_tasks ts ++ [t]) (dynamic_tasks ts)
                (aperiodic_tasks ts)
  | DYNAMIC =>
      mkTaskSet all (periodic_tasks ts) (dynamic_tasks ts ++ [t])
                (aperiodic_tasks ts)
  | APERIODIC =>
      mkTaskSet all (periodic_tasks ts) (dynamic_tasks ts)
                (aperiodic_tasks ts ++ [t])
  end.

(** [_parse_aperiodic_task] once its fields [ri], [ei] and the optional
    server name have been converted: the task is built with period 0 and
    deadline 0. *)
Definition parse_aperiodic_task (counter : nat) (ri ei : Q)
  (server_type : ServerType) : Task * nat :=
  Task_init counter APERIODIC ei 0 0 ri server_type.

End Parser.

(** ** scheduler.py *)

Module Schedulers.

(** Sort keys: a float, or [float('inf')]. *)
Inductive Key := Fin (q : Q) | Inf.

Definition Key_ltb (a b : Key) : bool :=
  match a, b with
  | Fin x, Fin y => Qltb x y
  | Fin _, Inf => true
  | Inf, _ => false
  end.

(** The built-in [min(iterable, key=...)]: the running best is replaced only
    by an item whose key is strictly smaller.  [None] stands for the
    [ValueError] raised on an empty iterable. *)
Fixpoint min_from {A} (key : A -> Key) (best : A) (l : list A) : A :=
  match l with
  | [] => best
  | x :: l =>
      if Key_ltb (key x) (key best) then min_from key x l
      else min_from key best l
  end.

Definition py_min {A} (key : A -> Key) (l : list A) : option A :=
  match l with
  | [] => None
  | x :: l => Some (min_from key x l)
  end.

Inductive Policy := RM | EDF | FCFS | SJF | LST | DM.

Definition periodic_or_dynamic (t : TaskType) : bool :=
  TaskType_eqb t PERIODIC || TaskType_eqb t DYNAMIC.

(** The [key=] function of each [select_task]; [current_time] is the
    scheduler attribute read by the LST policy. *)
Definition policy_key (p : Policy) (current_time : Q) (j : Job) : Key :=
  match p with
  | RM => if periodic_or_dynamic (type (task j))
          then Fin (period (task j)) else Inf
  | EDF => Fin (abs_deadline j)
  | FCFS => Fin (current_release j)
  | SJF => Fin (remaining j)
  | LST => Fin (abs_deadline j - current_time - remaining j)
  | DM => if periodic_or_dynamic (type (task j))
          then Fin (deadline (task j)) else Inf
  end.

(** [select_task] reads its argument and [self.current_time] and writes
    nothing, so it is a function of both. *)
Definition select_task (p : Policy) (current_time : Q)
  (ready_queue : list Job) : option Job :=
  match ready_queue with
  | [] => None
  | _ => py_min (policy_key p current_time) ready_queue
  end.

(** Descriptions are format strings over these arguments. *)
Inductive Description :=
| SimulationStarted
| Arrived (deadline : Q)
| PreemptedBy (by_task : Task)
| ContextSwitchOverhead (overhead : Q)
| StartedExecution
| Completed (rt : Q)
| DeadlineMissed (deadline : Q)
| IdleUntil (next_event_time : Q)
| SimulationCompleted.

(** An event refers to its job by reference (index in the job store). *)
Record ScheduleEvent := mkEvent {
  time : Q;
  ev_task : option nat;
  event_type : string;
  description : Description
}.

Record Scheduler := mkScheduler {
  policy : Policy;
  current_time : Q;
  schedule_events : list ScheduleEvent;
  completed_tasks : list nat;
  missed_deadlines : list nat
}.

Definition Scheduler_init (p : Policy) : Scheduler :=
  mkScheduler p 0 [] [] [].

Definition reset (s : Scheduler) : Scheduler :=
  mkScheduler (policy s) 0 [] [] [].

Definition add_event (s : Scheduler) (e : ScheduleEvent) : Scheduler :=
  mkScheduler (policy s) (current_time s) (schedule_events s ++ [e])
              (completed_tasks s) (missed_deadlines s).

Definition set_current_time (s : Scheduler) (t : Q) : Scheduler :=
  mkScheduler (policy s) t (schedule_events s) (completed_tasks s)
              (missed_deadlines s).

Definition add_completed (s : Scheduler) (i : nat) : Scheduler :=
  mkScheduler (policy s) (current_time s) (schedule_events s)
              (completed_tasks s ++ [i]) (missed_deadlines s).

Definition add_missed (s : Scheduler) (i : nat) : Scheduler :=
  mkScheduler (policy s) (current_time s) (schedule_events s)
              (completed_tasks s) (missed_deadlines s ++ [i]).

End Schedulers.

(** ** simulator.py *)

Module Sim.
Import Parser Schedulers.

Record SimulationConfig := mkConfig {
  simulation_time : Q;
  time_quantum : Q;
  preemptive : bool;
  context_switch_overhead : Q
}.

(** Jobs are shared between [task_instances], [ready_queue], [current_task]
    and the scheduler's lists and are mutated in place: [task_instances] is
    the store, the other attributes hold indices into it. *)
Record Simulator := mkSim {
  scheduler : Scheduler;
  config : SimulationConfig;
  aperiodic_server : Servers.Server;
  task_set : option TaskSet;
  task_instances : list Job;
  ready_queue : list nat;
  current_task : option nat
}.

Definition Simulator_init (sch : Scheduler) (cfg : SimulationConfig)
  (srv : option Servers.Server) : Simulator :=
  mkSim sch cfg
        (match srv with Some v => v | None => Servers.BackgroundServer end)
        None [] [] None.

Definition set_scheduler (s : Simulator) (v : Scheduler) : Simulator :=
  mkSim v (config s) (aperiodic_server s) (task_set s) (task_instances s)
        (ready_queue s) (current_task s).

Definition set_server (s : Simulator) (v : Servers.Server) : Simulator :=
  mkSim (scheduler s) (config s) v (task_set s) (task_instances s)
        (ready_queue s) (current_task s).

Definition set_task_set (s : Simulator) (v : option TaskSet) : Simulator :=
  mkSim (scheduler s) (config s) (aperiodic_server s) v (task_instances s)
        (ready_queue s) (current_task s).

Definition set_instances (s : Simulator) (v : list Job) : Simulator :=
  mkSim (scheduler s) (config s) (aperiodic_server s) (task_set s) v
        (ready_queue s) (current_task s).

Definition set_ready (s : Simulator) (v : list nat) : Simulator :=
  mkSim (scheduler s) (config s) (aperiodic_server s) (task_set s)
        (task_instances s) v (current_task s).

Definition set_current_task (s : Simulator) (v : option nat) : Simulator :=
  mkSim (scheduler s) (config s) (aperiodic_server s) (task_set s)
        (task_instances s) (ready_queue s) v.

Definition log (s : Simulator) (t : Q) (ref : option nat) (kind : string)
  (d : Description) : Simulator :=
  set_scheduler s (add_event (scheduler s) (mkEvent t ref kind d)).

(** *** Job store *)

Definition dummy_job : Job := Job_init (mkTask 0 PERIODIC 0 0 0 0 NONE) 0.

Definition job (s : Simulator) (i : nat) : Job :=
  nth i (task_instances s) dummy_job.

Fixpoint update {A} (i : nat) (f : A -> A) (l : list A) : list A :=
  match l, i with
  | [], _ => []
  | x :: l, O => f x :: l
  | x :: l, S i => x :: update i f l
  end.

Definition update_job (s : Simulator) (i : nat) (f : Job -> Job) : Simulator :=
  set_instances s (update i f (task_instances s)).

(** [x in l] on job references. *)
Definition mem (i : nat) (l : list nat) : bool := existsb (Nat.eqb i) l.

(** [l.remove(x)]; the engine only removes references that are present. *)
Fixpoint remove_first (i : nat) (l : list nat) : list nat :=
  match l with
  | [] => []
  | x :: l => if Nat.eqb x i then l else x :: remove_first i l
  end.

Definition is_aperiodic (s : Simulator) (i : nat) : bool :=
  TaskType_eqb (type (task (job s i))) APERIODIC.

(** *** [_generate_task_instances] *)

(** The [while release_time < simulation_time] loop of one periodic task;
    [None] when the fuel runs out.  The sum [release_time + period] is not
    rounded here; [Generation.periodic_jobs] below is the same loop in a
    given float arithmetic. *)
Fixpoint periodic_jobs (fuel : nat) (t : Task) (release_time horizon : Q)
  : option (list Job) :=
  if Qltb release_time horizon then
    match fuel with
    | O => None
    | S fuel =>
        match periodic_jobs fuel t (release_time + period t) horizon with
        | Some js => Some (Job_init t release_time :: js)
        | None => None
        end
    end
  else Some [].

Fixpoint all_periodic_jobs (fuel : nat) (ts : list Task) (horizon : Q)
  : option (list Job) :=
  match ts with
  | [] => Some []
  | t :: ts =>
      match periodic_jobs fuel t (release_time t) horizon,
            all_periodic_jobs fuel ts horizon with
      | Some a, Some b => Some (a ++ b)
      | _, _ => None
      end
  end.

(** [list.sort(key=lambda t: t.current_release)] is a stable sort; stable
    insertion computes the same list. *)
Fixpoint insert_by_release (j : Job) (l : list Job) : list Job :=
  match l with
  | [] => [j]
  | x :: l' =>
      if Qle_bool (current_release j) (current_release x) then j :: l
      else x :: insert_by_release j l'
  end.

Definition sort_by_release (l : list Job) : list Job :=
  fold_right insert_by_release [] l.

(** The list built before sorting. *)
Definition unsorted_instances (fuel : nat) (ts : TaskSet) (horizon : Q)
  : option (list Job) :=
  match all_periodic_jobs fuel (periodic_tasks ts) horizon with
  | Some pj =>
      Some (pj ++ map (fun t => Job_init t 0) (dynamic_tasks ts)
               ++ map (fun t => Job_init t (release_time t))
                      (aperiodic_tasks ts))
  | None => None
  end.

Definition generate_task_instances (fuel : nat) (s : Simulator)
  : option Simulator :=
  match task_set s with
  | None => None
  | Some ts =>
      match unsorted_instances fuel ts (simulation_time (config s)) with
      | Some l => Some (set_instances s (sort_by_release l))
      | None => None
      end
  end.

Definition load_task_set (fuel : nat) (s : Simulator) (ts : TaskSet)
  : option Simulator :=
  generate_task_instances fuel (set_task_set s (Some ts)).

(** *** The steps of one loop iteration *)

Definition has_arrived (s : Simulator) (current_time : Q) (i : nat) : bool :=
  Qle_bool (current_release (job s i)) current_time
  && negb (mem i (ready_queue s))
  && negb (is_complete (job s i))
  && negb (mem i (completed_tasks (scheduler s)))
  && negb (mem i (missed_deadlines (scheduler s))).

Definition arrive (current_time : Q) (s : Simulator) (i : nat) : Simulator :=
  log (set_ready s (ready_queue s ++ [i]))
      current_time (Some i) "ARRIVAL" (Arrived (abs_deadline (job s i))).

Definition check_arrivals (s : Simulator) (current_time : Q) : Simulator :=
  let arrived := filter (has_arrived s current_time)
                        (seq 0 (List.length (task_instances s))) in
  fold_left (arrive current_time) arrived s.

Definition same_ref (c : option nat) (i : nat) : bool :=
  match c with
  | Some k => Nat.eqb k i
  | None => false
  end.

(** Body of the loop of [_check_deadline_misses]. *)
Definition miss (current_time : Q) (s : Simulator) (i : nat) : Simulator :=
  if is_deadline_missed (job s i) current_time then
    let s := set_ready s (remove_first i (ready_queue s)) in
    let s := set_scheduler s (add_missed (scheduler s) i) in
    let s := log s current_time (Some i) "DEADLINE_MISS"
                 (DeadlineMissed (abs_deadline (job s i))) in
    if same_ref (current_task s) i then set_current_task s None else s
  else s.

(** The loop runs over a copy of the ready queue. *)
Definition check_deadline_misses (s : Simulator) (current_time : Q)
  : Simulator :=
  fold_left (miss current_time) (ready_queue s) s.

Definition next_release (s : Simulator) (current_time : Q) (next_time : Q)
  (i : nat) : Q :=
  let r := current_release (job s i) in
  if Qltb current_time r && Qltb r next_time then
    if negb (mem i (ready_queue s))
       && negb (mem i (completed_tasks (scheduler s)))
    then r else next_time
  else next_time.

Definition find_next_event_time (s : Simulator) (current_time : Q) : Q :=
  fold_left (next_release s current_time)
            (seq 0 (List.length (task_instances s)))
            (simulation_time (config s)).

(** [scheduler.select_task] applied to a list of job references. *)
Definition select_ref (s : Simulator) (l : list nat) : option nat :=
  match l with
  | [] => None
  | _ => py_min (fun i => policy_key (policy (scheduler s))
                                     (current_time (scheduler s)) (job s i)) l
  end.

(** Lines 89-102 of [run]: the job chosen for this iteration, and the server
    as [can_serve] leaves it (it is only called when no periodic or dynamic
    job is ready and some aperiodic job is). *)
Definition select_next (s : Simulator) (current_time : Q)
  : option nat * Servers.Server :=
  let periodic_ready :=
    filter (fun i => negb (is_aperiodic s i)) (ready_queue s) in
  let aperiodic_ready := filter (is_aperiodic s) (ready_queue s) in
  match periodic_ready with
  | _ :: _ => (select_ref s periodic_ready, aperiodic_server s)
  | [] =>
      match aperiodic_ready with
      | [] => (None, aperiodic_server s)
      | _ :: _ =>
          let '(ok, srv) := Servers.can_serve (aperiodic_server s)
                                              current_time in
          if ok then (select_ref s aperiodic_ready, srv) else (None, srv)
      end
  end.

Definition bump_preemption (j : Job) : Job :=
  mkJob (task j) (remaining j) (abs_deadline j) (current_release j)
        (started j) (start_time j) (completion_time j)
        (S (preemption_count j)).

Definition set_start_time (t : Q) (j : Job) : Job :=
  mkJob (task j) (remaining j) (abs_deadline j) (current_release j)
        (started j) (Some t) (completion_time j) (preemption_count j).

Definition set_completion_time (t : Q) (j : Job) : Job :=
  mkJob (task j) (remaining j) (abs_deadline j) (current_release j)
        (started j) (start_time j) (Some t) (preemption_count j).

(** "Check for preemption". *)
Definition preempt (s : Simulator) (current_time : Q) (next : nat)
  : Simulator :=
  match current_task s with
  | Some c =>
      if negb (Nat.eqb c next) && preemptive (config s) then
        update_job (log s current_time (Some c) "PREEMPT"
                        (PreemptedBy (task (job s next))))
                   c bump_preemption
      else s
  | None => s
  end.

(** "Start new task if needed": context-switch overhead, then [START]. *)
Definition switch_to (s : Simulator) (current_time : Q) (next : nat)
  : Simulator * Q :=
  if same_ref (current_task s) next then (s, current_time)
  else
    let overhead := context_switch_overhead (config s) in
    let '(s, current_time) :=
      match current_task s with
      | Some _ =>
          if Qltb 0 overhead then
            let t := current_time + overhead in
            let s := log s t None "CONTEXT_SWITCH"
                         (ContextSwitchOverhead overhead) in
            (set_scheduler s (set_current_time (scheduler s) t), t)
          else (s, current_time)
      | None => (s, current_time)
      end in
    match start_time (job s next) with
    | None =>
        (log (update_job s next (set_start_time current_time))
             current_time (Some next) "START" StartedExecution,
         current_time)
    | Some _ => (s, current_time)
    end.

(** "Check if task completed". *)
Definition complete (s : Simulator) (current_time : Q) (next : nat)
  : Simulator :=
  if is_complete (job s next) then
    let s := update_job s next (set_completion_time current_time) in
    let s := set_ready s (remove_first next (ready_queue s)) in
    let s := set_scheduler s (add_completed (scheduler s) next) in
    let s := log s current_time (Some next) "COMPLETE"
                 (Completed (remaining (job s next))) in
    set_current_task s None
  else s.

(** The branch [if next_task:]. *)
Definition run_job (s : Simulator) (current_time : Q) (next : nat)
  : Simulator * Q :=
  let s := preempt s current_time next in
  let '(s, current_time) := switch_to s current_time next in
  let s := set_current_task s (Some next) in
  let execution_time :=
    py_min2 (time_quantum (config s)) (remaining (job s next)) in
  let s := update_job s next (fun j => fst (execute j execution_time)) in
  let s :=
    if is_aperiodic s next then
      set_server s (Servers.consume (aperiodic_server s) execution_time
                                    current_time)
    else s in
  let current_time := current_time + execution_time in
  let s := set_scheduler s (set_current_time (scheduler s) current_time) in
  (complete s current_time next, current_time).

(** The branch [else:] (idle time). *)
Definition idle (s : Simulator) (current_time : Q) : Simulator * Q :=
  let s := set_current_task s None in
  let next_event_time := find_next_event_time s current_time in
  let '(s, current_time) :=
    if Qltb current_time next_event_time then
      (log s current_time None "IDLE" (IdleUntil next_event_time),
       next_event_time)
    else (s, current_time + time_quantum (config s)) in
  (set_scheduler s (set_current_time (scheduler s) current_time),
   current_time).

(** Arrivals, deadline misses and replenishment: the state in which the
    selection is made. *)
Definition prepare (s : Simulator) (current_time : Q) : Simulator :=
  let s := check_arrivals s current_time in
  let s := check_deadline_misses s current_time in
  set_server s (Servers.replenish (aperiodic_server s) current_time).

(** The job this iteration executes, if any. *)
Definition executed (s : Simulator) (current_time : Q) : option nat :=
  fst (select_next (prepare s current_time) current_time).

Definition iteration (s : Simulator) (current_time : Q) : Simulator * Q :=
  let s := prepare s current_time in
  let '(next_task, srv) := select_next s current_time in
  let s := set_server s srv in
  match next_task with
  | Some i => run_job s current_time i
  | None => idle s current_time
  end.

(** [while current_time < simulation_time]; [None] when the fuel runs out. *)
Fixpoint loop (fuel : nat) (s : Simulator) (current_time : Q)
  : option (Simulator * Q) :=
  if Qltb current_time (simulation_time (config s)) then
    match fuel with
    | O => None
    | S fuel =>
        let '(s, current_time) := iteration s current_time in
        loop fuel s current_time
    end
  else Some (s, current_time).

(** The state [run] sets up before its loop. *)
Definition run_start (s : Simulator) : Simulator :=
  let s := set_scheduler s (Schedulers.reset (scheduler s)) in
  let s := set_ready s [] in
  let s := set_current_task s None in
  log s 0 None "START" SimulationStarted.

(** [run]: the simulator as it is left, whose scheduler holds the event log
    and the lists the returned statistics are read from. *)
Definition run (fuel : nat) (s : Simulator) : option Simulator :=
  match loop fuel (run_start s) 0 with
  | Some (s, current_time) =>
      Some (log s current_time None "END" SimulationCompleted)
  | None => None
  end.

Definition event_log (s : Simulator) : list ScheduleEvent :=
  schedule_events (scheduler s).

End Sim.

(** Vocabulary of the job and scheduler properties. *)

Module JobSpec.

(** A job after any number of [execute] calls. *)
Definition executes (j : Job) (durations : list Q) : Job :=
  fold_left (fun j d => fst (execute j d)) durations j.

End JobSpec.

Module SchedulerSpec.
Import Schedulers.

(** [r] is the first element of [l] with the least key: the elements before
    it have strictly larger keys, those after it no smaller one. *)
Definition first_min {A} (key : A -> Key) (r : A) (l : list A) : Prop :=
  exists pre post,
    l = pre ++ r :: post /\
    Forall (fun x => Key_ltb (key r) (key x) = true) pre /\
    Forall (fun x => Key_ltb (key x) (key r) = false) post.

End SchedulerSpec.

(** Vocabulary of the engine properties. *)

Module SimSpec.
Import Parser Schedulers Sim.

Definition miss_event (s : Simulator) (now : Q) (i : nat) : ScheduleEvent :=
  mkEvent now (Some i) "DEADLINE_MISS"
          (DeadlineMissed (abs_deadline (job s i))).

(** Incomplete and past its deadline. *)
Definition late (s : Simulator) (now : Q) (i : nat) : bool :=
  Qltb (abs_deadline (job s i)) now && negb (is_complete (job s i)).

Definition deadline_bearing (s : Simulator) (i : nat) : bool :=
  negb (is_aperiodic s i).

(** The deadline-miss check as the claim words it: the jobs taken out of the
    ready queue and recorded, each with its event, are the incomplete ones
    that are not Aperiodic and have [abs_deadline <= now]. *)
Definition due_as_stated (s : Simulator) (now : Q) (i : nat) : bool :=
  negb (is_aperiodic s i)
  && Qle_bool (abs_deadline (job s i)) now
  && negb (is_complete (job s i)).

Definition deadline_check_as_stated (s : Simulator) (now : Q) : Prop :=
  let s' := check_deadline_misses s now in
  let gone := filter (due_as_stated s now) (ready_queue s) in
  ready_queue s' =
    filter (fun i => negb (due_as_stated s now i)) (ready_queue s) /\
  missed_deadlines (scheduler s') = missed_deadlines (scheduler s) ++ gone /\
  schedule_events (scheduler s') =
    schedule_events (scheduler s) ++ map (miss_event s now) gone.

(** States in which the loop of [run] starts an iteration. *)
Inductive reachable (s0 : Simulator) : Simulator -> Q -> Prop :=
| reachable_start : reachable s0 (run_start s0) 0
| reachable_step s t :
    reachable s0 s t ->
    t < simulation_time (config s) ->
    reachable s0 (fst (iteration s t)) (snd (iteration s t)).

(** One simulation from its four inputs: build the simulator, load the task
    set, run. *)
Definition simulate (gen_fuel fuel : nat) (sch : Scheduler)
  (cfg : SimulationConfig) (srv : Servers.Server) (ts : TaskSet)
  : option Simulator :=
  match load_task_set gen_fuel (Simulator_init sch cfg (Some srv)) ts with
  | Some s => run fuel s
  | None => None
  end.

(** What a run leaves untouched: the policy, and the server up to [reset]. *)
Definition framed (s s' : Simulator) : Prop :=
  policy (scheduler s') = policy (scheduler s) /\
  Servers.reset (aperiodic_server s') = Servers.reset (aperiodic_server s).

(** A small mixed task set: two periodic tasks and one aperiodic task. *)
Definition demo_tasks : TaskSet :=
  let '(t1, c1) := Task_init 0 PERIODIC 1 4 0 0 NONE in
  let '(t2, c2) := Task_init c1 PERIODIC 2 6 0 0 NONE in
  let '(t3, c3) := parse_aperiodic_task c2 3 1 NONE in
  add_task (add_task (add_task TaskSet_init t1) t2) t3.

Definition demo_config : SimulationConfig := mkConfig 12 1 true 0.

(** The [k]-th release of a periodic task. *)
Definition release_no (t : Task) (k : nat) : Q :=
  release_time t + inject_Z (Z.of_nat k) * period t.

(** The jobs of a list that are released at [c], in list order. *)
Definition released_at (c : Q) (l : list Job) : list Job :=
  filter (fun j => Qeq_bool (current_release j) c) l.

Definition by_release (a b : Job) : Prop :=
  current_release a <= current_release b.

(** Position of a task in the task-definition order (tasks are told apart by
    their identifier). *)
Fixpoint position (l : list Task) (t : Task) : nat :=
  match l with
  | [] => 0
  | x :: l => if Nat.eqb (id x) (id t) then 0 else S (position l t)
  end.

(** The tie-break the claim words: of two jobs released at the same time, the
    one listed first belongs to the task defined first. *)
Definition ties_in_definition_order (ts : TaskSet) (l : list Job) : Prop :=
  ForallOrdPairs
    (fun a b =>
       current_release a == current_release b ->
       (position (tasks ts) (task a) <= position (tasks ts) (task b))%nat)
    l.

(** [is_deadline_missed] on a reference into the store [inst]. *)
Definition overdue_in (now : Q) (inst : list Job) (i : nat) : bool :=
  is_deadline_missed (nth i inst dummy_job) now.

End SimSpec.

(** ** simulator.py: schedulability analysis *)

(** ** simulator.py: activation generation in float arithmetic *)

Module Generation.
Import PyFloat Parser Sim.

(** [Job(task, release_time)]: [abs_deadline] is the float sum
    [release_time + task.deadline]. *)
Definition new_job (F : Arith) (task : Task) (release_time : Q) : Job :=
  mkJob task (execution_time task) (add F release_time (deadline task))
        release_time false None None 0.

(** The [while release_time < simulation_time] loop of one periodic task,
    with [release_time += task.period] computed in [F]; [None] when the
    fuel runs out. *)
Fixpoint periodic_jobs (F : Arith) (fuel : nat) (t : Task)
  (release_time horizon : Q) : option (list Job) :=
  if Qltb release_time horizon then
    match fuel with
    | O => None
    | S fuel =>
        match periodic_jobs F fuel t (add F release_time (period t))
                            horizon with
        | Some js => Some (new_job F t release_time :: js)
        | None => None
        end
    end
  else Some [].

Fixpoint all_periodic_jobs (F : Arith) (fuel : nat) (ts : list Task)
  (horizon : Q) : option (list Job) :=
  match ts with
  | [] => Some []
  | t :: ts =>
      match periodic_jobs F fuel t (release_time t) horizon,
            all_periodic_jobs F fuel ts horizon with
      | Some a, Some b => Some (a ++ b)
      | _, _ => None
      end
  end.

(** The list built before sorting. *)
Definition unsorted_instances (F : Arith) (fuel : nat) (ts : TaskSet)
  (horizon : Q) : option (list Job) :=
  match all_periodic_jobs F fuel (periodic_tasks ts) horizon with
  | Some pj =>
      Some (pj ++ map (fun t => new_job F t 0) (dynamic_tasks ts)
               ++ map (fun t => new_job F t (release_time t))
                      (aperiodic_tasks ts))
  | None => None
  end.

Definition generate_task_instances (F : Arith) (fuel : nat)
  (s : Simulator) : option Simulator :=
  match task_set s with
  | None => None
  | Some ts =>
      match unsorted_instances F fuel ts (simulation_time (config s)) with
      | Some l => Some (set_instances s (sort_by_release l))
      | None => None
      end
  end.

Definition load_task_set (F : Arith) (fuel : nat) (s : Simulator)
  (ts : TaskSet) : option Simulator :=
  generate_task_instances F fuel (set_task_set s (Some ts)).

End Generation.

Module GenerationSpec.
Import PyFloat Parser Sim SimSpec Generation.

(** The release of a periodic task after [k] additions of its period to
    its release time. *)
Definition accumulated_from (F : Arith) (t : Task) (r : Q) (k : nat) : Q :=
  Nat.iter k (fun r => add F r (period t)) r.

Definition accumulated (F : Arith) (t : Task) (k : nat) : Q :=
  accumulated_from F t (release_time t) k.

(** Some accumulated release of [t] is not below the horizon. *)
Definition reaches_horizon (F : Arith) (horizon : Q) (t : Task) : Prop :=
  exists n, horizon <= accumulated F t n.

(** [js] holds one fresh job of [t] per accumulated release, in order, up
    to the first one that is not below the horizon. *)
Definition accumulated_activations (F : Arith) (horizon : Q) (t : Task)
  (js : list Job) : Prop :=
  exists n,
    js = map (fun k => new_job F t (accumulated F t k)) (seq 0 n) /\
    (forall k, (k < n)%nat -> accumulated F t k < horizon) /\
    horizon <= accumulated F t n.

(** The jobs in the order [_generate_task_instances] appends them, given the
    jobs [pjs] of each periodic task. *)
Definition appended (F : Arith) (ts : TaskSet) (pjs : list (list Job))
  : list Job :=
  List.concat pjs
  ++ map (fun t => new_job F t 0) (dynamic_tasks ts)
  ++ map (fun t => new_job F t (release_time t)) (aperiodic_tasks ts).

(** One periodic task of period [float(0.1)], released at 0. *)
Definition tenth_task : Task :=
  fst (Task_init 0 PERIODIC (float (1 # 100)) (float (1 # 10)) 0 0 NONE).

Definition tenth_tasks : TaskSet := add_task TaskSet_init tenth_task.

(** One periodic task released at 1 whose period [float(1e-17)] is absorbed
    by the addition [1.0 + 1e-17]. *)
Definition absorbed_task : Task :=
  fst (Task_init 0 PERIODIC 1 (float (1 # 100000000000000000)) 0 1 NONE).

End GenerationSpec.

Module Analysis.
Import PyFloat Parser Sim.

Record Utilization := mkUtilization {
  periodic_utilization : Q;
  dynamic_utilization : Q;
  total_utilization : Q;
  schedulable_rm : bool;
  schedulable_edf : bool
}.

(** What [calculate_utilization] returns: the empty dictionary when no task
    set is loaded, the report, or the [ZeroDivisionError] raised by
    [execution_time / period] on a zero period. *)
Inductive Outcome :=
| NoTaskSet
| Report (u : Utilization)
| ZeroDivision.

(** [util += task.execution_time / task.period], in the arithmetic [F]. *)
Definition add_utilization (F : Arith) (acc : option Q) (t : Task)
  : option Q :=
  match acc with
  | Some u =>
      if Qeq_bool (period t) 0 then None
      else Some (add F u (div F (execution_time t) (period t)))
  | None => None
  end.

Definition utilization_of (F : Arith) (l : list Task) : option Q :=
  fold_left (add_utilization F) l (Some 0).

Definition of_nat (n : nat) : Q := inject_Z (Z.of_nat n).

(** [_rm_bound]: [n * (2 ** (1 / n) - 1)]; [pow] is the float power the
    operator [**] computes. *)
Definition rm_bound (F : Arith) (pow : Q -> Q -> Q) (n : nat) : Q :=
  if Nat.eqb n 0 then 1
  else mul F (of_nat n) (sub F (pow 2 (div F 1 (of_nat n))) 1).

Definition calculate_utilization (F : Arith) (pow : Q -> Q -> Q)
  (s : Simulator) : Outcome :=
  match task_set s with
  | None => NoTaskSet
  | Some ts =>
      match utilization_of F (periodic_tasks ts),
            utilization_of F (dynamic_tasks ts) with
      | Some periodic_util, Some dynamic_util =>
          let total_util := add F periodic_util dynamic_util in
          Report (mkUtilization
                    periodic_util dynamic_util total_util
                    (Qle_bool periodic_util
                              (rm_bound F pow
                                        (List.length (periodic_tasks ts))))
                    (Qle_bool total_util 1))
      | _, _ => ZeroDivision
      end
  end.

End Analysis.

Module AnalysisSpec.
Import PyFloat Parser Sim Analysis.

(** The running sum [0.0 + x1 + x2 + ...] as the loop accumulates it. *)
Definition running_sum (F : Arith) (l : list Q) : Q :=
  fold_left (add F) l 0.

(** [task.execution_time / task.period] *)
Definition quotient (F : Arith) (t : Task) : Q :=
  div F (execution_time t) (period t).

(** The sum of [execution_time / period] over a list of tasks, without
    rounding. *)
Definition sum_utilization (l : list Task) : Q :=
  fold_right (fun t acc => execution_time t / period t + acc) 0 l.

(** The bound [n * (2^(1/n) - 1)] as a real number, 1 for [n = 0]. *)
Definition real_rm_bound (n : nat) : R :=
  if Nat.eqb n 0 then 1%R
  else (INR n * (Rpower 2 (1 / INR n) - 1))%R.

(** The RM test as the claim words it: the combined utilization against the
    bound for the number of Periodic and Dynamic tasks. *)
Definition rm_test_as_stated (ts : TaskSet) (u : Utilization) : Prop :=
  schedulable_rm u = true <->
  (Q2R (sum_utilization (periodic_tasks ts ++ dynamic_tasks ts))
   <= real_rm_bound (List.length (periodic_tasks ts)
                     + List.length (dynamic_tasks ts)))%R.

(** One Dynamic task of utilization 3/2 and no Periodic task. *)
Definition dynamic_only_tasks : TaskSet :=
  add_task TaskSet_init (fst (Task_init 0 DYNAMIC 3 2 2 0 NONE)).

(** Four Periodic tasks of period 13 whose execution times 4, 3, 3, 3 add
    up to the period. *)
Definition thirteenths : TaskSet :=
  let '(t1, c1) := Task_init 0 PERIODIC 4 13 0 0 NONE in
  let '(t2, c2) := Task_init c1 PERIODIC 3 13 0 0 NONE in
  let '(t3, c3) := Task_init c2 PERIODIC 3 13 0 0 NONE in
  let '(t4, c4) := Task_init c3 PERIODIC 3 13 0 0 NONE in
  add_task (add_task (add_task (add_task TaskSet_init t1) t2) t3) t4.

End AnalysisSpec.

(** ** aperiodic_server.py: the factory *)

Module ServerFactory.
Import Servers.

(** [str.upper] on ASCII text: the letters a-z are shifted, the rest is
    kept. *)
Definition upper_ascii (c : ascii) : ascii :=
  let n := nat_of_ascii c in
  if Nat.leb 97 n && Nat.leb n 122 then ascii_of_nat (n - 32) else c.

Fixpoint upper (s : string) : string :=
  match s with
  | EmptyString => EmptyString
  | String c s => String (upper_ascii c) (upper s)
  end.

(** [create_server]; [None] stands for the [ValueError] it raises. *)
Definition create_server (server_type : string) (capacity period : Q)
  : option Server :=
  let server_type := upper server_type in
  if String.eqb server_type "BACKGROUND" then Some BackgroundServer
  else if String.eqb server_type "POLLING" then
    if Qle_bool capacity 0 || Qle_bool period 0 then None
    else Some (PollingServer capacity period)
  else if String.eqb server_type "DEFERRABLE" then
    if Qle_bool capacity 0 || Qle_bool period 0 then None
    else Some (DeferrableServer capacity period)
  else if String.eqb server_type "SPORADIC" then
    if Qle_bool capacity 0 || Qle_bool period 0 then None
    else Some (SporadicServer capacity period)
  else None.

Definition get_available_servers : list string :=
  ["Background"; "Polling"; "Deferrable"; "Sporadic"].

End ServerFactory.

(** ** parser.py: task lines and validation *)

Module ParserRules.
Import Parser Schedulers.

(** [_parse_periodic_task] on the fields that follow the tag [P], converted
    by [float]: [ei pi], [ri ei pi] or [ri ei pi di]; [None] stands for the
    [ValueError] raised on any other number of fields. *)
Definition parse_periodic_task (counter : nat) (fields : list Q)
  : option (Task * nat) :=
  match fields with
  | [ei; pi] => Some (Task_init counter PERIODIC ei pi 0 0 NONE)
  | [ri; ei; pi] => Some (Task_init counter PERIODIC ei pi 0 ri NONE)
  | [ri; ei; pi; di] => Some (Task_init counter PERIODIC ei pi di ri NONE)
  | _ => None
  end.

(** [_parse_dynamic_task] on the converted fields [ei pi di]. *)
Definition parse_dynamic_task (counter : nat) (fields : list Q)
  : option (Task * nat) :=
  match fields with
  | [ei; pi; di] => Some (Task_init counter DYNAMIC ei pi di 0 NONE)
  | _ => None
  end.

(** The messages of [validate_task_set], each about one task. *)
Inductive Violation :=
| ExecutionTimeNotPositive (t : Task)
| ReleaseTimeNegative (t : Task)
| PeriodNotPositive (t : Task)
| DeadlineNotPositive (t : Task).

(** Body of the loop of [validate_task_set]. *)
Definition check_task (errors : list Violation) (t : Task)
  : list Violation :=
  let errors :=
    if Qle_bool (execution_time t) 0
    then errors ++ [ExecutionTimeNotPositive t] else errors in
  let errors :=
    if Qltb (release_time t) 0
    then errors ++ [ReleaseTimeNegative t] else errors in
  if periodic_or_dynamic (type t) then
    let errors :=
      if Qle_bool (period t) 0
      then errors ++ [PeriodNotPositive t] else errors in
    if Qle_bool (deadline t) 0
    then errors ++ [DeadlineNotPositive t] else errors
  else errors.

Definition validate_task_set (ts : TaskSet) : bool * list Violation :=
  let errors := fold_left check_task (tasks ts) [] in
  (Nat.eqb (List.length errors) 0, errors).

End ParserRules.

Module ParserSpec.
Import Parser Schedulers ParserRules.

(** The constraints [validate_task_set] checks on one task. *)
Definition well_formed (t : Task) : Prop :=
  0 < execution_time t /\ 0 <= release_time t /\
  (type t <> APERIODIC -> 0 < period t /\ 0 < deadline t).

Definition has_type (k : TaskType) (t : Task) : bool :=
  TaskType_eqb (type t) k.

(** Arguments of one [Task(...)] call. *)
Record TaskArgs := mkArgs {
  arg_type : TaskType;
  arg_execution_time : Q;
  arg_period : Q;
  arg_deadline : Q;
  arg_release_time : Q;
  arg_server : ServerType
}.

(** Tasks constructed one after the other, the class counter threaded
    through the calls. *)
Fixpoint construct (counter : nat) (args : list TaskArgs)
  : list Task * nat :=
  match args with
  | [] => ([], counter)
  | a :: args =>
      let '(t, counter) :=
        Task_init counter (arg_type a) (arg_execution_time a) (arg_period a)
                  (arg_deadline a) (arg_release_time a) (arg_server a) in
      let '(ts, counter) := construct counter args in
      (t :: ts, counter)
  end.

End ParserSpec.

(** ** scheduler.py: statistics *)

Module Statistics.
Import Schedulers.

(** The display name each scheduler class passes to [Scheduler.__init__]. *)
Definition name (p : Policy) : string :=
  match p with
  | RM => "Rate Monotonic (RM)"
  | EDF => "Earliest Deadline First (EDF)"
  | FCFS => "First Come First Served (FCFS)"
  | SJF => "Shortest Job First (SJF)"
  | LST => "Least Slack Time (LST)"
  | DM => "Deadline Monotonic (DM)"
  end.

(** The dictionary [get_statistics] returns; the last three keys are only
    present when there is a value to report. *)
Record Stats := mkStats {
  scheduler_name : string;
  total_tasks : nat;
  completed_tasks : nat;
  missed_deadlines : nat;
  success_rate : Q;
  total_time : Q;
  avg_response_time : option Q;
  max_response_time : option Q;
  avg_completion_time : option Q
}.

Definition of_nat (n : nat) : Q := inject_Z (Z.of_nat n).

(** [sum(l)] *)
Definition py_sum (l : list Q) : Q := fold_left Qplus l 0.

(** [max(l)] on a non-empty list: the running best is replaced only by a
    strictly larger item. *)
Fixpoint max_from (best : Q) (l : list Q) : Q :=
  match l with
  | [] => best
  | x :: l => if Qltb best x then max_from x l else max_from best l
  end.

Definition mean (l : list Q) : option Q :=
  match l with
  | [] => None
  | _ => Some (py_sum l / of_nat (List.length l))
  end.

Definition maximum (l : list Q) : option Q :=
  match l with
  | [] => None
  | x :: l => Some (max_from x l)
  end.

(** [t.start_time - t.current_release] for the jobs that started. *)
Definition response_times (jobs : list Job) : list Q :=
  flat_map (fun j => match start_time j with
                     | Some t => [t - current_release j]
                     | None => []
                     end) jobs.

Definition completion_times (jobs : list Job) : list Q :=
  flat_map (fun j => match completion_time j with
                     | Some t => [t - current_release j]
                     | None => []
                     end) jobs.

(** [get_statistics]; the jobs the scheduler's lists refer to are read from
    the job store. *)
Definition get_statistics (sch : Scheduler) (store : list Job) : Stats :=
  let completed := Schedulers.completed_tasks sch in
  let missed := Schedulers.missed_deadlines sch in
  let total := (List.length completed + List.length missed)%nat in
  let jobs := map (fun i => nth i store Sim.dummy_job) completed in
  mkStats (name (policy sch)) total (List.length completed)
          (List.length missed)
          (if Nat.eqb total 0 then 0
           else of_nat (List.length completed) / of_nat total * 100)
          (current_time sch)
          (mean (response_times jobs))
          (maximum (response_times jobs))
          (mean (completion_times jobs)).

End Statistics.

(** Vocabulary of the engine invariants. *)

Module EngineSpec.
Import Parser Schedulers Sim SimSpec.

Definition arrival_event (s : Simulator) (now : Q) (i : nat)
  : ScheduleEvent :=
  mkEvent now (Some i) "ARRIVAL" (Arrived (abs_deadline (job s i))).

(** The job references of the store. *)
Definition refs (s : Simulator) : list nat :=
  seq 0 (List.length (task_instances s)).

(** The test of [_find_next_event_time], but for the comparison with the
    running minimum. *)
Definition looked_for (s : Simulator) (now : Q) (i : nat) : Prop :=
  now < current_release (job s i) /\
  ~ In i (ready_queue s) /\ ~ In i (completed_tasks (scheduler s)).

(** A release still to come that the idle branch looks for. *)
Definition awaited (s : Simulator) (now : Q) (i : nat) : Prop :=
  In i (refs s) /\ looked_for s now i.

(** What the engine keeps true of its queues between iterations. *)
Record consistent (s : Simulator) : Prop := mkConsistent {
  ready_nodup : NoDup (ready_queue s);
  completed_nodup : NoDup (completed_tasks (scheduler s));
  missed_nodup : NoDup (missed_deadlines (scheduler s));
  ready_in_store : forall i, In i (ready_queue s) -> In i (refs s);
  completed_in_store :
    forall i, In i (completed_tasks (scheduler s)) -> In i (refs s);
  missed_in_store :
    forall i, In i (missed_deadlines (scheduler s)) -> In i (refs s);
  ready_not_completed :
    forall i, In i (ready_queue s) ->
              ~ In i (completed_tasks (scheduler s));
  ready_not_missed :
    forall i, In i (ready_queue s) ->
              ~ In i (missed_deadlines (scheduler s));
  completed_not_missed :
    forall i, In i (completed_tasks (scheduler s)) ->
              ~ In i (missed_deadlines (scheduler s));
  ready_incomplete :
    forall i, In i (ready_queue s) -> is_complete (job s i) = false;
  completed_complete :
    forall i, In i (completed_tasks (scheduler s)) ->
              is_complete (job s i) = true;
  current_is_ready :
    forall c, current_task s = Some c -> In c (ready_queue s)
}.

(** The parts of a job that no step of the engine writes. *)
Definition same_identity (a b : Job) : Prop :=
  task b = task a /\ abs_deadline b = abs_deadline a /\
  current_release b = current_release a.

(** The event log only grows. *)
Definition log_extends (s s' : Simulator) : Prop :=
  exists more, event_log s' = event_log s ++ more.

(** The fields the queue invariants read. *)
Definition same_queues (s s' : Simulator) : Prop :=
  task_instances s' = task_instances s /\
  ready_queue s' = ready_queue s /\
  current_task s' = current_task s /\
  completed_tasks (scheduler s') = completed_tasks (scheduler s) /\
  missed_deadlines (scheduler s') = missed_deadlines (scheduler s).

(** The least time a running job takes: a ready job has more than [1e-9]
    left. *)
Definition least_step (cfg : SimulationConfig) : Q :=
  py_min2 (time_quantum cfg) epsilon.

End EngineSpec.

Module TimingSpec.
Import Parser Schedulers Sim SimSpec EngineSpec.

(** What the engine keeps true of the times it records, at clock [t]. *)
Record timed (s : Simulator) (t : Q) : Prop := mkTimed {
  ready_released :
    forall i, In i (ready_queue s) -> current_release (job s i) <= t;
  started_after_release :
    forall k st, start_time (job s k) = Some st ->
                 current_release (job s k) <= st /\ st <= t;
  completed_after_start :
    forall k ct, completion_time (job s k) = Some ct ->
                 exists st, start_time (job s k) = Some st /\
                            st <= ct /\ ct <= t;
  current_has_started :
    forall c, current_task s = Some c -> start_time (job s c) <> None;
  completed_have_time :
    forall i, In i (completed_tasks (scheduler s)) ->
              completion_time (job s i) <> None
}.

(** A store as [_generate_task_instances] builds it: no job has run. *)
Definition fresh_store (s : Simulator) : Prop :=
  Forall (fun j => start_time j = None /\ completion_time j = None)
         (task_instances s).

End TimingSpec.

Module EngineMoreSpec.
Import Parser Schedulers Sim SimSpec EngineSpec.

(** Every job recorded as missed is incomplete and past its deadline at
    clock [t]. *)
Definition missed_are_late (s : Simulator) (t : Q) : Prop :=
  forall i, In i (missed_deadlines (scheduler s)) ->
    is_complete (job s i) = false /\ abs_deadline (job s i) < t.

(** The server of [s'] is the server of [s] after some calls that consume
    non-negative amounts only. *)
Definition served_from (s s' : Simulator) : Prop :=
  exists cs,
    Forall ServerSpec.nonneg_consume cs /\
    aperiodic_server s' = snd (Servers.calls (aperiodic_server s) cs).

End EngineMoreSpec.

(** * Properties *)

(** ** Arithmetic helpers *)

Lemma Qltb_lt x y : Qltb x y = true <-> x < y.
Proof.
  unfold Qltb. rewrite negb_true_iff.
  split; intro H.
  - apply Qnot_le_lt. intro L. apply Qle_bool_iff in L. congruence.
  - destruct (Qle_bool y x) eqn:E; [|reflexivity].
    apply Qle_bool_iff in E. exfalso. apply (Qlt_not_le _ _ H E).
Qed.

Lemma Qltb_ge x y : Qltb x y = false <-> y <= x.
Proof.
  unfold Qltb. rewrite negb_false_iff. apply Qle_bool_iff.
Qed.

Lemma Qle_bool_gt x y : Qle_bool x y = false <-> y < x.
Proof.
  rewrite <- Qltb_lt. unfold Qltb. rewrite negb_true_iff. tauto.
Qed.

Lemma py_min2_cases a b :
  (b < a /\ py_min2 a b = b) \/ (a <= b /\ py_min2 a b = a).
Proof.
  unfold py_min2. destruct (Qltb b a) eqn:E.
  - left. split; [now apply Qltb_lt|reflexivity].
  - right. split; [now apply Qltb_ge|reflexivity].
Qed.

Lemma py_max2_cases a b :
  (a < b /\ py_max2 a b = b) \/ (b <= a /\ py_max2 a b = a).
Proof.
  unfold py_max2. destruct (Qltb a b) eqn:E.
  - left. split; [now apply Qltb_lt|reflexivity].
  - right. split; [now apply Qltb_ge|reflexivity].
Qed.

Ltac case_min a b :=
  let H := fresh "Hmin" in let E := fresh "Emin" in
  destruct (py_min2_cases a b) as [[H E]|[H E]]; rewrite ?E in *.

Ltac case_max a b :=
  let H := fresh "Hmax" in let E := fresh "Emax" in
  destruct (py_max2_cases a b) as [[H E]|[H E]]; rewrite ?E in *.

Lemma TaskType_eqb_eq a b : TaskType_eqb a b = true <-> a = b.
Proof. destruct a, b; simpl; split; congruence. Qed.


(** ** Aperiodic servers *)

Module ServerProps.
Import Servers ServerSpec.

Lemma process_entries_split cap now q :
  forall cur rem,
    fold_left (process_entry cap now) q (cur, rem) =
    (fold_left (credit cap) (filter (due now) q) cur,
     rem ++ filter (fun e => negb (due now e)) q).
Proof.
  induction q as [|[rt amount] q IH]; intros cur rem.
  - simpl. now rewrite app_nil_r.
  - cbn [fold_left filter process_entry].
    change (due now (rt, amount)) with (Qle_bool rt now).
    destruct (Qle_bool rt now); cbn [negb fold_left]; rewrite IH.
    + reflexivity.
    + rewrite <- app_assoc. reflexivity.
Qed.

Lemma process_replenishments_spec b q now :
  process_replenishments b q now =
  (set_current b (fold_left (credit (capacity b)) (filter (due now) q)
                            (current_capacity b)),
   filter (fun e => negb (due now e)) q).
Proof.
  unfold process_replenishments.
  rewrite process_entries_split. reflexivity.
Qed.

Lemma can_serve_sporadic b q now :
  can_serve (Sporadic b q) now =
  (Qltb 0 (credited b q now),
   Sporadic (set_current b (credited b q now))
            (filter (fun e => negb (due now e)) q)).
Proof.
  unfold can_serve. rewrite process_replenishments_spec. reflexivity.
Qed.

Lemma replenish_sporadic b q now :
  replenish (Sporadic b q) now =
  Sporadic (set_current b (credited b q now))
           (filter (fun e => negb (due now e)) q).
Proof.
  unfold replenish. rewrite process_replenishments_spec. reflexivity.
Qed.

Lemma credits_bounded cap l :
  0 <= cap -> Forall (fun e => 0 < snd e) l ->
  forall cur, 0 <= cur <= cap ->
    0 <= fold_left (credit cap) l cur <= cap.
Proof.
  intros Hcap Hl. induction Hl as [|e l He Hl IH]; intros cur Hc; simpl.
  - exact Hc.
  - apply IH. unfold credit. cbv beta in He.
    case_min cap (cur + snd e); lra.
Qed.

Lemma Forall_filter_keep {A} (P : A -> Prop) f (l : list A) :
  Forall P l -> Forall P (filter f l).
Proof.
  induction 1; simpl; [constructor|].
  destruct (f x); [constructor|]; assumption.
Qed.

Lemma call_capacity s c : capacity (base (snd (call s c))) = capacity (base s).
Proof.
  destruct c as [t|e t|t|]; destruct s as [b|b|b a|b q]; unfold call;
    rewrite ?can_serve_sporadic, ?replenish_sporadic; simpl;
    try reflexivity.
  - destruct (Qltb 0 _); reflexivity.
  - destruct (boundary_reached b t); reflexivity.
  - destruct (boundary_reached b t); reflexivity.
Qed.

Lemma consume_clamped_bounded b e :
  0 <= e -> bounded (Polling b) -> bounded (Polling (consume_clamped b e)).
Proof.
  unfold bounded, consume_clamped; simpl. intros He [H0 H1].
  destruct (Qltb (current_capacity b - e) 0) eqn:E.
  - lra.
  - apply Qltb_ge in E. lra.
Qed.

Lemma sporadic_credit_preserves b q now :
  0 <= capacity b ->
  bounded (Sporadic b q) /\ queue_ok (Sporadic b q) ->
  let s' := Sporadic (set_current b (credited b q now))
                     (filter (fun e => negb (due now e)) q) in
  bounded s' /\ queue_ok s'.
Proof.
  intros Hcap [Hb Hq]. simpl in *. split.
  - unfold bounded; simpl. unfold credited.
    apply credits_bounded; auto using Forall_filter_keep.
  - now apply Forall_filter_keep.
Qed.

Lemma call_preserves s c :
  0 <= capacity (base s) -> nonneg_consume c ->
  bounded s /\ queue_ok s ->
  bounded (snd (call s c)) /\ queue_ok (snd (call s c)).
Proof.
  intros Hcap Hc [Hb Hq].
  destruct c as [t|e t|t|]; destruct s as [b|b|b a|b q]; unfold call;
    rewrite ?can_serve_sporadic, ?replenish_sporadic;
    try (now apply sporadic_credit_preserves);
    simpl in *; try (split; [exact Hb|exact I]).
  - split; [|exact I]. now apply consume_clamped_bounded.
  - split; [|exact I]. now apply (consume_clamped_bounded b e).
  - (* consume, Sporadic *)
    destruct (Qltb 0 (py_min2 e (current_capacity b))) eqn:E.
    + apply Qltb_lt in E. unfold bounded in *; simpl in *.
      split.
      * case_min e (current_capacity b); lra.
      * apply Forall_app. split; [exact Hq|]. constructor; [exact E|constructor].
    + split; assumption.
  - destruct (boundary_reached b t); split; try exact I; try exact Hb.
    unfold bounded; simpl. lra.
  - destruct (boundary_reached b t); split; try exact I; try exact Hb.
    unfold bounded; simpl. lra.
  - split; [|exact I]. unfold bounded; simpl. lra.
  - split; [|exact I]. unfold bounded; simpl. lra.
  - split; [|exact I]. unfold bounded; simpl. lra.
  - split; [|constructor]. unfold bounded; simpl. lra.
Qed.

Lemma calls_preserve cs :
  Forall nonneg_consume cs ->
  forall s, 0 <= capacity (base s) -> bounded s /\ queue_ok s ->
    bounded (snd (calls s cs)) /\
    capacity (base (snd (calls s cs))) = capacity (base s).
Proof.
  induction 1 as [|c cs Hc Hcs IH]; intros s Hcap Hs; simpl.
  - split; [apply Hs|reflexivity].
  - pose proof (call_preserves s c Hcap Hc Hs) as Hs'.
    pose proof (call_capacity s c) as Ecap.
    destruct (call s c) as [r s']; simpl in *.
    specialize (IH s'). rewrite Ecap in IH.
    specialize (IH Hcap Hs').
    destruct (calls s' cs) as [rs s'']; simpl in *. exact IH.
Qed.

Lemma call_same_base p d c :
  same_base p d ->
  fst (call p c) = fst (call d c) /\
  same_base (snd (call p c)) (snd (call d c)).
Proof.
  intros (b & a & -> & ->).
  destruct c as [t|e t|t|]; simpl.
  - split; [reflexivity|]. now exists b, a.
  - split; [reflexivity|]. now exists (consume_clamped b e), true.
  - destruct (boundary_reached b t); (split; [reflexivity|]).
    + now exists (replenish_full b t), false.
    + now exists b, a.
  - split; [reflexivity|]. now exists (Base_reset b), false.
Qed.

Lemma calls_same_base cs :
  forall p d, same_base p d ->
    fst (calls p cs) = fst (calls d cs) /\
    same_base (snd (calls p cs)) (snd (calls d cs)).
Proof.
  induction cs as [|c cs IH]; intros p d R; simpl.
  - split; [reflexivity|exact R].
  - destruct (call_same_base p d c R) as [E R'].
    destruct (call p c) as [rp p'], (call d c) as [rd d']; simpl in *.
    destruct (IH p' d' R') as [E' R''].
    destruct (calls p' cs) as [rsp p''], (calls d' cs) as [rsd d''];
      simpl in *.
    split; [congruence|exact R''].
Qed.

(** C2 as stated fails: with capacity 2 left, [consume(3, 0)] queues a credit
    of 2 (what was actually consumed), not of 3. *)
Lemma sporadic_credit_is_not_requested_amount :
  ~ pushes_credit_of_amount (Base_init 2 5) [] 3 0.
Proof.
  intros (b' & e & H & _ & _ & Ha).
  vm_compute in H. injection H as _ He. subst e.
  vm_compute in Ha. discriminate Ha.
Qed.

(** C2 (amended).  [SporadicServer.consume(a, t)] lowers [current_capacity]
    by [m = min(a, current_capacity)] and, when [m > 0], appends the credit
    [(t + period, m)] to the pending queue; when [m <= 0] it changes nothing.
    [can_serve(now)] and [replenish(now)] apply, in queue order and capped at
    [capacity], exactly the entries due at [now], drop them and keep the later
    ones; [can_serve] then answers whether capacity is left. *)
Theorem sporadic_consume_then_deferred_credit
  (b : Base) (q : list (Q * Q)) (a t now : Q) :
  let m := py_min2 a (current_capacity b) in
  (0 < m ->
     consume (Sporadic b q) a t =
     Sporadic (set_current b (current_capacity b - m))
              (q ++ [(t + period b, m)])) /\
  (m <= 0 -> consume (Sporadic b q) a t = Sporadic b q) /\
  replenish (Sporadic b q) now =
    Sporadic (set_current b (fold_left (credit (capacity b))
                                       (filter (due now) q)
                                       (current_capacity b)))
             (filter (fun e => negb (due now e)) q) /\
  can_serve (Sporadic b q) now =
    (Qltb 0 (current_capacity (base (replenish (Sporadic b q) now))),
     replenish (Sporadic b q) now).
Proof.
  intro m. split; [|split; [|split]].
  - intro Hm. apply Qltb_lt in Hm. unfold consume. fold m. now rewrite Hm.
  - intro Hm. apply Qltb_ge in Hm. unfold consume. fold m. now rewrite Hm.
  - apply replenish_sporadic.
  - rewrite can_serve_sporadic, replenish_sporadic. reflexivity.
Qed.

Lemma sporadic_consume_then_deferred_credit_witness :
  0 < py_min2 3 (current_capacity (Base_init 2 5)) /\
  consume (SporadicServer 2 5) 3 0 =
    Sporadic (set_current (Base_init 2 5) (2 - py_min2 3 2)) [(0 + 5, 2)].
Proof.
  split; [reflexivity|].
  exact (proj1 (sporadic_consume_then_deferred_credit
                  (Base_init 2 5) [] 3 0 0) eq_refl).
Defined.

(** C8.  A Polling, Deferrable or Sporadic server built with positive
    capacity and period starts with [0 <= current_capacity <= capacity] and
    keeps it through every [can_serve], [consume] (of a non-negative amount),
    [replenish] and [reset]; [capacity] itself never changes. *)
Theorem current_capacity_within_bounds
  (mk : Q -> Q -> Server) (cap per : Q) (cs : list Call) :
  tracked mk -> 0 < cap -> 0 < per -> Forall nonneg_consume cs ->
  bounded (mk cap per) /\
  bounded (snd (calls (mk cap per) cs)) /\
  capacity (base (snd (calls (mk cap per) cs))) = cap.
Proof.
  intros Hmk Hcap _ Hcs.
  assert (H0 : bounded (mk cap per) /\ queue_ok (mk cap per) /\
               capacity (base (mk cap per)) = cap).
  { destruct Hmk; unfold bounded; simpl; repeat split;
      try constructor; lra. }
  destruct H0 as (Hb & Hq & Ec).
  split; [exact Hb|].
  destruct (calls_preserve cs Hcs (mk cap per)) as [Hb' Ec'].
  - rewrite Ec. lra.
  - split; assumption.
  - split; [exact Hb'|congruence].
Qed.

Lemma current_capacity_within_bounds_witness :
  let cs := [Consume 1 1; CanServe 3; Consume 3 4; Replenish 6; Reset;
             Consume (1 # 2) 7] in
  tracked SporadicServer /\ 0 < 2 /\ 0 < 5 /\ Forall nonneg_consume cs /\
  bounded (snd (calls (SporadicServer 2 5) cs)).
Proof.
  intro cs.
  assert (Hcs : Forall nonneg_consume cs).
  { repeat constructor; simpl; discriminate. }
  split; [constructor|].
  split; [reflexivity|].
  split; [reflexivity|].
  split; [exact Hcs|].
  exact (proj1 (proj2 (current_capacity_within_bounds
           SporadicServer 2 5 cs tracked_sporadic eq_refl eq_refl Hcs))).
Defined.

(** C9.  Driven by the same calls from the same capacity and period, a
    Polling and a Deferrable server return the same values and end with the
    same [current_capacity] and [last_replenishment_time]: [is_active] is
    written but never read. *)
Theorem polling_deferrable_same_observations (cap per : Q) (cs : list Call) :
  let p := calls (PollingServer cap per) cs in
  let d := calls (DeferrableServer cap per) cs in
  fst p = fst d /\
  current_capacity (base (snd p)) = current_capacity (base (snd d)) /\
  last_replenishment_time (base (snd p)) =
    last_replenishment_time (base (snd d)).
Proof.
  intros p d.
  destruct (calls_same_base cs (PollingServer cap per)
              (DeferrableServer cap per)) as [E (b & a & Ep & Ed)].
  { now exists (Base_init cap per), false. }
  subst p d. rewrite Ep, Ed. simpl. auto.
Qed.

End ServerProps.

(** ** Tasks and jobs *)

Module JobProps.
Import Parser JobSpec.

Lemma Qltb_compat_l a b c : a == b -> Qltb a c = Qltb b c.
Proof.
  intro E. unfold Qltb. f_equal. now apply Qleb_comp.
Qed.

Lemma executes_keeps_identity ds :
  forall j,
    task (executes j ds) = task j /\
    abs_deadline (executes j ds) = abs_deadline j /\
    current_release (executes j ds) = current_release j.
Proof.
  induction ds as [|d ds IH]; intro j; simpl.
  - auto.
  - destruct (IH (fst (execute j d))) as (E1 & E2 & E3).
    unfold executes in *. simpl in *. auto.
Qed.

(** C10.  The parser builds every Aperiodic task with period 0, hence with
    deadline 0; each of its jobs, however much it has executed, has
    [abs_deadline] equal to its release time, and [is_deadline_missed(t)]
    holds at every [t] after the release while the job is incomplete. *)
Theorem aperiodic_job_deadline_is_its_release
  (counter : nat) (ri ei : Q) (srv : ServerType)
  (release : Q) (durations : list Q) (t : Q) :
  let tk := fst (parse_aperiodic_task counter ri ei srv) in
  let j := executes (Job_init tk release) durations in
  type tk = APERIODIC /\ period tk = 0 /\ deadline tk = 0 /\
  task j = tk /\ current_release j = release /\
  abs_deadline j == release /\
  (release < t -> is_complete j = false -> is_deadline_missed j t = true).
Proof.
  intros tk j.
  destruct (executes_keeps_identity durations (Job_init tk release))
    as (E1 & E2 & E3). fold j in E1, E2, E3. simpl in E1, E2, E3.
  assert (Ed : abs_deadline j == release).
  { rewrite E2. change (deadline tk) with 0. lra. }
  repeat (split; [solve [reflexivity | assumption]|]).
  intros Ht Hc. unfold is_deadline_missed.
  rewrite (Qltb_compat_l _ _ t Ed), Hc.
  apply Qltb_lt in Ht. rewrite Ht. reflexivity.
Qed.

Lemma aperiodic_job_deadline_is_its_release_witness :
  let j := executes
             (Job_init (fst (parse_aperiodic_task 0 3 2 NONE)) 3) [1 # 2] in
  3 < 4 /\ is_complete j = false /\ is_deadline_missed j 4 = true.
Proof.
  intro j. split; [reflexivity|]. split; [reflexivity|].
  exact (proj2 (proj2 (proj2 (proj2 (proj2 (proj2
           (aperiodic_job_deadline_is_its_release 0 3 2 NONE 3 [1 # 2] 4))))))
           eq_refl eq_refl).
Defined.

End JobProps.

(** ** Scheduling policies *)

Module SchedulerProps.
Import Schedulers SchedulerSpec.

Lemma Key_ltb_trans a b c :
  Key_ltb a b = true -> Key_ltb b c = true -> Key_ltb a c = true.
Proof.
  destruct a as [x|], b as [y|], c as [z|]; simpl; try congruence.
  rewrite !Qltb_lt. lra.
Qed.

Lemma Key_ltb_le_trans a b c :
  Key_ltb a b = true -> Key_ltb c b = false -> Key_ltb a c = true.
Proof.
  destruct a as [x|], b as [y|], c as [z|]; simpl; try congruence.
  rewrite !Qltb_lt, Qltb_ge. lra.
Qed.

Lemma Key_ltb_irrefl a : Key_ltb a a = false.
Proof.
  destruct a as [x|]; simpl; [|reflexivity].
  apply Qltb_ge. lra.
Qed.

Section PyMin.
Context {A : Type} (key : A -> Key).

Lemma min_from_spec l :
  forall best,
    (min_from key best l = best /\
     Forall (fun x => Key_ltb (key x) (key best) = false) l) \/
    (Key_ltb (key (min_from key best l)) (key best) = true /\
     first_min key (min_from key best l) l).
Proof.
  induction l as [|x l IH]; intro best; simpl.
  - left. split; [reflexivity|constructor].
  - destruct (Key_ltb (key x) (key best)) eqn:E.
    + right. destruct (IH x) as [[Er Hl]|[Hlt (pre & post & El & Hpre & Hpost)]].
      * rewrite Er. split; [exact E|].
        exists [], l. repeat split; [constructor|exact Hl].
      * split; [eapply Key_ltb_trans; eassumption|].
        exists (x :: pre), post. rewrite El at 1.
        repeat split; [constructor|]; assumption.
    + destruct (IH best) as [[Er Hl]|[Hlt (pre & post & El & Hpre & Hpost)]].
      * left. split; [exact Er|]. constructor; assumption.
      * right. split; [exact Hlt|].
        exists (x :: pre), post. rewrite El at 1.
        repeat split; [constructor|]; try assumption.
        eapply Key_ltb_le_trans; eassumption.
Qed.

Lemma py_min_spec l r : py_min key l = Some r -> first_min key r l.
Proof.
  destruct l as [|x l]; simpl; [discriminate|].
  intro E. injection E as <-.
  destruct (min_from_spec l x) as [[Er Hl]|[Hlt (pre & post & El & Hpre & Hpost)]].
  - rewrite Er. exists [], l. repeat split; [constructor|exact Hl].
  - exists (x :: pre), post. rewrite El at 1.
    repeat split; [constructor|]; assumption.
Qed.

Lemma first_min_In r l : first_min key r l -> In r l.
Proof.
  intros (pre & post & -> & _). apply in_or_app. right. now left.
Qed.
End PyMin.

(** C4.  For each of the six policies [select_task] returns [None] exactly on
    an empty ready list and otherwise the first job, in list order, whose key
    is least: every earlier job has a strictly larger key and no later job
    has a smaller one.  The keys are the period (RM) or relative deadline
    (DM) of the task, infinite for an Aperiodic job, the absolute deadline
    (EDF), the release time (FCFS), the remaining time (SJF) and
    [abs_deadline - current_time - remaining] (LST).  The ready list is only
    read: the embedding is a function of it. *)
Theorem select_task_first_least_key
  (p : Policy) (now : Q) (ready : list Job) :
  (select_task p now ready = None <-> ready = []) /\
  (forall j, select_task p now ready = Some j ->
     first_min (policy_key p now) j ready) /\
  (forall j,
     policy_key RM now j =
       (if TaskType_eqb (type (task j)) APERIODIC then Inf
        else Fin (period (task j))) /\
     policy_key DM now j =
       (if TaskType_eqb (type (task j)) APERIODIC then Inf
        else Fin (deadline (task j))) /\
     policy_key EDF now j = Fin (abs_deadline j) /\
     policy_key FCFS now j = Fin (current_release j) /\
     policy_key SJF now j = Fin (remaining j) /\
     policy_key LST now j = Fin (abs_deadline j - now - remaining j)).
Proof.
  split; [|split].
  - destruct ready as [|x l]; simpl; split; congruence.
  - intros j E. destruct ready as [|x l]; [discriminate|].
    now apply py_min_spec.
  - intro j. simpl. unfold periodic_or_dynamic.
    destruct (type (task j)); simpl; auto 10.
Qed.

Lemma select_task_first_least_key_witness :
  let a := Job_init (mkTask 1 PERIODIC 1 6 6 0 NONE) 0 in
  let b := Job_init (mkTask 2 PERIODIC 1 4 4 0 NONE) 0 in
  let c := Job_init (mkTask 3 DYNAMIC 1 4 4 0 NONE) 0 in
  select_task RM 0 [a; b; c] = Some b /\
  first_min (policy_key RM 0) b [a; b; c].
Proof.
  intros a b c. split; [reflexivity|].
  exact (proj1 (proj2 (select_task_first_least_key RM 0 [a; b; c]))
           b eq_refl).
Defined.

End SchedulerProps.

(** ** Simulation engine: deadline misses *)

Module DeadlineProps.
Import Parser Schedulers Sim SimSpec.

Lemma remove_first_skip x pre l :
  ~ In x pre -> remove_first x (pre ++ x :: l) = pre ++ l.
Proof.
  induction pre as [|y pre IH]; simpl; intro H.
  - now rewrite Nat.eqb_refl.
  - destruct (Nat.eqb_spec y x) as [->|_]; [tauto|].
    f_equal. apply IH. tauto.
Qed.

Lemma filter_filter_and {A} (f g : A -> bool) l :
  filter f (filter g l) = filter (fun x => f x && g x) l.
Proof.
  induction l as [|x l IH]; simpl; [reflexivity|].
  destruct (g x) eqn:G; simpl; destruct (f x) eqn:F; simpl;
    rewrite ?F, IH; reflexivity.
Qed.

Section Check.
Variable now : Q.
Variable inst : list Job.

Local Abbreviation overdue := (overdue_in now inst).

Lemma miss_fields s i :
  task_instances s = inst ->
  let s' := miss now s i in
  task_instances s' = inst /\
  ready_queue s' =
    (if overdue i then remove_first i (ready_queue s) else ready_queue s) /\
  missed_deadlines (scheduler s') =
    missed_deadlines (scheduler s) ++ (if overdue i then [i] else []) /\
  schedule_events (scheduler s') =
    schedule_events (scheduler s) ++
    (if overdue i
     then [mkEvent now (Some i) "DEADLINE_MISS"
                   (DeadlineMissed (abs_deadline (nth i inst dummy_job)))]
     else []).
Proof.
  intros E. unfold miss, overdue_in, job. rewrite E.
  destruct (is_deadline_missed (nth i inst dummy_job) now); simpl.
  - destruct (same_ref (current_task s) i); simpl; rewrite ?E; auto.
  - now rewrite !app_nil_r.
Qed.

Lemma misses_fields l :
  forall s pre,
    task_instances s = inst ->
    ready_queue s = pre ++ l ->
    Forall (fun i => overdue i = false) pre ->
    let s' := fold_left (miss now) l s in
    task_instances s' = inst /\
    ready_queue s' = pre ++ filter (fun i => negb (overdue i)) l /\
    missed_deadlines (scheduler s') =
      missed_deadlines (scheduler s) ++ filter overdue l /\
    schedule_events (scheduler s') =
      schedule_events (scheduler s) ++
      map (fun i => mkEvent now (Some i) "DEADLINE_MISS"
                      (DeadlineMissed (abs_deadline (nth i inst dummy_job))))
          (filter overdue l).
Proof.
  induction l as [|x l IH]; intros s pre Ei Er Hpre; simpl.
  - rewrite !app_nil_r. rewrite app_nil_r in Er. auto.
  - destruct (miss_fields s x Ei) as (Ei' & Er' & Em' & Ee').
    destruct (overdue x) eqn:Ex; simpl.
    + rewrite Er, remove_first_skip in Er'.
      2:{ intro Hin. rewrite Forall_forall in Hpre.
          specialize (Hpre _ Hin). congruence. }
      destruct (IH (miss now s x) pre Ei' Er' Hpre) as (F1 & F2 & F3 & F4).
      rewrite F3, F4, Em', Ee', <- !app_assoc. simpl. auto.
    + rewrite Er in Er'.
      assert (Er'' : ready_queue (miss now s x) = (pre ++ [x]) ++ l)
        by now rewrite <- app_assoc.
      assert (Hpre' : Forall (fun i => overdue i = false) (pre ++ [x])).
      { apply Forall_app. split; [exact Hpre|]. now constructor. }
      destruct (IH (miss now s x) (pre ++ [x]) Ei' Er'' Hpre')
        as (F1 & F2 & F3 & F4).
      rewrite F2, F3, F4, Em', Ee', ?app_nil_r, <- ?app_assoc. simpl. auto.
Qed.
End Check.

(** What [_check_deadline_misses] does to every ready job, Aperiodic or not. *)
Lemma check_deadline_misses_spec s now :
  let s' := check_deadline_misses s now in
  let gone := filter (late s now) (ready_queue s) in
  task_instances s' = task_instances s /\
  ready_queue s' = filter (fun i => negb (late s now i)) (ready_queue s) /\
  missed_deadlines (scheduler s') = missed_deadlines (scheduler s) ++ gone /\
  schedule_events (scheduler s') =
    schedule_events (scheduler s) ++ map (miss_event s now) gone.
Proof.
  exact (misses_fields now (task_instances s) (ready_queue s) s []
           eq_refl eq_refl (Forall_nil _)).
Qed.

(** C1 as stated fails: a ready job with one unit left whose deadline is
    exactly [now] is kept by the check ([is_deadline_missed] compares with
    [>]), where the claim has it removed and recorded. *)
Lemma deadline_equal_to_now_is_not_a_miss :
  let tk := mkTask 1 PERIODIC 5 4 4 0 NONE in
  let j := JobSpec.executes (Job_init tk 0) [1; 1; 1; 1] in
  let s := mkSim (Scheduler_init RM) (mkConfig 24 1 true 0)
                 Servers.BackgroundServer None [j] [0%nat] (Some 0%nat) in
  ready_queue (check_deadline_misses s 4) = [0%nat] /\
  ~ deadline_check_as_stated s 4.
Proof.
  split; [reflexivity|].
  intros (H & _). vm_compute in H. discriminate H.
Qed.

(** The check has no exemption for Aperiodic jobs: one that is still
    incomplete after its release time is recorded as a miss. *)
Lemma aperiodic_job_is_recorded_as_missed :
  let tk := fst (parse_aperiodic_task 0 1 2 NONE) in
  let s := mkSim (Scheduler_init RM) (mkConfig 24 1 true 0)
                 Servers.BackgroundServer None [Job_init tk 1] [0%nat] None in
  is_aperiodic s 0 = true /\
  ready_queue (check_deadline_misses s 2) = [] /\
  missed_deadlines (scheduler (check_deadline_misses s 2)) = [0%nat].
Proof. repeat split. Qed.

(** C1 (amended).  Among the ready Periodic and Dynamic jobs, the
    deadline-miss check removes from the ready queue and records as missed
    exactly those that are incomplete with [abs_deadline < now]; every job it
    records gets a [DEADLINE_MISS] event, in the order of recording. *)
Theorem deadline_check_removes_late_deadline_jobs (s : Simulator) (now : Q) :
  let s' := check_deadline_misses s now in
  exists newly,
    missed_deadlines (scheduler s') = missed_deadlines (scheduler s) ++ newly /\
    schedule_events (scheduler s') =
      schedule_events (scheduler s) ++ map (miss_event s now) newly /\
    filter (deadline_bearing s) newly =
      filter (fun i => deadline_bearing s i && late s now i) (ready_queue s) /\
    filter (deadline_bearing s) (ready_queue s') =
      filter (fun i => deadline_bearing s i && negb (late s now i))
             (ready_queue s).
Proof.
  intro s'. exists (filter (late s now) (ready_queue s)).
  destruct (check_deadline_misses_spec s now) as (_ & Er & Em & Ee).
  fold s' in Er, Em, Ee.
  rewrite Er, !filter_filter_and. auto.
Qed.

End DeadlineProps.

(** ** Simulation engine: selection *)

Module SelectionProps.
Import Parser Schedulers Sim SimSpec SchedulerSpec.

Lemma select_ref_In s l i : select_ref s l = Some i -> In i l.
Proof.
  destruct l as [|x l]; [discriminate|].
  unfold select_ref. intro E.
  eapply SchedulerProps.first_min_In, SchedulerProps.py_min_spec, E.
Qed.

Lemma filter_nil_none {A} (f : A -> bool) l :
  filter f l = [] -> Forall (fun x => f x = false) l.
Proof.
  induction l as [|x l IH]; simpl; [constructor|].
  destruct (f x) eqn:E; [discriminate|].
  intro H. constructor; auto.
Qed.

(** [iteration] runs the job named by [executed], or idles. *)
Lemma iteration_runs_executed s t :
  let s1 := prepare s t in
  let s2 := set_server s1 (snd (select_next s1 t)) in
  iteration s t =
  match executed s t with
  | Some i => run_job s2 t i
  | None => idle s2 t
  end.
Proof.
  unfold iteration, executed.
  destruct (select_next (prepare s t) t) as [next srv]. reflexivity.
Qed.

(** C6.  In every state in which the loop starts an iteration, if the job
    selected for execution is Aperiodic then, at the moment of selection, no
    Periodic or Dynamic job is in the ready queue and [can_serve(now)]
    answered true; the selected job is itself ready. *)
Theorem aperiodic_selected_only_without_deadline_work
  (s0 s : Simulator) (t : Q) (i : nat) :
  reachable s0 s t ->
  executed s t = Some i ->
  is_aperiodic (prepare s t) i = true ->
  let s1 := prepare s t in
  Forall (fun r => is_aperiodic s1 r = true) (ready_queue s1) /\
  fst (Servers.can_serve (aperiodic_server s1) t) = true /\
  In i (ready_queue s1).
Proof.
  intros _ Hex Hap s1. unfold executed, select_next in Hex. fold s1 in Hex, Hap.
  destruct (filter (fun r => negb (is_aperiodic s1 r)) (ready_queue s1))
    as [|x l] eqn:Ep.
  - split; [|].
    { apply filter_nil_none in Ep.
      eapply Forall_impl; [|exact Ep]. simpl.
      intros r Hr. now apply negb_false_iff. }
    destruct (filter (is_aperiodic s1) (ready_queue s1)) as [|y l'] eqn:Ea;
      [discriminate|].
    destruct (Servers.can_serve (aperiodic_server s1) t) as [ok srv].
    destruct ok; [|discriminate]. cbn [fst] in Hex.
    split; [reflexivity|].
    apply select_ref_In in Hex. rewrite <- Ea in Hex.
    now apply filter_In in Hex.
  - cbn [fst] in Hex. apply select_ref_In in Hex. rewrite <- Ep in Hex.
    apply filter_In in Hex. destruct Hex as [_ Hn].
    rewrite Hap in Hn. discriminate.
Qed.

Lemma aperiodic_selected_only_without_deadline_work_witness :
  let ap := fst (parse_aperiodic_task 0 0 1 NONE) in
  let s0 := mkSim (Scheduler_init RM) (mkConfig 10 1 true 0)
                  (Servers.PollingServer 2 5) None [Job_init ap 0] [] None in
  reachable s0 (run_start s0) 0 /\
  executed (run_start s0) 0 = Some 0%nat /\
  is_aperiodic (prepare (run_start s0) 0) 0 = true /\
  fst (Servers.can_serve (aperiodic_server (prepare (run_start s0) 0)) 0)
    = true.
Proof.
  intros ap s0.
  split; [constructor|]. split; [reflexivity|]. split; [reflexivity|].
  exact (proj1 (proj2 (aperiodic_selected_only_without_deadline_work
           s0 (run_start s0) 0 0%nat (reachable_start s0) eq_refl eq_refl))).
Defined.

End SelectionProps.

(** ** Simulation engine: reset and re-run *)

Module RerunProps.
Import Parser Schedulers Sim SimSpec.

Lemma framed_refl s : framed s s.
Proof. split; reflexivity. Qed.

Lemma framed_trans s1 s2 s3 : framed s1 s2 -> framed s2 s3 -> framed s1 s3.
Proof. intros [A B] [C D]. split; congruence. Qed.

Lemma fold_left_framed {A} (f : Simulator -> A -> Simulator) l :
  (forall s x, framed s (f s x)) -> forall s, framed s (fold_left f l s).
Proof.
  intro Hf. induction l as [|x l IH]; intro s; simpl.
  - apply framed_refl.
  - eapply framed_trans; [apply Hf|apply IH].
Qed.

Lemma reset_can_serve srv t :
  Servers.reset (snd (Servers.can_serve srv t)) = Servers.reset srv.
Proof. destruct srv; reflexivity. Qed.

Lemma reset_replenish srv t :
  Servers.reset (Servers.replenish srv t) = Servers.reset srv.
Proof.
  destruct srv as [b|b|b a|b q]; simpl; try reflexivity;
    destruct (Servers.boundary_reached b t); reflexivity.
Qed.

Lemma reset_consume srv e t :
  Servers.reset (Servers.consume srv e t) = Servers.reset srv.
Proof.
  destruct srv as [b|b|b a|b q]; simpl; try reflexivity.
  destruct (Qltb 0 _); reflexivity.
Qed.

Ltac frame := split; reflexivity.

Lemma arrive_framed t s i : framed s (arrive t s i).
Proof. frame. Qed.

Lemma miss_framed t s i : framed s (miss t s i).
Proof.
  unfold miss. destruct (is_deadline_missed _ _); [|frame].
  destruct (same_ref _ _); frame.
Qed.

Lemma prepare_framed s t : framed s (prepare s t).
Proof.
  unfold prepare.
  apply framed_trans with (check_arrivals s t).
  { apply fold_left_framed, arrive_framed. }
  apply framed_trans
    with (check_deadline_misses (check_arrivals s t) t).
  { apply fold_left_framed, miss_framed. }
  split; [reflexivity|]. simpl. apply reset_replenish.
Qed.

Lemma select_next_framed s t :
  Servers.reset (snd (select_next s t)) = Servers.reset (aperiodic_server s).
Proof.
  unfold select_next.
  destruct (filter _ (ready_queue s)); [|reflexivity].
  destruct (filter _ (ready_queue s)); [reflexivity|].
  pose proof (reset_can_serve (aperiodic_server s) t) as H.
  destruct (Servers.can_serve (aperiodic_server s) t) as [[|] srv]; exact H.
Qed.

Lemma preempt_framed s t i : framed s (preempt s t i).
Proof.
  unfold preempt. destruct (current_task s); [|frame].
  destruct (_ && _); frame.
Qed.

Lemma switch_to_framed s t i : framed s (fst (switch_to s t i)).
Proof.
  unfold switch_to. destruct (same_ref _ _); [frame|].
  destruct (current_task s).
  - destruct (Qltb 0 _); destruct (start_time _); frame.
  - destruct (start_time _); frame.
Qed.

Lemma complete_framed s t i : framed s (complete s t i).
Proof. unfold complete. destruct (is_complete _); frame. Qed.

Lemma run_job_framed s t i : framed s (fst (run_job s t i)).
Proof.
  unfold run_job.
  eapply framed_trans; [apply (preempt_framed s t i)|].
  generalize (preempt s t i). intro s1.
  pose proof (switch_to_framed s1 t i) as H.
  destruct (switch_to s1 t i) as [s2 t2]. simpl in H.
  eapply framed_trans; [exact H|]. cbn [fst].
  eapply framed_trans; [|apply complete_framed].
  destruct (is_aperiodic _ _); [|frame].
  split; [reflexivity|]. simpl. apply reset_consume.
Qed.

Lemma idle_framed s t : framed s (fst (idle s t)).
Proof. unfold idle. destruct (Qltb _ _); frame. Qed.

Lemma iteration_framed s t : framed s (fst (iteration s t)).
Proof.
  unfold iteration.
  eapply framed_trans; [apply (prepare_framed s t)|].
  generalize (prepare s t). intro s1.
  pose proof (select_next_framed s1 t) as H.
  destruct (select_next s1 t) as [next srv]. simpl in H.
  assert (F : framed s1 (set_server s1 srv)) by (split; [reflexivity|exact H]).
  eapply framed_trans; [exact F|].
  destruct next; [apply run_job_framed|apply idle_framed].
Qed.

Lemma loop_framed fuel :
  forall s t s' t', loop fuel s t = Some (s', t') -> framed s s'.
Proof.
  induction fuel as [|fuel IH]; intros s t s' t'; simpl.
  - destruct (Qltb _ _); [discriminate|].
    intro E. injection E as <- _. apply framed_refl.
  - destruct (Qltb _ _).
    + pose proof (iteration_framed s t) as F.
      destruct (iteration s t) as [s1 t1]. intro E.
      eapply framed_trans; [exact F|eapply IH, E].
    + intro E. injection E as <- _. apply framed_refl.
Qed.

Lemma run_framed fuel s s' : run fuel s = Some s' -> framed s s'.
Proof.
  unfold run. destruct (loop fuel (run_start s) 0) as [[s1 t1]|] eqn:E;
    [|discriminate].
  intro H. injection H as <-.
  apply loop_framed in E.
  eapply framed_trans; [|eapply framed_trans; [exact E|]]; frame.
Qed.

(** C7.  After a simulation started with the server in its constructed
    state, resetting the scheduler and the server and simulating again with
    the same task set, policy, server and configuration ends in the same
    state as the first run, hence with an identical event log. *)
Theorem reset_then_rerun_reproduces_event_log
  (gen_fuel fuel : nat) (sch : Scheduler) (cfg : SimulationConfig)
  (srv : Servers.Server) (ts : TaskSet) (s1 : Simulator) :
  Servers.reset srv = srv ->
  simulate gen_fuel fuel sch cfg srv ts = Some s1 ->
  exists s2,
    simulate gen_fuel fuel (Schedulers.reset (scheduler s1)) cfg
             (Servers.reset (aperiodic_server s1)) ts = Some s2 /\
    event_log s2 = event_log s1.
Proof.
  intros Hsrv Hrun. exists s1. split; [|reflexivity].
  unfold simulate in *.
  unfold load_task_set, generate_task_instances in *. simpl in *.
  destruct (unsorted_instances gen_fuel ts (simulation_time cfg)) as [l|];
    [|discriminate].
  destruct (run_framed _ _ _ Hrun) as [Ep Es]. simpl in Ep, Es.
  rewrite <- Hrun. unfold run.
  f_equal. f_equal.
  unfold run_start, log, Schedulers.reset. simpl.
  rewrite Ep, Es, Hsrv. reflexivity.
Qed.

Lemma reset_then_rerun_reproduces_event_log_witness :
  match simulate 20 40 (Scheduler_init EDF) demo_config
                 (Servers.SporadicServer 2 5) demo_tasks with
  | Some s1 =>
      Servers.reset (Servers.SporadicServer 2 5) = Servers.SporadicServer 2 5 /\
      List.length (event_log s1) = 22%nat /\
      exists s2,
        simulate 20 40 (Schedulers.reset (scheduler s1)) demo_config
                 (Servers.reset (aperiodic_server s1)) demo_tasks = Some s2 /\
        event_log s2 = event_log s1
  | None => False
  end.
Proof.
  destruct (simulate 20 40 (Scheduler_init EDF) demo_config
              (Servers.SporadicServer 2 5) demo_tasks) as [s1|] eqn:E.
  - split; [reflexivity|]. split.
    + vm_compute in E. injection E as <-. reflexivity.
    + exact (reset_then_rerun_reproduces_event_log 20 40 (Scheduler_init EDF)
               demo_config (Servers.SporadicServer 2 5) demo_tasks s1
               eq_refl E).
  - vm_compute in E. discriminate E.
Defined.

(** The jobs are what [load_task_set] rebuilds: calling [run] again on the
    simulator of a finished run, without loading, finds them complete and
    logs no arrival. *)
Lemma run_again_without_loading_finds_jobs_complete :
  match simulate 20 40 (Scheduler_init EDF) demo_config
                 (Servers.SporadicServer 2 5) demo_tasks with
  | Some s1 =>
      option_map (fun s2 => List.length (event_log s2)) (run 40 s1)
        = Some 7%nat
  | None => False
  end.
Proof. vm_compute. reflexivity. Qed.

End RerunProps.

(** ** Simulation engine: activation generation *)

Module ActivationProps.
Import PyFloat Parser Schedulers Sim SimSpec GenerationSpec.

Lemma release_no_succ t k :
  release_no t (S k) == release_no t k + period t.
Proof.
  unfold release_no. rewrite Nat2Z.inj_succ. unfold Z.succ.
  rewrite inject_Z_plus. ring.
Qed.

Lemma steps_succ (k : nat) (p : Q) :
  inject_Z (Z.of_nat (S k)) * p == inject_Z (Z.of_nat k) * p + p.
Proof.
  rewrite Nat2Z.inj_succ. unfold Z.succ. rewrite inject_Z_plus. ring.
Qed.

Lemma enough_steps (d p : Q) :
  0 < p -> exists n, d <= inject_Z (Z.of_nat n) * p.
Proof.
  intro Hp. exists (Z.to_nat (Qceiling (d / p))).
  assert (H1 : d / p <= inject_Z (Z.of_nat (Z.to_nat (Qceiling (d / p))))).
  { eapply Qle_trans; [apply Qle_ceiling|].
    rewrite <- Zle_Qle. lia. }
  apply (Qmult_le_compat_r _ _ p) in H1; [|lra].
  assert (E : d / p * p == d) by (field; lra).
  lra.
Qed.

(** *** The loop of one periodic task *)

Section Loop.
Variable F : Arith.
Variable t : Task.
Variable horizon : Q.

Lemma from_next r k :
  accumulated_from F t (add F r (period t)) k
  = accumulated_from F t r (S k).
Proof. unfold accumulated_from. now rewrite Nat.iter_succ_r. Qed.

Lemma jobs_from_next r n :
  map (fun k => Generation.new_job F t (accumulated_from F t r k))
      (seq 0 (S n))
  = Generation.new_job F t r
    :: map (fun k => Generation.new_job F t
                       (accumulated_from F t (add F r (period t)) k))
           (seq 0 n).
Proof.
  cbn [seq map]. f_equal. rewrite <- seq_shift, map_map.
  apply map_ext. intro k. now rewrite from_next.
Qed.

(** The loop ends at the first release that is not below the horizon, and
    has then emitted one job for each release before it. *)
Lemma periodic_jobs_ends n :
  forall r fuel,
    (forall k, (k < n)%nat -> accumulated_from F t r k < horizon) ->
    horizon <= accumulated_from F t r n ->
    (n <= fuel)%nat ->
    Generation.periodic_jobs F fuel t r horizon
    = Some (map (fun k => Generation.new_job F t (accumulated_from F t r k))
                (seq 0 n)).
Proof.
  induction n as [|n IH]; intros r fuel Hlt Hge Hfuel.
  - assert (E : Qltb r horizon = false) by (apply Qltb_ge; exact Hge).
    destruct fuel; cbn [Generation.periodic_jobs]; now rewrite E.
  - destruct fuel as [|fuel]; [lia|].
    assert (E : Qltb r horizon = true)
      by (apply Qltb_lt; apply (Hlt 0%nat); lia).
    cbn [Generation.periodic_jobs]. rewrite E.
    rewrite (IH (add F r (period t)) fuel).
    + now rewrite jobs_from_next.
    + intros k Hk. rewrite from_next. apply Hlt. lia.
    + now rewrite from_next.
    + lia.
Qed.

(** It does not end when no release reaches the horizon. *)
Lemma periodic_jobs_never_ends fuel :
  forall r, (forall k, accumulated_from F t r k < horizon) ->
    Generation.periodic_jobs F fuel t r horizon = None.
Proof.
  induction fuel as [|fuel IH]; intros r Hlt;
    assert (E : Qltb r horizon = true) by (apply Qltb_lt; apply (Hlt 0%nat));
    cbn [Generation.periodic_jobs]; rewrite E; [reflexivity|].
  rewrite IH; [reflexivity|].
  intro k. rewrite from_next. apply Hlt.
Qed.

End Loop.

(** The first term of a sequence that is not below [h]. *)
Lemma first_reach (h : Q) (n : nat) :
  forall a : nat -> Q, h <= a n ->
    exists m, (forall k, (k < m)%nat -> a k < h) /\ h <= a m.
Proof.
  induction n as [|n IH]; intros a Hn.
  - exists 0%nat. split; [intros k Hk; lia|exact Hn].
  - destruct (Qlt_le_dec (a 0%nat) h) as [Hlt|Hge].
    + destruct (IH (fun k => a (S k)) Hn) as (m & Hm & Hend).
      exists (S m). split; [|exact Hend].
      intros [|k] Hk; [exact Hlt|apply Hm; lia].
    + exists 0%nat. split; [intros k Hk; lia|exact Hge].
Qed.

Lemma all_periodic_jobs_enough (F : Arith) (horizon : Q) (l : list Task) :
  Forall (reaches_horizon F horizon) l ->
  exists fuel pjs,
    Forall2 (accumulated_activations F horizon) l pjs /\
    forall fuel', (fuel <= fuel')%nat ->
      Generation.all_periodic_jobs F fuel' l horizon
      = Some (List.concat pjs).
Proof.
  induction 1 as [|t l Ht Hl (fuel & pjs & Hpjs & Hall)].
  - exists 0%nat, []. split; [constructor|reflexivity].
  - destruct Ht as [n0 Hn0].
    destruct (first_reach horizon n0 (accumulated F t) Hn0)
      as (n & Hlt & Hge).
    exists (Nat.max n fuel),
           (map (fun k => Generation.new_job F t (accumulated F t k))
                (seq 0 n) :: pjs).
    split.
    + constructor; [|exact Hpjs]. exists n. auto.
    + intros fuel' Hf. cbn [Generation.all_periodic_jobs List.concat].
      rewrite (periodic_jobs_ends F t horizon n (release_time t) fuel'
                 Hlt Hge ltac:(lia)).
      rewrite Hall by lia. reflexivity.
Qed.

(** If the releases of a periodic task never reach the horizon, generation
    does not return, whatever the fuel. *)
Lemma generation_needs_releases_to_reach_horizon
  (F : Arith) (fuel : nat) (s : Simulator) (ts : TaskSet) (t : Task)
  (l : list Task) :
  periodic_tasks ts = t :: l ->
  (forall k, accumulated F t k < simulation_time (config s)) ->
  Generation.load_task_set F fuel s ts = None.
Proof.
  intros E Hlt.
  unfold Generation.load_task_set, Generation.generate_task_instances,
         Generation.unsorted_instances.
  cbn [task_set set_task_set config]. rewrite E.
  cbn [Generation.all_periodic_jobs].
  now rewrite (periodic_jobs_never_ends F t _ fuel (release_time t) Hlt).
Qed.

(** *** Any arithmetic *)

(** The releases reach the horizon when every addition of the period, to a
    release below the horizon, advances it by at least a fixed positive
    step. *)
Lemma steady_progress_reaches_horizon
  (F : Arith) (horizon : Q) (t : Task) (step : Q) :
  0 < step ->
  (forall r, release_time t <= r -> r < horizon ->
     r + step <= add F r (period t)) ->
  reaches_horizon F horizon t.
Proof.
  intros Hs Hadv.
  assert (H : forall n,
    (exists j, horizon <= accumulated F t j) \/
    release_time t + inject_Z (Z.of_nat n) * step <= accumulated F t n).
  { induction n as [|n [IH|IH]].
    - right. change (accumulated F t 0) with (release_time t).
      assert (Z0 : inject_Z (Z.of_nat 0) * step == 0) by (simpl; ring).
      lra.
    - now left.
    - destruct (Qlt_le_dec (accumulated F t n) horizon) as [Hlt|Hge].
      + right. pose proof (steps_succ n step) as Hn.
        assert (H0 : 0 <= inject_Z (Z.of_nat n) * step).
        { apply Qmult_le_0_compat; [|lra].
          change 0 with (inject_Z 0). rewrite <- Zle_Qle. lia. }
        assert (Hadd : accumulated F t n + step <= accumulated F t (S n)).
        { unfold accumulated, accumulated_from in *. rewrite Nat.iter_succ.
          apply Hadv; [lra|exact Hlt]. }
        lra.
      + left. now exists n. }
  destruct (enough_steps (horizon - release_time t) step Hs) as [n Hn].
  destruct (H n) as [Hj|Hr]; [exact Hj|].
  exists n. lra.
Qed.

(** *** Exact arithmetic *)

(** Without rounding the accumulated releases are the multiples
    [release_time + k * period]. *)
Lemma accumulated_exact (F : Arith) (t : Task) (k : nat) :
  exactly F -> accumulated F t k == release_no t k.
Proof.
  intros (Hadd & _). induction k as [|k IH].
  - unfold accumulated, accumulated_from, release_no. simpl. ring.
  - unfold accumulated, accumulated_from in *.
    rewrite Nat.iter_succ, Hadd, IH.
    now rewrite release_no_succ.
Qed.

(** Without rounding a positive period reaches every horizon. *)
Lemma positive_period_reaches_horizon (F : Arith) (horizon : Q) (t : Task) :
  exactly F -> 0 < period t -> reaches_horizon F horizon t.
Proof.
  intros HF Hp.
  destruct (enough_steps (horizon - release_time t) (period t) Hp)
    as [n Hn].
  exists n. rewrite (accumulated_exact F t n HF). unfold release_no. lra.
Qed.

Lemma exact_is_exact : exactly exact.
Proof. repeat split; intros; reflexivity. Qed.

(** The generation the engine's simulator uses is the one in exact
    arithmetic. *)
Lemma periodic_jobs_exact fuel t horizon :
  forall r, Generation.periodic_jobs exact fuel t r horizon
            = periodic_jobs fuel t r horizon.
Proof.
  induction fuel as [|fuel IH]; intro r; [reflexivity|].
  cbn [Generation.periodic_jobs periodic_jobs].
  destruct (Qltb r horizon); [|reflexivity].
  rewrite IH. reflexivity.
Qed.

Lemma load_task_set_exact fuel s ts :
  Generation.load_task_set exact fuel s ts = load_task_set fuel s ts.
Proof.
  unfold Generation.load_task_set, load_task_set,
         Generation.generate_task_instances, generate_task_instances,
         Generation.unsorted_instances, unsorted_instances.
  cbn [task_set set_task_set config].
  assert (E : forall l h, Generation.all_periodic_jobs exact fuel l h
                          = all_periodic_jobs fuel l h).
  { induction l as [|t l IH]; intro h; [reflexivity|].
    cbn [Generation.all_periodic_jobs all_periodic_jobs].
    now rewrite periodic_jobs_exact, IH. }
  rewrite E. reflexivity.
Qed.

(** *** Binary64 arithmetic *)

(** The rounding agrees with the kernel's binary64 operations on the
    numbers used below. *)
Lemma binary64_agrees_with_primitive_floats :
  let tenth := primitive 1 10 in
  of_primitive tenth = float (1 # 10) /\
  of_primitive (PrimFloat.add tenth (primitive 2 10))
    = add binary64 (float (1 # 10)) (float (2 # 10)) /\
  of_primitive (PrimFloat.sub (primitive 9 10) (primitive 18 100))
    = sub binary64 (float (9 # 10)) (float (18 # 100)) /\
  of_primitive (PrimFloat.mul (primitive 10 1) tenth)
    = mul binary64 10 (float (1 # 10)) /\
  of_primitive (primitive 4 13) = div binary64 4 13.
Proof. vm_compute. repeat split. Qed.

(** Ten additions of [0.1] give [0.9999999999999999], which is below 1
    although [10 * 0.1] is 1: over the horizon 1 the task gets an eleventh
    job. *)
Lemma accumulated_release_is_not_a_multiple :
  let s := Simulator_init (Scheduler_init RM) (mkConfig 1 1 true 0) None in
  accumulated binary64 tenth_task 10
    = (9007199254740991 # 9007199254740992) /\
  mul binary64 10 (period tenth_task) = 1 /\
  option_map (fun s' => List.length (task_instances s'))
             (Generation.load_task_set binary64 11 s tenth_tasks)
    = Some 11%nat.
Proof. vm_compute. repeat split. Qed.

(** A period that the addition absorbs ([1.0 + 1e-17 == 1.0]) never lets
    the release reach the horizon: the loop does not end. *)
Lemma absorbed_period_never_ends (fuel : nat) :
  0 < period absorbed_task /\
  Generation.periodic_jobs binary64 fuel absorbed_task 1 2 = None.
Proof.
  split; [reflexivity|].
  apply periodic_jobs_never_ends. intro k.
  assert (E : accumulated_from binary64 absorbed_task 1 k = 1).
  { unfold accumulated_from. induction k as [|k IH]; [reflexivity|].
    rewrite Nat.iter_succ, IH. vm_compute. reflexivity. }
  rewrite E. reflexivity.
Qed.

(** *** The stable sort *)

Lemma insert_perm j l : Permutation (insert_by_release j l) (j :: l).
Proof.
  induction l as [|x l IH]; simpl; [reflexivity|].
  destruct (Qle_bool _ _); [reflexivity|].
  rewrite IH. apply perm_swap.
Qed.

Lemma sort_perm l : Permutation (sort_by_release l) l.
Proof.
  induction l as [|x l IH]; simpl; [reflexivity|].
  rewrite insert_perm. now constructor.
Qed.

Lemma insert_sorted j l :
  StronglySorted by_release l -> StronglySorted by_release (insert_by_release j l).
Proof.
  induction 1 as [|x l Hl IH Hx]; simpl.
  - repeat constructor.
  - destruct (Qle_bool (current_release j) (current_release x)) eqn:E.
    + apply Qle_bool_iff in E. constructor; [now constructor|].
      constructor; [exact E|].
      eapply Forall_impl; [|exact Hx]. unfold by_release. intros a Ha. lra.
    + apply Qle_bool_gt in E. constructor; [exact IH|].
      eapply Permutation_Forall; [symmetry; apply insert_perm|].
      constructor; [unfold by_release; lra|exact Hx].
Qed.

Lemma sort_sorted l : StronglySorted by_release (sort_by_release l).
Proof.
  induction l as [|x l IH]; simpl; [constructor|].
  now apply insert_sorted.
Qed.

(** Insertion only moves a job past jobs released strictly earlier. *)
Lemma insert_released_at c j l :
  released_at c (insert_by_release j l) = released_at c (j :: l).
Proof.
  induction l as [|x l IH]; [reflexivity|].
  cbn [insert_by_release].
  destruct (Qle_bool (current_release j) (current_release x)) eqn:E;
    [reflexivity|].
  apply Qle_bool_gt in E.
  unfold released_at in *. cbn [filter] in *. rewrite IH.
  destruct (Qeq_bool (current_release x) c) eqn:Ex; [|reflexivity].
  destruct (Qeq_bool (current_release j) c) eqn:Ej; [|reflexivity].
  apply Qeq_bool_iff in Ex, Ej. lra.
Qed.

Lemma sort_released_at c l :
  released_at c (sort_by_release l) = released_at c l.
Proof.
  induction l as [|x l IH]; [reflexivity|].
  cbn [sort_by_release fold_right]. fold (sort_by_release l).
  rewrite insert_released_at. unfold released_at in *. cbn [filter].
  now rewrite IH.
Qed.

(** C5 as stated fails: an Aperiodic task defined before a Periodic one, both
    released at 0, has its job listed after the Periodic job. *)
Lemma tie_not_broken_by_definition_order :
  let a := fst (parse_aperiodic_task 0 0 1 NONE) in
  let p := fst (Task_init 1 PERIODIC 1 4 0 0 NONE) in
  let ts := add_task (add_task TaskSet_init a) p in
  let s := Simulator_init (Scheduler_init RM) (mkConfig 4 1 true 0) None in
  let jp := Generation.new_job binary64 p 0 in
  let ja := Generation.new_job binary64 a 0 in
  tasks ts = [a; p] /\
  option_map task_instances (Generation.load_task_set binary64 5 s ts)
    = Some [jp; ja] /\
  ~ ties_in_definition_order ts [jp; ja].
Proof.
  split; [reflexivity|]. split; [vm_compute; reflexivity|].
  intro H. inversion H as [|x l Hx _]; subst.
  inversion Hx as [|y l' Hy _]; subst.
  specialize (Hy ltac:(reflexivity)). vm_compute in Hy. lia.
Qed.

(** C5 (amended).  In any float arithmetic [F]: when, for every Periodic
    task, the running sum [release_time], [release_time + period],
    [(release_time + period) + period], ... reaches the horizon, activation
    generation terminates and yields, whatever the fuel beyond some bound,
    one list.  It holds for each Periodic task one job per running sum, up
    to the first one that is not below the horizon, for each Dynamic task
    one job released at 0 and for each Aperiodic task one job released at
    its [release_time]; it is ordered by release time, and jobs released at
    the same time keep the order of generation: Periodic jobs (task by task
    in [periodic_tasks] order), then Dynamic, then Aperiodic.  The running
    sum reaches every horizon when each addition of the period advances it
    by at least a fixed positive step; when [F] does not round, the running
    sums are [release_time + k * period] and a positive period is
    enough. *)
Theorem activations_generated_in_stable_release_order
  (F : Arith) (s : Simulator) (ts : TaskSet) :
  Forall (reaches_horizon F (simulation_time (config s)))
         (periodic_tasks ts) ->
  (exists fuel pjs l,
     (forall fuel', (fuel <= fuel')%nat ->
        option_map task_instances (Generation.load_task_set F fuel' s ts)
        = Some l) /\
     Forall2 (accumulated_activations F (simulation_time (config s)))
             (periodic_tasks ts) pjs /\
     Permutation l (appended F ts pjs) /\
     StronglySorted by_release l /\
     forall c, released_at c l = released_at c (appended F ts pjs)) /\
  (forall t horizon step,
     0 < step ->
     (forall r, release_time t <= r -> r < horizon ->
        r + step <= add F r (period t)) ->
     reaches_horizon F horizon t) /\
  (exactly F ->
   forall t,
     (forall k, accumulated F t k == release_no t k) /\
     (0 < period t -> forall horizon, reaches_horizon F horizon t)).
Proof.
  intro Hp. split.
  - destruct (all_periodic_jobs_enough F (simulation_time (config s)) _ Hp)
      as (fuel & pjs & Hpjs & Hall).
    exists fuel, pjs, (sort_by_release (appended F ts pjs)).
    split; [|split; [exact Hpjs|split; [|split]]].
    + intros fuel' Hf.
      unfold Generation.load_task_set, Generation.generate_task_instances,
             Generation.unsorted_instances.
      cbn [task_set set_task_set config].
      rewrite (Hall fuel' Hf). reflexivity.
    + apply sort_perm.
    + apply sort_sorted.
    + intro c. apply sort_released_at.
  - split.
    + intros t horizon step. apply steady_progress_reaches_horizon.
    + intros HF t. split.
      * intro k. now apply accumulated_exact.
      * intros Ht horizon. now apply positive_period_reaches_horizon.
Qed.

Lemma activations_generated_in_stable_release_order_witness :
  let s := Simulator_init (Scheduler_init EDF) (mkConfig 1 1 true 0) None in
  Forall (reaches_horizon binary64 1) (periodic_tasks tenth_tasks) /\
  exists fuel pjs l,
    (forall fuel', (fuel <= fuel')%nat ->
       option_map task_instances
                  (Generation.load_task_set binary64 fuel' s tenth_tasks)
       = Some l) /\
    Forall2 (accumulated_activations binary64 1)
            (periodic_tasks tenth_tasks) pjs /\
    Permutation l (appended binary64 tenth_tasks pjs) /\
    StronglySorted by_release l /\
    forall c, released_at c l
              = released_at c (appended binary64 tenth_tasks pjs).
Proof.
  intro s.
  assert (Hp : Forall (reaches_horizon binary64 1)
                      (periodic_tasks tenth_tasks)).
  { repeat constructor. exists 11%nat. vm_compute. discriminate. }
  split; [exact Hp|].
  exact (proj1 (activations_generated_in_stable_release_order
                  binary64 s tenth_tasks Hp)).
Defined.

End ActivationProps.

(** ** Schedulability analysis *)

Module AnalysisProps.
Import PyFloat Parser Sim Analysis AnalysisSpec.

Lemma fold_add_utilization (F : Arith) l :
  Forall (fun t => ~ period t == 0) l ->
  forall a,
    fold_left (add_utilization F) l (Some a)
    = Some (fold_left (add F) (map (quotient F) l) a).
Proof.
  induction 1 as [|t l Ht Hl IH]; intro a; cbn [fold_left map].
  - reflexivity.
  - cbn [add_utilization].
    destruct (Qeq_bool (period t) 0) eqn:E.
    { apply Qeq_bool_iff in E. contradiction. }
    apply IH.
Qed.

Lemma utilization_of_sum (F : Arith) l :
  Forall (fun t => ~ period t == 0) l ->
  utilization_of F l = Some (running_sum F (map (quotient F) l)).
Proof. intro H. apply (fold_add_utilization F l H 0). Qed.

(** Without rounding the running sum is the sum. *)
Lemma running_sum_exact (F : Arith) l :
  exactly F ->
  forall a, fold_left (add F) (map (quotient F) l) a
            == a + sum_utilization l.
Proof.
  intros (Hadd & _ & _ & Hdiv).
  induction l as [|t l IH]; intro a; cbn [fold_left map].
  - unfold sum_utilization. simpl. ring.
  - change (sum_utilization (t :: l))
      with (execution_time t / period t + sum_utilization l).
    rewrite IH. unfold quotient. rewrite Hadd, Hdiv. ring.
Qed.

Lemma sum_utilization_app a b :
  sum_utilization (a ++ b) == sum_utilization a + sum_utilization b.
Proof.
  induction a as [|t a IH]; simpl; [ring|]. rewrite IH. ring.
Qed.

Lemma real_rm_bound_1 : real_rm_bound 1 = 1%R.
Proof.
  unfold real_rm_bound. simpl.
  replace (1 / 1)%R with 1%R by Lra.lra.
  rewrite Rpower_1 by Lra.lra. Lra.lra.
Qed.

(** The report of [calculate_utilization], field by field. *)
Lemma calculate_utilization_fields
  (F : Arith) (pow : Q -> Q -> Q) (s : Simulator) (ts : TaskSet) :
  task_set s = Some ts ->
  Forall (fun t => ~ period t == 0) (periodic_tasks ts ++ dynamic_tasks ts) ->
  exists u,
    calculate_utilization F pow s = Report u /\
    periodic_utilization u
      = running_sum F (map (quotient F) (periodic_tasks ts)) /\
    dynamic_utilization u
      = running_sum F (map (quotient F) (dynamic_tasks ts)) /\
    total_utilization u
      = add F (periodic_utilization u) (dynamic_utilization u) /\
    (schedulable_rm u = true <->
       periodic_utilization u
       <= rm_bound F pow (List.length (periodic_tasks ts))) /\
    (schedulable_edf u = true <-> total_utilization u <= 1) /\
    rm_bound F pow 0 = 1 /\
    (forall n, (0 < n)%nat ->
       rm_bound F pow n
       = mul F (of_nat n) (sub F (pow 2 (div F 1 (of_nat n))) 1)) /\
    (exactly F ->
       periodic_utilization u == sum_utilization (periodic_tasks ts) /\
       dynamic_utilization u == sum_utilization (dynamic_tasks ts) /\
       total_utilization u
         == sum_utilization (periodic_tasks ts ++ dynamic_tasks ts)).
Proof.
  intros Ets Hp. apply Forall_app in Hp. destruct Hp as [Hp Hd].
  unfold calculate_utilization.
  rewrite Ets, (utilization_of_sum F _ Hp), (utilization_of_sum F _ Hd).
  eexists. split; [reflexivity|].
  cbn [periodic_utilization dynamic_utilization total_utilization
       schedulable_rm schedulable_edf].
  split; [reflexivity|]. split; [reflexivity|]. split; [reflexivity|].
  split; [apply Qle_bool_iff|]. split; [apply Qle_bool_iff|].
  split; [reflexivity|]. split.
  - intros [|n] Hn; [lia|reflexivity].
  - intro HF.
    pose proof (running_sum_exact F (periodic_tasks ts) HF 0) as Hpu.
    pose proof (running_sum_exact F (dynamic_tasks ts) HF 0) as Hdu.
    fold (running_sum F (map (quotient F) (periodic_tasks ts))) in Hpu.
    fold (running_sum F (map (quotient F) (dynamic_tasks ts))) in Hdu.
    destruct HF as (Hadd & _).
    split; [rewrite Hpu; ring|]. split; [rewrite Hdu; ring|].
    rewrite Hadd, Hpu, Hdu, sum_utilization_app. ring.
Qed.

(** C3 (amended).  In any float arithmetic [F], with [pow] the power the
    operator [**] computes: [calculate_utilization] reports for the
    Periodic tasks the running sum of the quotients
    [execution_time / period], accumulated from 0 in list order, the same
    for the Dynamic tasks, and as total the sum of the two.
    [schedulable_rm] holds iff the reported Periodic utilization alone is
    at most [rm_bound] of the number of Periodic tasks; [schedulable_edf]
    holds iff the reported total is at most 1.  [rm_bound 0 = 1] and
    [rm_bound n = n * (2 ** (1 / n) - 1)] for positive [n].  When [F] does
    not round, the three utilizations are the sums of
    [execution_time / period]. *)
Theorem utilization_report
  (F : Arith) (pow : Q -> Q -> Q) (s : Simulator) (ts : TaskSet) :
  task_set s = Some ts ->
  Forall (fun t => ~ period t == 0) (periodic_tasks ts ++ dynamic_tasks ts) ->
  exists u,
    calculate_utilization F pow s = Report u /\
    periodic_utilization u
      = running_sum F (map (quotient F) (periodic_tasks ts)) /\
    dynamic_utilization u
      = running_sum F (map (quotient F) (dynamic_tasks ts)) /\
    total_utilization u
      = add F (periodic_utilization u) (dynamic_utilization u) /\
    (schedulable_rm u = true <->
       periodic_utilization u
       <= rm_bound F pow (List.length (periodic_tasks ts))) /\
    (schedulable_edf u = true <-> total_utilization u <= 1) /\
    rm_bound F pow 0 = 1 /\
    (forall n, (0 < n)%nat ->
       rm_bound F pow n
       = mul F (of_nat n) (sub F (pow 2 (div F 1 (of_nat n))) 1)) /\
    (exactly F ->
       periodic_utilization u == sum_utilization (periodic_tasks ts) /\
       dynamic_utilization u == sum_utilization (dynamic_tasks ts) /\
       total_utilization u
         == sum_utilization (periodic_tasks ts ++ dynamic_tasks ts)).
Proof. exact (calculate_utilization_fields F pow s ts). Qed.

(** In binary64 the four quotients 4/13, 3/13, 3/13, 3/13 add up to
    [1.0000000000000002]: the task set, of utilization exactly 1, is
    reported as not schedulable under EDF. *)
Lemma utilization_report_witness :
  let s := set_task_set
             (Simulator_init (Schedulers.Scheduler_init Schedulers.EDF)
                             (mkConfig 26 1 true 0) None)
             (Some thirteenths) in
  Forall (fun t => ~ period t == 0)
         (periodic_tasks thirteenths ++ dynamic_tasks thirteenths) /\
  sum_utilization (periodic_tasks thirteenths) == 1 /\
  forall pow, exists u,
    calculate_utilization binary64 pow s = Report u /\
    total_utilization u = (4503599627370497 # 4503599627370496) /\
    schedulable_edf u = false.
Proof.
  intro s.
  assert (Hp : Forall (fun t => ~ period t == 0)
                 (periodic_tasks thirteenths ++ dynamic_tasks thirteenths)).
  { repeat constructor; discriminate. }
  split; [exact Hp|]. split; [reflexivity|]. intro pow.
  destruct (utilization_report binary64 pow s thirteenths eq_refl Hp)
    as (u & Eu & Hpu & Hdu & Ht & _ & Hedf & _).
  exists u. split; [exact Eu|].
  assert (E : total_utilization u
              = (4503599627370497 # 4503599627370496)).
  { rewrite Ht, Hpu, Hdu. vm_compute. reflexivity. }
  split; [exact E|].
  destruct (schedulable_edf u); [|reflexivity].
  exfalso. assert (H : total_utilization u <= 1) by now apply Hedf.
  rewrite E in H. vm_compute in H. now apply H.
Defined.

(** C3 as stated fails: with no Periodic task and one Dynamic task of
    utilization 3/2, [schedulable_rm] is reported true (the Periodic
    utilization 0 is below [rm_bound 0 = 1]), whatever the arithmetic,
    although the combined utilization 3/2 exceeds the bound 1 for one
    task. *)
Lemma rm_test_ignores_dynamic_tasks :
  let s := set_task_set
             (Simulator_init (Schedulers.Scheduler_init Schedulers.RM)
                             (mkConfig 24 1 true 0) None)
             (Some dynamic_only_tasks) in
  periodic_tasks dynamic_only_tasks = [] /\
  List.length (dynamic_tasks dynamic_only_tasks) = 1%nat /\
  forall F pow, exists u,
    calculate_utilization F pow s = Report u /\
    schedulable_rm u = true /\
    ~ rm_test_as_stated dynamic_only_tasks u.
Proof.
  intro s. split; [reflexivity|]. split; [reflexivity|]. intros F pow.
  assert (Hp : Forall (fun t => ~ period t == 0)
                 (periodic_tasks dynamic_only_tasks
                  ++ dynamic_tasks dynamic_only_tasks)).
  { repeat constructor; discriminate. }
  destruct (calculate_utilization_fields F pow s dynamic_only_tasks
              eq_refl Hp)
    as (u & Eu & Hpu & _ & _ & Hrm & _).
  assert (Htrue : schedulable_rm u = true).
  { apply Hrm. rewrite Hpu. vm_compute. discriminate. }
  exists u. split; [exact Eu|]. split; [exact Htrue|].
  intros [Hst _]. specialize (Hst Htrue).
  change (List.length (periodic_tasks dynamic_only_tasks)
          + List.length (dynamic_tasks dynamic_only_tasks))%nat
    with 1%nat in Hst.
  rewrite real_rm_bound_1 in Hst.
  assert (E : Q2R (sum_utilization (periodic_tasks dynamic_only_tasks
                                    ++ dynamic_tasks dynamic_only_tasks))
              = (3 / 2)%R).
  { rewrite (Qeq_eqR _ (3 # 2)) by (vm_compute; reflexivity).
    unfold Q2R. simpl. Lra.lra. }
  rewrite E in Hst. Lra.lra.
Qed.

End AnalysisProps.

(** ** Aperiodic servers: composition, factory *)

Module ServerMoreProps.
Import Servers ServerSpec ServerFactory.

Lemma filter_due_notdue now q :
  filter (due now) (filter (fun e => negb (due now e)) q) = [].
Proof.
  induction q as [|e q IH]; simpl; [reflexivity|].
  destruct (due now e) eqn:E; simpl; rewrite ?E; exact IH.
Qed.

Lemma filter_idem {A} (f : A -> bool) l : filter f (filter f l) = filter f l.
Proof.
  induction l as [|x l IH]; simpl; [reflexivity|].
  destruct (f x) eqn:E; simpl; rewrite ?E, IH; reflexivity.
Qed.

(** X3.  Replenishing twice at the same instant is replenishing once, and
    [can_serve] called right after [replenish] at the same instant (as the
    engine does) leaves the server as it is. *)
Theorem replenish_settles_the_instant (s : Server) (t : Q) :
  replenish (replenish s t) t = replenish s t /\
  snd (can_serve (replenish s t) t) = replenish s t.
Proof.
  destruct s as [b|b|b a|b q].
  - split; reflexivity.
  - split.
    + simpl. destruct (boundary_reached b t) eqn:E; simpl.
      * destruct (boundary_reached (replenish_full b t) t); reflexivity.
      * now rewrite E.
    + simpl. destruct (boundary_reached b t); reflexivity.
  - split.
    + simpl. destruct (boundary_reached b t) eqn:E; simpl.
      * destruct (boundary_reached (replenish_full b t) t); reflexivity.
      * now rewrite E.
    + simpl. destruct (boundary_reached b t); reflexivity.
  - rewrite ServerProps.replenish_sporadic.
    rewrite ServerProps.replenish_sporadic, ServerProps.can_serve_sporadic.
    unfold credited. cbn [capacity current_capacity set_current snd].
    rewrite filter_due_notdue, filter_idem. split; reflexivity.
Qed.

(** X4.  The Background server admits aperiodic work at every instant and no
    call changes it. *)
Theorem background_always_serves (cs : list Call) (t : Q) :
  snd (calls BackgroundServer cs) = BackgroundServer /\
  fst (can_serve (snd (calls BackgroundServer cs)) t) = true.
Proof.
  assert (H : snd (calls BackgroundServer cs) = BackgroundServer).
  { induction cs as [|c cs IH]; simpl; [reflexivity|].
    assert (E : snd (call BackgroundServer c) = BackgroundServer)
      by (destruct c; reflexivity).
    destruct (call BackgroundServer c) as [r s1]. simpl in E. subst s1.
    destruct (calls BackgroundServer cs) as [rs s2]. exact IH. }
  rewrite H. split; reflexivity.
Qed.

Lemma upper_ascii_idem c : upper_ascii (upper_ascii c) = upper_ascii c.
Proof.
  destruct c as [[] [] [] [] [] [] [] []]; reflexivity.
Qed.

Lemma upper_idem s : upper (upper s) = upper s.
Proof.
  induction s as [|c s IH]; simpl; [reflexivity|].
  now rewrite upper_ascii_idem, IH.
Qed.

(** X5.  [create_server] matches the server name whatever its letter case and
    accepts every name [get_available_servers] lists, given a positive
    capacity and period. *)
Theorem create_server_accepts_listed_names
  (name : string) (cap per : Q) :
  create_server (upper name) cap per = create_server name cap per /\
  (In name get_available_servers -> 0 < cap -> 0 < per ->
   create_server name cap per <> None).
Proof.
  split.
  - unfold create_server. now rewrite upper_idem.
  - intros Hin Hc Hp.
    assert (E1 : Qle_bool cap 0 = false) by now apply Qle_bool_gt.
    assert (E2 : Qle_bool per 0 = false) by now apply Qle_bool_gt.
    simpl in Hin.
    destruct Hin as [<-|[<-|[<-|[<-|[]]]]]; unfold create_server; simpl;
      rewrite ?E1, ?E2; discriminate.
Qed.

Lemma create_server_accepts_listed_names_witness :
  In "Sporadic" get_available_servers /\ 0 < 2 /\ 0 < 5 /\
  create_server "Sporadic" 2 5 <> None.
Proof.
  assert (Hin : In "Sporadic" get_available_servers)
    by (simpl; auto).
  split; [exact Hin|]. split; [reflexivity|]. split; [reflexivity|].
  exact (proj2 (create_server_accepts_listed_names "Sporadic" 2 5)
           Hin eq_refl eq_refl).
Defined.

(** X6.  A server that [create_server] returns is in its constructed state
    ([reset] leaves it as it is) with [0 <= current_capacity <= capacity];
    unless it is the Background server, it got a positive capacity and
    period, which the factory refuses otherwise. *)
Theorem created_server_is_fresh_and_bounded
  (name : string) (cap per : Q) (srv : Server) :
  create_server name cap per = Some srv ->
  reset srv = srv /\ bounded srv /\
  (srv = BackgroundServer \/
   (0 < cap /\ 0 < per /\ exists mk, tracked mk /\ srv = mk cap per)).
Proof.
  unfold create_server.
  destruct (String.eqb (upper name) "BACKGROUND").
  { intro E. injection E as <-. split; [reflexivity|].
    split; [|now left]. unfold bounded. simpl. lra. }
  assert (K : forall mk, tracked mk ->
    (if Qle_bool cap 0 || Qle_bool per 0 then None else Some (mk cap per))
      = Some srv ->
    reset srv = srv /\ bounded srv /\
    (srv = BackgroundServer \/
     (0 < cap /\ 0 < per /\ exists mk, tracked mk /\ srv = mk cap per))).
  { intros mk Hmk.
    destruct (Qle_bool cap 0) eqn:E1; [discriminate|].
    destruct (Qle_bool per 0) eqn:E2; [discriminate|].
    apply Qle_bool_gt in E1, E2. simpl. intro E. injection E as <-.
    split; [destruct Hmk; reflexivity|].
    split; [destruct Hmk; unfold bounded; simpl; lra|].
    right. split; [exact E1|]. split; [exact E2|]. now exists mk. }
  destruct (String.eqb (upper name) "POLLING"); [apply K; constructor|].
  destruct (String.eqb (upper name) "DEFERRABLE"); [apply K; constructor|].
  destruct (String.eqb (upper name) "SPORADIC"); [apply K; constructor|].
  discriminate.
Qed.

Lemma created_server_is_fresh_and_bounded_witness :
  create_server "polling" 2 5 = Some (PollingServer 2 5) /\
  reset (PollingServer 2 5) = PollingServer 2 5 /\
  bounded (PollingServer 2 5).
Proof.
  split; [reflexivity|].
  pose proof (created_server_is_fresh_and_bounded "polling" 2 5
                (PollingServer 2 5) eq_refl) as H.
  split; [exact (proj1 H)|exact (proj1 (proj2 H))].
Defined.

End ServerMoreProps.

(** ** Jobs, task construction and validation *)

Module ParserProps.
Import Parser Schedulers ParserRules ParserSpec.

(** X7.  [Job.execute] returns [min(duration, remaining)] and lowers
    [remaining] by exactly that amount, leaving the task, deadline and
    release untouched; for a non-negative duration and remaining time the
    new remaining time lies between 0 and the old one, and a duration that
    covers the remaining time completes the job. *)
Theorem execute_lowers_remaining_by_time_run (j : Job) (duration : Q) :
  let j' := fst (execute j duration) in
  let ran := snd (execute j duration) in
  ran = py_min2 duration (remaining j) /\
  remaining j' == remaining j - ran /\
  started j' = true /\
  task j' = task j /\ abs_deadline j' = abs_deadline j /\
  current_release j' = current_release j /\
  (0 <= duration -> 0 <= remaining j ->
     0 <= ran <= duration /\ 0 <= remaining j' <= remaining j) /\
  (0 <= remaining j <= duration -> is_complete j' = true).
Proof.
  intros j' ran. subst j' ran. unfold execute. cbn [fst snd remaining].
  split; [reflexivity|].
  assert (E : py_max2 0 (remaining j - py_min2 duration (remaining j))
              == remaining j - py_min2 duration (remaining j)).
  { case_min duration (remaining j);
      match goal with |- py_max2 ?x ?y == _ => case_max x y end; lra. }
  split; [exact E|].
  repeat (split; [reflexivity|]).
  split.
  - intros Hd Hr. rewrite E.
    case_min duration (remaining j); lra.
  - intros [Hr Hd]. unfold is_complete. cbn [remaining].
    apply Qle_bool_iff. rewrite E. unfold epsilon.
    case_min duration (remaining j); lra.
Qed.

Lemma execute_lowers_remaining_by_time_run_witness :
  let j := Job_init (mkTask 1 PERIODIC 2 6 6 0 NONE) 0 in
  0 <= 1 /\ 0 <= remaining j /\
  0 <= remaining (fst (execute j 1)) <= remaining j /\
  is_complete (fst (execute j 3)) = true.
Proof.
  intro j.
  assert (H1 : 0 <= 1) by discriminate.
  assert (H2 : 0 <= remaining j) by discriminate.
  split; [exact H1|]. split; [exact H2|]. split.
  - exact (proj2 (proj1 (proj2 (proj2 (proj2 (proj2 (proj2 (proj2
             (execute_lowers_remaining_by_time_run j 1))))))) H1 H2)).
  - apply (proj2 (proj2 (proj2 (proj2 (proj2 (proj2 (proj2
             (execute_lowers_remaining_by_time_run j 3)))))))).
    split; discriminate.
Defined.

Lemma add_tasks_fields l :
  forall ts,
    let ts' := fold_left add_task l ts in
    tasks ts' = tasks ts ++ l /\
    periodic_tasks ts' = periodic_tasks ts ++ filter (has_type PERIODIC) l /\
    dynamic_tasks ts' = dynamic_tasks ts ++ filter (has_type DYNAMIC) l /\
    aperiodic_tasks ts' = aperiodic_tasks ts ++ filter (has_type APERIODIC) l.
Proof.
  induction l as [|t l IH]; intro ts; simpl.
  - rewrite !app_nil_r. auto.
  - destruct (IH (add_task ts t)) as (E1 & E2 & E3 & E4).
    rewrite E1, E2, E3, E4. unfold add_task, has_type.
    destruct (type t); simpl; rewrite <- ?app_assoc, ?app_nil_r; auto.
Qed.

(** X8.  A task set filled by [add_task] keeps every task, in the order
    added, in [tasks], and lists each of them once more in the list of its
    kind: the three kind lists are the Periodic, Dynamic and Aperiodic tasks
    of [tasks], each in the order added. *)
Theorem add_task_partitions_by_kind (l : list Task) :
  let ts := fold_left add_task l TaskSet_init in
  tasks ts = l /\
  periodic_tasks ts = filter (has_type PERIODIC) l /\
  dynamic_tasks ts = filter (has_type DYNAMIC) l /\
  aperiodic_tasks ts = filter (has_type APERIODIC) l /\
  (List.length (periodic_tasks ts) + List.length (dynamic_tasks ts)
   + List.length (aperiodic_tasks ts) = List.length l)%nat.
Proof.
  intro ts. destruct (add_tasks_fields l TaskSet_init) as (E1 & E2 & E3 & E4).
  fold ts in E1, E2, E3, E4. simpl in E1, E2, E3, E4.
  rewrite E1, E2, E3, E4. repeat (split; [reflexivity|]).
  clear. induction l as [|t l IH]; [reflexivity|].
  cbn [filter List.length]. unfold has_type in *.
  destruct (type t); cbn [TaskType_eqb List.length]; lia.
Qed.

Lemma check_task_appends errors t :
  check_task errors t = errors ++ check_task [] t.
Proof.
  unfold check_task.
  destruct (Qle_bool (execution_time t) 0), (Qltb (release_time t) 0),
    (periodic_or_dynamic (type t)), (Qle_bool (period t) 0),
    (Qle_bool (deadline t) 0);
    simpl; rewrite <- ?app_assoc, ?app_nil_r; reflexivity.
Qed.

Lemma validate_errors l :
  forall errors,
    fold_left check_task l errors = errors ++ flat_map (check_task []) l.
Proof.
  induction l as [|t l IH]; intro errors; simpl.
  - now rewrite app_nil_r.
  - rewrite IH, (check_task_appends errors t), <- app_assoc. reflexivity.
Qed.

Lemma check_task_clean t : check_task [] t = [] <-> well_formed t.
Proof.
  unfold well_formed. split.
  - intro H. unfold check_task in H.
    destruct (Qle_bool (execution_time t) 0) eqn:E1.
    { exfalso.
      destruct (Qltb (release_time t) 0), (periodic_or_dynamic (type t)),
        (Qle_bool (period t) 0), (Qle_bool (deadline t) 0);
        simpl in H; discriminate. }
    destruct (Qltb (release_time t) 0) eqn:E2.
    { exfalso.
      destruct (periodic_or_dynamic (type t)),
        (Qle_bool (period t) 0), (Qle_bool (deadline t) 0);
        simpl in H; discriminate. }
    apply Qle_bool_gt in E1. apply Qltb_ge in E2.
    split; [exact E1|]. split; [exact E2|].
    intro Hty.
    assert (Ek : periodic_or_dynamic (type t) = true)
      by (destruct (type t); try reflexivity; congruence).
    rewrite Ek in H.
    destruct (Qle_bool (period t) 0) eqn:E3.
    { destruct (Qle_bool (deadline t) 0); simpl in H; discriminate. }
    destruct (Qle_bool (deadline t) 0) eqn:E4; [discriminate|].
    apply Qle_bool_gt in E3, E4. auto.
  - intros (H1 & H2 & H3). unfold check_task.
    apply Qle_bool_gt in H1. apply Qltb_ge in H2. rewrite H1, H2.
    destruct (periodic_or_dynamic (type t)) eqn:Ek; [|reflexivity].
    destruct H3 as [H3 H4].
    { unfold periodic_or_dynamic in Ek.
      destruct (type t); simpl in Ek; congruence. }
    apply Qle_bool_gt in H3, H4. rewrite H3, H4. reflexivity.
Qed.

(** X9.  [validate_task_set] answers valid exactly when it has no message,
    and that is exactly when every task has a positive execution time, a
    non-negative release time and, unless Aperiodic, a positive period and
    deadline. *)
Theorem validate_task_set_accepts_well_formed (ts : TaskSet) :
  (fst (validate_task_set ts) = true <-> snd (validate_task_set ts) = []) /\
  (fst (validate_task_set ts) = true <-> Forall well_formed (tasks ts)).
Proof.
  unfold validate_task_set. cbn [fst snd].
  rewrite validate_errors. cbn [app].
  assert (H : flat_map (check_task []) (tasks ts) = [] <->
              Forall well_formed (tasks ts)).
  { induction (tasks ts) as [|t l IH]; simpl.
    - split; auto.
    - split.
      + intro E. apply app_eq_nil in E. destruct E as [Et El].
        constructor; [now apply check_task_clean|now apply IH].
      + intro F. inversion F as [|? ? Ft Fl]; subst.
        apply check_task_clean in Ft. apply IH in Fl.
        now rewrite Ft, Fl. }
  assert (L : forall l : list Violation,
            Nat.eqb (List.length l) 0 = true <-> l = []).
  { intros [|x l]; simpl; split; congruence. }
  split; [apply L|]. rewrite L. exact H.
Qed.

(** X10.  A constructed task has a positive deadline unless both the
    deadline passed and the period are non-positive; so validation never
    reports a deadline without also reporting the period, and a Periodic
    line without a deadline field gets the period as its deadline. *)
Theorem deadline_defaults_to_period
  (counter : nat) (k : TaskType) (e p d r : Q) (srv : ServerType) :
  let t := fst (Task_init counter k e p d r srv) in
  (0 < d -> deadline t = d) /\
  (d <= 0 -> deadline t = p) /\
  (In (DeadlineNotPositive t) (check_task [] t) ->
   In (PeriodNotPositive t) (check_task [] t)) /\
  (forall c ri ei pi,
     option_map (fun r => deadline (fst r))
                (parse_periodic_task c [ri; ei; pi]) = Some pi /\
     option_map (fun r => deadline (fst r))
                (parse_periodic_task c [ei; pi]) = Some pi).
Proof.
  intro t. subst t. unfold Task_init. cbn [fst deadline].
  split; [|split; [|split]].
  - intro H. apply Qltb_lt in H. now rewrite H.
  - intro H. apply Qltb_ge in H. now rewrite H.
  - unfold check_task. cbn [execution_time release_time type period deadline].
    destruct (periodic_or_dynamic k).
    2:{ destruct (Qle_bool e 0), (Qltb r 0); simpl; intuition discriminate. }
    destruct (Qltb 0 d) eqn:Ed.
    + apply Qltb_lt in Ed.
      assert (E : Qle_bool d 0 = false) by now apply Qle_bool_gt.
      rewrite E. destruct (Qle_bool e 0), (Qltb r 0), (Qle_bool p 0); simpl;
        intuition discriminate.
    + destruct (Qle_bool p 0); [|destruct (Qle_bool e 0), (Qltb r 0); simpl;
        intuition discriminate].
      intros _. apply in_or_app. left. apply in_or_app. right. now left.
  - intros c ri ei pi. split; reflexivity.
Qed.

Lemma deadline_defaults_to_period_witness :
  let t := fst (Task_init 0 PERIODIC 1 0 0 0 NONE) in
  In (DeadlineNotPositive t) (check_task [] t) /\
  In (PeriodNotPositive t) (check_task [] t).
Proof.
  intro t.
  assert (H : In (DeadlineNotPositive t) (check_task [] t))
    by (simpl; auto).
  split; [exact H|].
  exact (proj1 (proj2 (proj2
           (deadline_defaults_to_period 0 PERIODIC 1 0 0 0 NONE))) H).
Defined.

Lemma construct_ids args :
  forall counter,
    Forall (fun t => (counter < id t <= snd (construct counter args))%nat)
           (fst (construct counter args)) /\
    (counter <= snd (construct counter args))%nat /\
    NoDup (map id (fst (construct counter args))).
Proof.
  induction args as [|a args IH]; intro counter; simpl.
  - repeat split; [constructor|lia|constructor].
  - destruct (IH (S counter)) as (F & L & N).
    destruct (construct (S counter) args) as [ts c']. simpl in *.
    split; [|split; [lia|]].
    + constructor; [simpl; lia|].
      eapply Forall_impl; [|exact F]. simpl. intros t Ht. lia.
    + constructor; [|exact N].
      intro Hin. apply in_map_iff in Hin. destruct Hin as (t & Et & Hin).
      rewrite Forall_forall in F. specialize (F t Hin). lia.
Qed.

(** X11.  Tasks constructed one after the other get the identifiers
    [counter + 1], [counter + 2], ...: they are pairwise distinct, larger
    than the counter found, and the counter left is their number added to
    the one found. *)
Theorem constructed_tasks_have_fresh_ids
  (counter : nat) (args : list TaskArgs) :
  let ts := fst (construct counter args) in
  map id ts = seq (S counter) (List.length args) /\
  NoDup (map id ts) /\
  snd (construct counter args) = (counter + List.length args)%nat.
Proof.
  intro ts. subst ts.
  assert (H : map id (fst (construct counter args))
              = seq (S counter) (List.length args) /\
              snd (construct counter args)
              = (counter + List.length args)%nat).
  { revert counter. induction args as [|a args IH]; intro counter; simpl.
    - split; [reflexivity|lia].
    - destruct (IH (S counter)) as [E1 E2].
      destruct (construct (S counter) args) as [ts c']. simpl in *.
      split; [now rewrite E1|lia]. }
  destruct H as [E1 E2]. split; [exact E1|]. split; [|exact E2].
  apply construct_ids.
Qed.

End ParserProps.

(** ** Scheduler: priorities and statistics *)

Module SchedulerMoreProps.
Import Schedulers SchedulerSpec Statistics.

(** X12.  Under RM and DM an Aperiodic job is never selected from a ready
    list that holds a Periodic or Dynamic job: the infinite key keeps it
    behind every job with a period or deadline. *)
Theorem fixed_priority_prefers_deadline_jobs
  (p : Policy) (now : Q) (ready : list Job) (j x : Job) :
  p = RM \/ p = DM ->
  select_task p now ready = Some j ->
  In x ready -> type (task x) <> APERIODIC ->
  type (task j) <> APERIODIC.
Proof.
  intros Hp Hsel Hx Hxt Hjt.
  assert (Kj : policy_key p now j = Inf).
  { destruct Hp; subst p; simpl; unfold periodic_or_dynamic;
      rewrite Hjt; reflexivity. }
  assert (Kx : exists q, policy_key p now x = Fin q).
  { destruct Hp; subst p; simpl; unfold periodic_or_dynamic;
      destruct (type (task x)); simpl; eauto; congruence. }
  destruct Kx as [q Kx].
  destruct ready as [|y l]; [discriminate|].
  unfold select_task in Hsel.
  apply SchedulerProps.py_min_spec in Hsel.
  destruct Hsel as (pre & post & E & Hpre & Hpost).
  rewrite E in Hx. apply in_app_or in Hx. destruct Hx as [Hx|[Hx|Hx]].
  - rewrite Forall_forall in Hpre. specialize (Hpre x Hx).
    rewrite Kj in Hpre. discriminate.
  - subst x. congruence.
  - rewrite Forall_forall in Hpost. specialize (Hpost x Hx).
    rewrite Kj, Kx in Hpost. discriminate.
Qed.

Lemma fixed_priority_prefers_deadline_jobs_witness :
  let a := Job_init (fst (Parser.parse_aperiodic_task 0 0 1 NONE)) 0 in
  let b := Job_init (mkTask 2 PERIODIC 1 4 4 0 NONE) 0 in
  select_task DM 0 [a; b] = Some b /\ In b [a; b] /\
  type (task b) <> APERIODIC.
Proof.
  intros a b.
  assert (Hin : In b [a; b]) by (simpl; auto).
  assert (Hb : type (task b) <> APERIODIC) by discriminate.
  split; [reflexivity|]. split; [exact Hin|].
  exact (fixed_priority_prefers_deadline_jobs DM 0 [a; b] b b
           (or_intror eq_refl) eq_refl Hin Hb).
Defined.

Lemma of_nat_pos n : (0 < n)%nat -> 0 < of_nat n.
Proof.
  intro H. unfold of_nat. change 0 with (inject_Z 0).
  rewrite <- Zlt_Qlt. lia.
Qed.

Lemma of_nat_le n m : (n <= m)%nat -> of_nat n <= of_nat m.
Proof.
  intro H. unfold of_nat. rewrite <- Zle_Qle. lia.
Qed.

(** X13.  The success rate is a percentage: it lies between 0 and 100, the
    total is the number of completed plus missed jobs, the rate is 0 when
    there is no job, and with nothing missed and something completed the
    rate is 100. *)
Theorem success_rate_is_a_percentage (sch : Scheduler) (store : list Job) :
  let st := get_statistics sch store in
  total_tasks st = (completed_tasks st + missed_deadlines st)%nat /\
  0 <= success_rate st <= 100 /\
  (total_tasks st = 0%nat -> success_rate st = 0) /\
  (missed_deadlines st = 0%nat -> (0 < completed_tasks st)%nat ->
   success_rate st == 100).
Proof.
  cbn. split; [reflexivity|].
  generalize (List.length (Schedulers.completed_tasks sch)). intro c.
  generalize (List.length (Schedulers.missed_deadlines sch)). intro m.
  destruct (Nat.eqb_spec (c + m) 0) as [E|E].
  - split; [lra|]. split; [reflexivity|]. intros _ Hc. lia.
  - assert (Ht : 0 < of_nat (c + m)) by (apply of_nat_pos; lia).
    assert (Hc : 0 <= of_nat c).
    { change 0 with (of_nat 0). apply of_nat_le. lia. }
    assert (Hle : of_nat c <= of_nat (c + m)) by (apply of_nat_le; lia).
    assert (H0 : 0 <= of_nat c / of_nat (c + m)).
    { apply Qle_shift_div_l; [exact Ht|lra]. }
    assert (H1 : of_nat c / of_nat (c + m) <= 1).
    { apply Qle_shift_div_r; [exact Ht|lra]. }
    split.
    { revert H0 H1. generalize (of_nat c / of_nat (c + m)). intros r H0 H1.
      lra. }
    split; [intro H; contradiction|].
    intros Hm _. subst m. rewrite Nat.add_0_r in *. field. lra.
Qed.

Lemma success_rate_is_a_percentage_witness :
  let sch := mkScheduler RM 12 [] [0%nat; 1%nat] [] in
  let st := get_statistics sch [] in
  let st0 := get_statistics (Scheduler_init RM) [] in
  missed_deadlines st = 0%nat /\ (0 < completed_tasks st)%nat /\
  success_rate st == 100 /\
  total_tasks st0 = 0%nat /\ success_rate st0 = 0.
Proof.
  intros sch st st0.
  assert (H1 : missed_deadlines st = 0%nat) by reflexivity.
  assert (H2 : (0 < completed_tasks st)%nat) by (simpl; lia).
  assert (H3 : total_tasks st0 = 0%nat) by reflexivity.
  split; [exact H1|]. split; [exact H2|]. split.
  - exact (proj2 (proj2 (proj2 (success_rate_is_a_percentage sch [])))
             H1 H2).
  - split; [exact H3|].
    exact (proj1 (proj2 (proj2 (success_rate_is_a_percentage
                                  (Scheduler_init RM) []))) H3).
Defined.

Lemma max_from_bounds l :
  forall best,
    best <= max_from best l /\ Forall (fun x => x <= max_from best l) l.
Proof.
  induction l as [|x l IH]; intro best; simpl.
  - split; [lra|constructor].
  - destruct (Qltb best x) eqn:E.
    + apply Qltb_lt in E. destruct (IH x) as [Hx Hl].
      split; [lra|]. constructor; assumption.
    + apply Qltb_ge in E. destruct (IH best) as [Hb Hl].
      split; [exact Hb|]. constructor; [lra|exact Hl].
Qed.

Lemma max_from_member l :
  forall best, max_from best l = best \/ In (max_from best l) l.
Proof.
  induction l as [|x l IH]; intro best; simpl; [now left|].
  destruct (Qltb best x).
  - destruct (IH x) as [E|H]; [right; left; now rewrite E|right; now right].
  - destruct (IH best) as [E|H]; [now left|right; now right].
Qed.

Lemma maximum_is_largest l m :
  maximum l = Some m -> In m l /\ forall r, In r l -> r <= m.
Proof.
  destruct l as [|x l]; [discriminate|].
  unfold maximum. intro E. injection E as <-.
  destruct (max_from_bounds l x) as [Hx Hl]. split.
  - destruct (max_from_member l x) as [E|H]; [left; now rewrite E|now right].
  - intros r [<-|Hr]; [exact Hx|].
    rewrite Forall_forall in Hl. now apply Hl.
Qed.

(** X14.  [get_statistics] reports an average response time exactly when
    it reports a maximum, and neither when no completed job has a start
    time; the maximum is the response time of a completed job and no
    response time of a completed job exceeds it. *)
Theorem max_response_time_is_the_largest
  (sch : Scheduler) (store : list Job) :
  let st := get_statistics sch store in
  let jobs := map (fun i => nth i store Sim.dummy_job)
                  (Schedulers.completed_tasks sch) in
  (forall m, max_response_time st = Some m ->
     In m (response_times jobs) /\
     forall r, In r (response_times jobs) -> r <= m) /\
  (avg_response_time st = None <-> max_response_time st = None) /\
  (avg_response_time st = None <->
   Forall (fun j => start_time j = None) jobs).
Proof.
  cbn. set (jobs := map _ (Schedulers.completed_tasks sch)).
  split; [intros m; apply maximum_is_largest|].
  split.
  - destruct (response_times jobs); simpl; split; congruence.
  - assert (H : response_times jobs = [] <->
                Forall (fun j => start_time j = None) jobs).
    { unfold response_times. induction jobs as [|j l IH]; simpl.
      - split; auto.
      - destruct (start_time j) eqn:Ej; simpl; split.
        + discriminate.
        + intro F. inversion F; subst. congruence.
        + intro E. constructor; [exact Ej|now apply IH].
        + intro F. inversion F; subst. now apply IH. }
    rewrite <- H. destruct (response_times jobs); simpl; split; congruence.
Qed.

Lemma max_response_time_is_the_largest_witness :
  let j1 := Sim.set_start_time 1 (Job_init (mkTask 1 PERIODIC 1 4 4 0 NONE) 0) in
  let j2 := Sim.set_start_time 3 (Job_init (mkTask 2 PERIODIC 1 4 4 0 NONE) 0) in
  let sch := mkScheduler RM 12 [] [0%nat; 1%nat] [] in
  let st := get_statistics sch [j1; j2] in
  exists m, max_response_time st = Some m /\
            In m (response_times [j1; j2]) /\ 1 <= m.
Proof.
  intros j1 j2 sch st.
  destruct (max_response_time st) as [m|] eqn:E; [|discriminate E].
  destruct (proj1 (max_response_time_is_the_largest sch [j1; j2]) m E)
    as (Hin & Hmax).
  exists m. split; [reflexivity|]. split; [exact Hin|].
  apply Hmax. left. reflexivity.
Defined.

End SchedulerMoreProps.

(** ** Simulation engine: arrivals and idle time *)

Module ArrivalProps.
Import Parser Schedulers Sim SimSpec EngineSpec.

Lemma mem_In i l : mem i l = true <-> In i l.
Proof.
  unfold mem. rewrite existsb_exists. split.
  - intros (x & Hx & E). apply Nat.eqb_eq in E. now subst.
  - intro H. exists i. split; [exact H|apply Nat.eqb_refl].
Qed.

Lemma mem_not_In i l : mem i l = false <-> ~ In i l.
Proof.
  rewrite <- mem_In. destruct (mem i l); split; congruence.
Qed.

Lemma filter_none {A} (f : A -> bool) l :
  (forall x, In x l -> f x = false) -> filter f l = [].
Proof.
  induction l as [|x l IH]; intro H; simpl; [reflexivity|].
  rewrite (H x) by now left. apply IH. intros y Hy. apply H. now right.
Qed.

Lemma arrive_fold t l :
  forall s,
    let s' := fold_left (arrive t) l s in
    task_instances s' = task_instances s /\
    ready_queue s' = ready_queue s ++ l /\
    current_task s' = current_task s /\
    config s' = config s /\
    task_set s' = task_set s /\
    aperiodic_server s' = aperiodic_server s /\
    completed_tasks (scheduler s') = completed_tasks (scheduler s) /\
    missed_deadlines (scheduler s') = missed_deadlines (scheduler s) /\
    policy (scheduler s') = policy (scheduler s) /\
    current_time (scheduler s') = current_time (scheduler s) /\
    schedule_events (scheduler s') =
      schedule_events (scheduler s) ++ map (arrival_event s t) l.
Proof.
  induction l as [|i l IH]; intro s; simpl.
  - rewrite !app_nil_r. repeat split.
  - destruct (IH (arrive t s i))
      as (E1 & E2 & E3 & E4 & E5 & E6 & E7 & E8 & E9 & E10 & E11).
    rewrite E1, E2, E3, E4, E5, E6, E7, E8, E9, E10, E11.
    simpl. rewrite <- !app_assoc. simpl. repeat split.
Qed.

(** The effect of [_check_arrivals], field by field. *)
Lemma check_arrivals_fields s t :
  let s' := check_arrivals s t in
  let arrived := filter (has_arrived s t) (refs s) in
  task_instances s' = task_instances s /\
  ready_queue s' = ready_queue s ++ arrived /\
  current_task s' = current_task s /\
  config s' = config s /\
  task_set s' = task_set s /\
  aperiodic_server s' = aperiodic_server s /\
  completed_tasks (scheduler s') = completed_tasks (scheduler s) /\
  missed_deadlines (scheduler s') = missed_deadlines (scheduler s) /\
  policy (scheduler s') = policy (scheduler s) /\
  current_time (scheduler s') = current_time (scheduler s) /\
  schedule_events (scheduler s') =
    schedule_events (scheduler s) ++ map (arrival_event s t) arrived.
Proof.
  apply arrive_fold.
Qed.

Lemma has_arrived_iff s t i :
  has_arrived s t i = true <->
  current_release (job s i) <= t /\ ~ In i (ready_queue s) /\
  is_complete (job s i) = false /\
  ~ In i (completed_tasks (scheduler s)) /\
  ~ In i (missed_deadlines (scheduler s)).
Proof.
  unfold has_arrived.
  rewrite !andb_true_iff, !negb_true_iff, !mem_not_In, Qle_bool_iff.
  tauto.
Qed.

(** X15.  [_check_arrivals] appends to the ready queue, in store order and
    each with an [ARRIVAL] event, exactly the jobs released by now that are
    incomplete and neither ready, completed nor missed, and touches nothing
    else; checking again at the same instant admits no job. *)
Theorem arrivals_are_admitted_once (s : Simulator) (t : Q) :
  let s' := check_arrivals s t in
  let arrived := filter (has_arrived s t) (refs s) in
  ready_queue s' = ready_queue s ++ arrived /\
  event_log s' = event_log s ++ map (arrival_event s t) arrived /\
  task_instances s' = task_instances s /\
  completed_tasks (scheduler s') = completed_tasks (scheduler s) /\
  missed_deadlines (scheduler s') = missed_deadlines (scheduler s) /\
  (forall i, In i arrived <->
     In i (refs s) /\ current_release (job s i) <= t /\
     ~ In i (ready_queue s) /\ is_complete (job s i) = false /\
     ~ In i (completed_tasks (scheduler s)) /\
     ~ In i (missed_deadlines (scheduler s))) /\
  check_arrivals s' t = s'.
Proof.
  intros s' arrived.
  destruct (check_arrivals_fields s t)
    as (E1 & E2 & E3 & E4 & E5 & E6 & E7 & E8 & E9 & E10 & E11).
  fold s' arrived in E1, E2, E3, E4, E5, E6, E7, E8, E9, E10, E11.
  repeat (split; [assumption|]). split.
  - intro i. unfold arrived. rewrite filter_In, has_arrived_iff. tauto.
  - unfold check_arrivals at 1.
    assert (N : filter (has_arrived s' t)
                       (seq 0 (List.length (task_instances s'))) = []).
    { rewrite E1. fold (refs s). apply filter_none.
      intros i Hi.
      destruct (has_arrived s' t i) eqn:H; [exfalso|reflexivity].
      apply has_arrived_iff in H. destruct H as (Hr & Hn & Hc & Hcm & Hm).
      unfold job in Hr, Hc. rewrite E1 in Hr, Hc.
      rewrite E7 in Hcm. rewrite E8 in Hm. rewrite E2 in Hn.
      apply Hn, in_or_app. right. unfold arrived.
      apply filter_In. split; [exact Hi|].
      apply has_arrived_iff. repeat split; try assumption.
      intro Hin. apply Hn, in_or_app. now left. }
    rewrite N. reflexivity.
Qed.

End ArrivalProps.

(** ** Simulation engine: idle time *)

Module IdleProps.
Import Parser Schedulers Sim SimSpec EngineSpec.

Section NextRelease.
Variable s : Simulator.
Variable now : Q.

Lemma next_release_step acc i :
  now < acc ->
  let acc' := next_release s now acc i in
  now < acc' /\ acc' <= acc /\
  (looked_for s now i -> acc' <= current_release (job s i)) /\
  (acc' = acc \/ (looked_for s now i /\ acc' = current_release (job s i))).
Proof.
  intro Hacc. unfold next_release, looked_for.
  destruct (Qltb now (current_release (job s i))) eqn:E1; simpl.
  2:{ apply Qltb_ge in E1.
      split; [exact Hacc|]. split; [lra|]. split; [|now left].
      intros (H & _). lra. }
  apply Qltb_lt in E1.
  destruct (Qltb (current_release (job s i)) acc) eqn:E2.
  2:{ apply Qltb_ge in E2.
      split; [exact Hacc|]. split; [lra|]. split; [|now left].
      intros _. exact E2. }
  apply Qltb_lt in E2.
  destruct (mem i (ready_queue s)) eqn:E3; simpl.
  { apply ArrivalProps.mem_In in E3.
    split; [exact Hacc|]. split; [lra|]. split; [|now left].
    intros (_ & H & _). tauto. }
  destruct (mem i (completed_tasks (scheduler s))) eqn:E4; simpl.
  { apply ArrivalProps.mem_In in E4.
    split; [exact Hacc|]. split; [lra|]. split; [|now left].
    intros (_ & _ & H). tauto. }
  apply ArrivalProps.mem_not_In in E3, E4.
  split; [exact E1|]. split; [lra|]. split; [intros _; lra|].
  right. auto.
Qed.

Lemma next_release_fold l :
  forall acc, now < acc ->
    let r := fold_left (next_release s now) l acc in
    now < r /\ r <= acc /\
    (forall i, In i l -> looked_for s now i -> r <= current_release (job s i)) /\
    (r = acc \/
     exists i, In i l /\ looked_for s now i /\ r = current_release (job s i)).
Proof.
  induction l as [|i l IH]; intros acc Hacc; simpl.
  - repeat split; try lra; [intros i []|now left].
  - destruct (next_release_step acc i Hacc) as (H1 & H2 & H3 & H4).
    destruct (IH _ H1) as (I1 & I2 & I3 & I4).
    split; [exact I1|]. split; [lra|]. split.
    + intros k [<-|Hk] Hc; [specialize (H3 Hc); lra|now apply I3].
    + destruct I4 as [E|(k & Hk & Hc & E)].
      * destruct H4 as [E'|[Hc E']].
        -- left. congruence.
        -- right. exists i. split; [now left|]. split; [exact Hc|congruence].
      * right. exists k. split; [now right|]. auto.
Qed.
End NextRelease.

(** The idle branch, field by field. *)
Lemma idle_fields (s : Simulator) (now : Q) :
  now < simulation_time (config s) ->
  let r := find_next_event_time s now in
  now < r <= simulation_time (config s) /\
  (forall i, awaited s now i -> r <= current_release (job s i)) /\
  (r = simulation_time (config s) \/
   exists i, awaited s now i /\ r = current_release (job s i)) /\
  snd (idle s now) = r /\
  event_log (fst (idle s now)) =
    event_log s ++ [mkEvent now None "IDLE" (IdleUntil r)] /\
  current_task (fst (idle s now)) = None.
Proof.
  intros Hnow r.
  destruct (next_release_fold s now (refs s) _ Hnow) as (H1 & H2 & H3 & H4).
  change (fold_left (next_release s now) (refs s) (simulation_time (config s)))
    with r in H1, H2, H3, H4.
  split; [split; assumption|]. split; [|split].
  - intros i (Hi & Hc). now apply H3.
  - destruct H4 as [E|(i & Hi & Hc & E)]; [now left|right].
    exists i. split; [split; assumption|exact E].
  - unfold idle.
    change (find_next_event_time (set_current_task s None) now) with r.
    apply Qltb_lt in H1. rewrite H1. repeat split.
Qed.

(** X16.  Inside the loop ([now < simulation_time]) the idle branch always
    moves the clock forward: [_find_next_event_time] is the earliest release
    after [now] of a job that is neither ready nor completed, or the horizon
    if there is none or it comes later, so no awaited release is jumped
    over, an [IDLE] event is logged, and the fallback
    [current_time += time_quantum] is never taken. *)
Theorem idle_jumps_to_earliest_awaited_release (s : Simulator) (now : Q) :
  now < simulation_time (config s) ->
  let r := find_next_event_time s now in
  now < r <= simulation_time (config s) /\
  (forall i, awaited s now i -> r <= current_release (job s i)) /\
  (r = simulation_time (config s) \/
   exists i, awaited s now i /\ r = current_release (job s i)) /\
  snd (idle s now) = r /\
  event_log (fst (idle s now)) =
    event_log s ++ [mkEvent now None "IDLE" (IdleUntil r)] /\
  current_task (fst (idle s now)) = None.
Proof. exact (idle_fields s now). Qed.

Lemma idle_jumps_to_earliest_awaited_release_witness :
  let s := mkSim (Scheduler_init RM) demo_config Servers.BackgroundServer
                 None [Job_init (mkTask 1 PERIODIC 1 4 4 5 NONE) 5;
                       Job_init (mkTask 2 PERIODIC 1 4 4 3 NONE) 3]
                 [] None in
  1 < simulation_time (config s) /\ snd (idle s 1) = 3 /\
  1 < find_next_event_time s 1.
Proof.
  intro s.
  assert (H : 1 < simulation_time (config s)) by reflexivity.
  split; [exact H|]. split; [reflexivity|].
  exact (proj1 (proj1 (idle_jumps_to_earliest_awaited_release s 1 H))).
Defined.

End IdleProps.

(** ** Simulation engine: what each step changes *)

Module StepProps.
Import Parser Schedulers Sim SimSpec EngineSpec.

Lemma update_length {A} (f : A -> A) l : forall i,
  List.length (update i f l) = List.length l.
Proof.
  induction l as [|x l IH]; intros [|i]; simpl; auto.
Qed.

Lemma nth_update_eq {A} (f : A -> A) d l : forall i,
  (i < List.length l)%nat -> nth i (update i f l) d = f (nth i l d).
Proof.
  induction l as [|x l IH]; intros [|i] H; simpl in *; try lia; auto.
  apply IH. lia.
Qed.

Lemma nth_update_neq {A} (f : A -> A) d l : forall i k,
  k <> i -> nth k (update i f l) d = nth k l d.
Proof.
  induction l as [|x l IH]; intros [|i] [|k] H; simpl; auto; try congruence.
Qed.

(** An update that keeps a field of the job keeps it in the whole store. *)
Lemma nth_update_field {A B} (g : A -> B) (f : A -> A) d l :
  (forall x, g (f x) = g x) ->
  forall i k, g (nth k (update i f l) d) = g (nth k l d).
Proof.
  intro H. induction l as [|x l IH]; intros [|i] [|k]; simpl; auto.
Qed.

Lemma refs_lt s i : In i (refs s) <-> (i < List.length (task_instances s))%nat.
Proof.
  unfold refs. rewrite in_seq. lia.
Qed.

Lemma job_update_field {B} (g : Job -> B) s i f k :
  (forall j, g (f j) = g j) ->
  g (job (update_job s i f) k) = g (job s k).
Proof.
  intro H. unfold job, update_job. cbn [task_instances set_instances].
  now apply nth_update_field.
Qed.

Lemma job_update_eq s i f :
  In i (refs s) -> job (update_job s i f) i = f (job s i).
Proof.
  intro H. apply refs_lt in H. unfold job, update_job.
  cbn [task_instances set_instances]. now apply nth_update_eq.
Qed.

Lemma job_update_neq s i f k :
  k <> i -> job (update_job s i f) k = job s k.
Proof.
  intro H. unfold job, update_job. cbn [task_instances set_instances].
  now apply nth_update_neq.
Qed.

Lemma remove_first_subset i l x : In x (remove_first i l) -> In x l.
Proof.
  induction l as [|y l IH]; simpl; [tauto|].
  destruct (Nat.eqb y i); simpl; tauto.
Qed.

Lemma remove_first_other i l x :
  x <> i -> In x l -> In x (remove_first i l).
Proof.
  intro Hx. induction l as [|y l IH]; simpl; [tauto|].
  destruct (Nat.eqb_spec y i) as [->|Hy]; simpl; intuition congruence.
Qed.

Lemma remove_first_nodup i l :
  NoDup l -> NoDup (remove_first i l) /\ ~ In i (remove_first i l).
Proof.
  induction 1 as [|y l Hy Hl [IH1 IH2]]; simpl.
  - split; [constructor|tauto].
  - destruct (Nat.eqb_spec y i) as [->|Hne]; [split; assumption|].
    split.
    + constructor; [|exact IH1]. intro H. apply Hy.
      eapply remove_first_subset, H.
    + simpl. intuition congruence.
Qed.

Lemma consistent_same_queues s s' :
  same_queues s s' -> consistent s -> consistent s'.
Proof.
  intros (E1 & E2 & E3 & E4 & E5) [].
  constructor; unfold refs, job in *; rewrite ?E1, ?E2, ?E3, ?E4, ?E5;
    assumption.
Qed.

Lemma check_arrivals_consistent s t :
  consistent s -> consistent (check_arrivals s t).
Proof.
  intros [].
  destruct (ArrivalProps.check_arrivals_fields s t)
    as (E1 & E2 & E3 & _ & _ & _ & E7 & E8 & _).
  assert (Harr : forall i,
    In i (filter (has_arrived s t) (refs s)) ->
    In i (refs s) /\ ~ In i (ready_queue s) /\
    is_complete (job s i) = false /\
    ~ In i (completed_tasks (scheduler s)) /\
    ~ In i (missed_deadlines (scheduler s))).
  { intros i Hi. apply filter_In in Hi. destruct Hi as [Hi Ha].
    apply ArrivalProps.has_arrived_iff in Ha. tauto. }
  constructor; unfold refs, job in *; rewrite ?E1, ?E2, ?E3, ?E7, ?E8;
    try assumption.
  - apply NoDup_app; [assumption|apply NoDup_filter, seq_NoDup|].
    intros i Hi Ha. apply Harr in Ha. tauto.
  - intros i Hi. apply in_app_or in Hi. destruct Hi as [Hi|Hi]; [auto|].
    now apply Harr in Hi.
  - intros i Hi. apply in_app_or in Hi. destruct Hi as [Hi|Hi]; [auto|].
    apply Harr in Hi. tauto.
  - intros i Hi. apply in_app_or in Hi. destruct Hi as [Hi|Hi]; [auto|].
    apply Harr in Hi. tauto.
  - intros i Hi. apply in_app_or in Hi. destruct Hi as [Hi|Hi]; [auto|].
    apply Harr in Hi. tauto.
  - intros c Hc. apply in_or_app. left. auto.
Qed.

Section Misses.
Variable now : Q.
Variable inst : list Job.

Lemma miss_keeps s i :
  let s' := miss now s i in
  config s' = config s /\ task_set s' = task_set s /\
  aperiodic_server s' = aperiodic_server s /\
  completed_tasks (scheduler s') = completed_tasks (scheduler s) /\
  policy (scheduler s') = policy (scheduler s) /\
  current_time (scheduler s') = current_time (scheduler s).
Proof.
  unfold miss. destruct (is_deadline_missed _ _); [|repeat split].
  destruct (same_ref _ _); repeat split.
Qed.

Lemma misses_keep l :
  forall s,
    let s' := fold_left (miss now) l s in
    config s' = config s /\ task_set s' = task_set s /\
    aperiodic_server s' = aperiodic_server s /\
    completed_tasks (scheduler s') = completed_tasks (scheduler s) /\
    policy (scheduler s') = policy (scheduler s) /\
    current_time (scheduler s') = current_time (scheduler s).
Proof.
  induction l as [|i l IH]; intro s; simpl; [repeat split|].
  destruct (IH (miss now s i)) as (A1 & A2 & A3 & A4 & A5 & A6).
  destruct (miss_keeps s i) as (B1 & B2 & B3 & B4 & B5 & B6).
  repeat split; congruence.
Qed.

Lemma miss_current s i :
  current_task (miss now s i) =
  if is_deadline_missed (job s i) now && same_ref (current_task s) i
  then None else current_task s.
Proof.
  unfold miss. destruct (is_deadline_missed (job s i) now); [|reflexivity].
  simpl. destruct (same_ref (current_task s) i); reflexivity.
Qed.

(** The current job survives the check only if it was not overdue. *)
Lemma misses_current l :
  forall s c,
    task_instances s = inst ->
    current_task (fold_left (miss now) l s) = Some c ->
    current_task s = Some c /\ (In c l -> overdue_in now inst c = false).
Proof.
  induction l as [|i l IH]; intros s c Ei; simpl.
  - intro H. split; [exact H|tauto].
  - intro H.
    destruct (DeadlineProps.miss_fields now inst s i Ei) as (Ei' & _).
    destruct (IH _ _ Ei' H) as [Hc Hl]. clear IH H.
    rewrite miss_current in Hc. unfold job in Hc. rewrite Ei in Hc.
    fold (overdue_in now inst i) in Hc.
    destruct (overdue_in now inst i) eqn:Eo; simpl in Hc.
    + destruct (same_ref (current_task s) i) eqn:Es; [discriminate Hc|].
      split; [exact Hc|]. intros [<-|Hin]; [|auto].
      rewrite Hc in Es. simpl in Es. rewrite Nat.eqb_refl in Es.
      discriminate.
    + split; [exact Hc|]. intros [<-|Hin]; auto.
Qed.
End Misses.

Lemma check_deadline_misses_consistent s t :
  consistent s -> consistent (check_deadline_misses s t).
Proof.
  intros [].
  destruct (DeadlineProps.check_deadline_misses_spec s t)
    as (E1 & E2 & E3 & _).
  destruct (misses_keep t (ready_queue s) s) as (_ & _ & _ & E4 & _).
  fold (check_deadline_misses s t) in E4.
  pose proof (misses_current t (task_instances s) (ready_queue s) s) as Hcur.
  fold (check_deadline_misses s t) in Hcur.
  constructor; unfold refs, job in *; rewrite ?E1, ?E2, ?E3, ?E4;
    try assumption.
  - now apply NoDup_filter.
  - apply NoDup_app; [assumption|now apply NoDup_filter|].
    intros i Hi Hf. apply filter_In in Hf. destruct Hf as [Hf _].
    eapply ready_not_missed0; eassumption.
  - intros i Hi. apply filter_In in Hi. destruct Hi; auto.
  - intros i Hi. apply in_app_or in Hi. destruct Hi as [Hi|Hi]; [auto|].
    apply filter_In in Hi. destruct Hi; auto.
  - intros i Hi. apply filter_In in Hi. destruct Hi; auto.
  - intros i Hi Hm. apply filter_In in Hi. destruct Hi as [Hi Hl].
    apply in_app_or in Hm. destruct Hm as [Hm|Hm].
    + eapply ready_not_missed0; eassumption.
    + apply filter_In in Hm. destruct Hm as [_ Hm].
      rewrite Hm in Hl. discriminate.
  - intros i Hi Hm. apply in_app_or in Hm. destruct Hm as [Hm|Hm].
    + eapply completed_not_missed0; eassumption.
    + apply filter_In in Hm. destruct Hm as [Hm _].
      eapply ready_not_completed0; eassumption.
  - intros i Hi. apply filter_In in Hi. destruct Hi; auto.
  - intros c Hc. destruct (Hcur c eq_refl Hc) as [Hc0 Hl].
    apply filter_In. split; [auto|].
    specialize (Hl (current_is_ready0 c Hc0)).
    unfold late, overdue_in, is_deadline_missed, job in *.
    now rewrite Hl.
Qed.

(** *** Running a job *)

Ltac leaves :=
  repeat match goal with
         | |- _ /\ _ => split
         | |- forall k : nat, _ => intro
         | |- same_identity _ _ => unfold same_identity
         end.

Ltac store_leaf :=
  unfold job;
  cbn [ready_queue current_task scheduler config update_job set_instances
       log set_scheduler add_event completed_tasks missed_deadlines
       task_instances set_current_time set_current_task set_server
       set_ready add_completed fst snd];
  rewrite ?update_length;
  first [ reflexivity | assumption | lra
        | apply nth_update_field; reflexivity ].

Lemma preempt_fields s t i :
  let s' := preempt s t i in
  ready_queue s' = ready_queue s /\
  current_task s' = current_task s /\
  completed_tasks (scheduler s') = completed_tasks (scheduler s) /\
  missed_deadlines (scheduler s') = missed_deadlines (scheduler s) /\
  config s' = config s /\
  List.length (task_instances s') = List.length (task_instances s) /\
  (forall k, remaining (job s' k) = remaining (job s k)) /\
  (forall k, start_time (job s' k) = start_time (job s k)) /\
  (forall k, completion_time (job s' k) = completion_time (job s k)) /\
  (forall k, same_identity (job s k) (job s' k)).
Proof.
  unfold preempt. destruct (current_task s) as [c|] eqn:Ec.
  2:{ rewrite Ec. leaves; reflexivity. }
  destruct (negb (Nat.eqb c i) && preemptive (config s)).
  2:{ rewrite Ec. leaves; reflexivity. }
  leaves; store_leaf.
Qed.

Lemma switch_to_fields s t i :
  let s' := fst (switch_to s t i) in
  let t' := snd (switch_to s t i) in
  ready_queue s' = ready_queue s /\
  current_task s' = current_task s /\
  completed_tasks (scheduler s') = completed_tasks (scheduler s) /\
  missed_deadlines (scheduler s') = missed_deadlines (scheduler s) /\
  config s' = config s /\
  List.length (task_instances s') = List.length (task_instances s) /\
  (forall k, remaining (job s' k) = remaining (job s k)) /\
  (forall k, completion_time (job s' k) = completion_time (job s k)) /\
  (forall k, same_identity (job s k) (job s' k)) /\
  t <= t'.
Proof.
  unfold switch_to. destruct (same_ref (current_task s) i).
  { leaves; store_leaf. }
  destruct (current_task s) as [c|] eqn:Ec.
  - destruct (Qltb 0 (context_switch_overhead (config s))) eqn:E.
    + apply Qltb_lt in E.
      destruct (start_time (job _ i)) eqn:Es; leaves; store_leaf.
    + destruct (start_time (job _ i)) eqn:Es; leaves; store_leaf.
  - destruct (start_time (job _ i)) eqn:Es; leaves; store_leaf.
Qed.

Lemma complete_fields s t i :
  let s' := complete s t i in
  let done := is_complete (job s i) in
  ready_queue s' =
    (if done then remove_first i (ready_queue s) else ready_queue s) /\
  current_task s' = (if done then None else current_task s) /\
  completed_tasks (scheduler s') =
    (if done then completed_tasks (scheduler s) ++ [i]
     else completed_tasks (scheduler s)) /\
  missed_deadlines (scheduler s') = missed_deadlines (scheduler s) /\
  config s' = config s /\
  List.length (task_instances s') = List.length (task_instances s) /\
  (forall k, remaining (job s' k) = remaining (job s k)) /\
  (forall k, start_time (job s' k) = start_time (job s k)) /\
  (forall k, same_identity (job s k) (job s' k)).
Proof.
  unfold complete. destruct (is_complete (job s i)); leaves; store_leaf.
Qed.

Lemma py_min2_idem q r : py_min2 (py_min2 q r) r = py_min2 q r.
Proof.
  unfold py_min2. destruct (Qltb r q) eqn:E; [|now rewrite E].
  assert (H : Qltb r r = false) by (apply Qltb_ge; lra).
  now rewrite H.
Qed.

(** The effect of the branch [if next_task:] on a job of the store. *)
Lemma run_job_fields s t i :
  In i (refs s) ->
  let r := remaining (job s i) in
  let e := py_min2 (time_quantum (config s)) r in
  let r' := py_max2 0 (r - e) in
  let done := Qle_bool r' epsilon in
  let s' := fst (run_job s t i) in
  let t' := snd (run_job s t i) in
  ready_queue s' =
    (if done then remove_first i (ready_queue s) else ready_queue s) /\
  current_task s' = (if done then None else Some i) /\
  completed_tasks (scheduler s') =
    (if done then completed_tasks (scheduler s) ++ [i]
     else completed_tasks (scheduler s)) /\
  missed_deadlines (scheduler s') = missed_deadlines (scheduler s) /\
  config s' = config s /\
  List.length (task_instances s') = List.length (task_instances s) /\
  (forall k, remaining (job s' k) =
             if Nat.eqb k i then r' else remaining (job s k)) /\
  (forall k, same_identity (job s k) (job s' k)) /\
  t + e <= t'.
Proof.
  intros Hi r e r' done s' t'. subst s' t'. unfold run_job.
  destruct (preempt_fields s t i)
    as (P1 & P2 & P3 & P4 & P5 & P6 & P7 & _ & _ & P10).
  set (s1 := preempt s t i) in *.
  destruct (switch_to_fields s1 t i)
    as (S1 & S2 & S3 & S4 & S5 & S6 & S7 & _ & S9 & S10).
  destruct (switch_to s1 t i) as [s2 t2]. cbn [fst snd] in *.
  assert (Hi2 : In i (refs s2)).
  { apply refs_lt. rewrite S6, P6. now apply refs_lt. }
  assert (Er : remaining (job s2 i) = r) by (rewrite S7, P7; reflexivity).
  assert (Ec : config s2 = config s) by congruence.
  cbv zeta.
  change (config (set_current_task s2 (Some i))) with (config s2).
  change (job (set_current_task s2 (Some i)) i) with (job s2 i).
  rewrite Ec, Er. fold e.
  set (s4 := update_job (set_current_task s2 (Some i)) i
                        (fun j => fst (execute j e))).
  assert (R4 : forall k, remaining (job s4 k) =
                         if Nat.eqb k i then r' else remaining (job s k)).
  { intro k. destruct (Nat.eqb_spec k i) as [->|Hk].
    - unfold s4. rewrite job_update_eq by exact Hi2.
      change (job (set_current_task s2 (Some i)) i) with (job s2 i).
      unfold execute. cbn [fst remaining]. rewrite Er.
      assert (Ee : py_min2 e r = e) by (unfold e; apply py_min2_idem).
      rewrite Ee. reflexivity.
    - unfold s4. rewrite job_update_neq by exact Hk.
      change (job (set_current_task s2 (Some i)) k) with (job s2 k).
      now rewrite S7, P7. }
  assert (I4 : forall k, same_identity (job s k) (job s4 k)).
  { intro k. destruct (P10 k) as (A1 & A2 & A3).
    destruct (S9 k) as (B1 & B2 & B3).
    unfold same_identity, s4.
    rewrite !(job_update_field _ _ i (fun j => fst (execute j e)) k)
      by reflexivity.
    change (job (set_current_task s2 (Some i)) k) with (job s2 k).
    repeat split; congruence. }
  assert (L4 : List.length (task_instances s4)
               = List.length (task_instances s)).
  { unfold s4, update_job. cbn [task_instances set_instances set_current_task].
    rewrite update_length. congruence. }
  match goal with
  | |- context [complete ?m ?tt i] =>
      destruct (complete_fields m tt i)
        as (C1 & C2 & C3 & C4 & C5 & C6 & C7 & _ & C9);
      set (s6 := m) in *
  end.
  assert (J6 : forall k, job s6 k = job s4 k).
  { intro k. unfold s6. destruct (is_aperiodic s4 i); reflexivity. }
  assert (D : is_complete (job s6 i) = done).
  { unfold is_complete. rewrite J6, R4, Nat.eqb_refl. reflexivity. }
  rewrite D in C1, C2, C3.
  assert (Q6 : ready_queue s6 = ready_queue s /\
               current_task s6 = Some i /\
               completed_tasks (scheduler s6) = completed_tasks (scheduler s) /\
               missed_deadlines (scheduler s6)
                 = missed_deadlines (scheduler s) /\
               config s6 = config s /\
               List.length (task_instances s6)
                 = List.length (task_instances s)).
  { unfold s6. destruct (is_aperiodic s4 i);
      cbn [ready_queue current_task scheduler config set_scheduler
           set_server completed_tasks missed_deadlines set_current_time
           task_instances];
      fold s4; rewrite ?L4; unfold s4;
      cbn [ready_queue current_task scheduler config update_job
           set_instances set_current_task completed_tasks missed_deadlines];
      repeat split; congruence. }
  destruct Q6 as (Q1 & Q2 & Q3 & Q4 & Q5 & Q6).
  cbn [fst snd].
  split; [rewrite C1, Q1; reflexivity|].
  split; [rewrite C2, Q2; reflexivity|].
  split; [rewrite C3, Q3; reflexivity|].
  split; [congruence|]. split; [congruence|]. split; [congruence|].
  split; [intro k; rewrite C7, J6; apply R4|].
  split; [|lra].
  intro k. destruct (C9 k) as (A1 & A2 & A3).
  destruct (I4 k) as (B1 & B2 & B3). rewrite J6 in A1, A2, A3.
  unfold same_identity. repeat split; congruence.
Qed.

End StepProps.

(** ** Simulation engine: queue invariants *)

Module InvariantProps.
Import Parser Schedulers Sim SimSpec EngineSpec StepProps.

Lemma is_complete_remaining a b :
  remaining b = remaining a -> is_complete b = is_complete a.
Proof. unfold is_complete. now intros ->. Qed.

Lemma refs_same_length s s' :
  List.length (task_instances s') = List.length (task_instances s) ->
  refs s' = refs s.
Proof. unfold refs. now intros ->. Qed.

Lemma run_job_consistent s t i :
  consistent s -> In i (ready_queue s) ->
  consistent (fst (run_job s t i)).
Proof.
  intros [] Hi.
  destruct (run_job_fields s t i (ready_in_store0 i Hi))
    as (E1 & E2 & E3 & E4 & _ & E6 & E7 & _).
  set (s' := fst (run_job s t i)) in *.
  assert (Hother : forall k, k <> i ->
            is_complete (job s' k) = is_complete (job s k)).
  { intros k Hk. apply is_complete_remaining. rewrite E7.
    apply Nat.eqb_neq in Hk. now rewrite Hk. }
  assert (Hself : is_complete (job s' i) =
            Qle_bool (py_max2 0 (remaining (job s i)
                        - py_min2 (time_quantum (config s))
                                  (remaining (job s i)))) epsilon).
  { unfold is_complete. now rewrite E7, Nat.eqb_refl. }
  destruct (Qle_bool _ epsilon) eqn:Edone.
  - destruct (remove_first_nodup i _ ready_nodup0) as [N1 N2].
    assert (Hne : forall k, In k (remove_first i (ready_queue s)) -> k <> i)
      by (intros k Hk ->; contradiction).
    constructor; rewrite ?E1, ?E2, ?E3, ?E4, ?(refs_same_length _ _ E6);
      try assumption.
    + apply NoDup_app; [assumption|repeat constructor; simpl; tauto|].
      intros k Hk [<-|[]]. eapply ready_not_completed0; eassumption.
    + intros k Hk. eauto using remove_first_subset.
    + intros k Hk. apply in_app_or in Hk. destruct Hk as [Hk|[<-|[]]]; auto.
    + intros k Hk Hc. apply in_app_or in Hc. destruct Hc as [Hc|[<-|[]]].
      * apply (ready_not_completed0 k); [|exact Hc].
        eapply remove_first_subset; eassumption.
      * contradiction.
    + intros k Hk. eauto using remove_first_subset.
    + intros k Hk. apply in_app_or in Hk. destruct Hk as [Hk|[<-|[]]]; auto.
    + intros k Hk. rewrite Hother by auto. eauto using remove_first_subset.
    + intros k Hk. apply in_app_or in Hk. destruct Hk as [Hk|[<-|[]]].
      * rewrite Hother; [auto|]. intros ->.
        eapply ready_not_completed0; eassumption.
      * exact Hself.
    + discriminate.
  - constructor; rewrite ?E1, ?E2, ?E3, ?E4, ?(refs_same_length _ _ E6);
      try assumption.
    + intros k Hk. destruct (Nat.eq_dec k i) as [->|Hne];
        [exact Hself|rewrite Hother; auto].
    + intros k Hk. rewrite Hother; [auto|]. intros ->.
      eapply ready_not_completed0; eassumption.
    + intros c Hc. injection Hc as <-. exact Hi.
Qed.

Lemma idle_consistent s t : consistent s -> consistent (fst (idle s t)).
Proof.
  intros []. unfold idle.
  destruct (Qltb t (find_next_event_time (set_current_task s None) t));
    constructor; cbn; try assumption; discriminate.
Qed.

Lemma select_next_ready s t i :
  fst (select_next s t) = Some i -> In i (ready_queue s).
Proof.
  unfold select_next.
  destruct (filter (fun r => negb (is_aperiodic s r)) (ready_queue s))
    as [|x l] eqn:Ep.
  - destruct (filter (is_aperiodic s) (ready_queue s)) as [|y l'] eqn:Ea;
      [discriminate|].
    destruct (Servers.can_serve (aperiodic_server s) t) as [[|] srv];
      [|discriminate].
    cbn [fst]. intro H. apply SelectionProps.select_ref_In in H.
    rewrite <- Ea in H. now apply filter_In in H.
  - cbn [fst]. intro H. apply SelectionProps.select_ref_In in H.
    rewrite <- Ep in H. now apply filter_In in H.
Qed.

Lemma prepare_consistent s t : consistent s -> consistent (prepare s t).
Proof.
  intro H. unfold prepare.
  apply check_arrivals_consistent with (t := t) in H.
  apply check_deadline_misses_consistent with (t := t) in H.
  revert H. apply consistent_same_queues. repeat split.
Qed.

Lemma iteration_consistent s t :
  consistent s -> consistent (fst (iteration s t)).
Proof.
  intro H. apply prepare_consistent with (t := t) in H.
  unfold iteration.
  pose proof (select_next_ready (prepare s t) t) as Hsel.
  destruct (select_next (prepare s t) t) as [[i|] srv]; cbn [fst] in Hsel.
  - apply run_job_consistent.
    + revert H. apply consistent_same_queues. repeat split.
    + apply (Hsel i eq_refl).
  - apply idle_consistent.
    revert H. apply consistent_same_queues. repeat split.
Qed.

Lemma run_start_consistent s : consistent (run_start s).
Proof.
  constructor; cbn; try constructor; try tauto; discriminate.
Qed.

Lemma reachable_consistent s0 s t : reachable s0 s t -> consistent s.
Proof.
  induction 1; [apply run_start_consistent|now apply iteration_consistent].
Qed.

Lemma loop_reachable s0 fuel :
  forall s t s' t',
    reachable s0 s t -> loop fuel s t = Some (s', t') ->
    reachable s0 s' t' /\ simulation_time (config s') <= t'.
Proof.
  induction fuel as [|fuel IH]; intros s t s' t' Hr; simpl.
  - destruct (Qltb t (simulation_time (config s))) eqn:E; [discriminate|].
    intro H. injection H as <- <-. apply Qltb_ge in E. auto.
  - destruct (Qltb t (simulation_time (config s))) eqn:E.
    + apply Qltb_lt in E. pose proof (reachable_step s0 s t Hr E) as Hr'.
      destruct (iteration s t) as [s1 t1]. now apply IH.
    + intro H. injection H as <- <-. apply Qltb_ge in E. auto.
Qed.

(** X17.  In every state the loop reaches, and in the state [run] returns
    in, the ready queue, the completed list and the missed list have no
    duplicates and are pairwise disjoint (a job is never both completed and
    missed, nor recorded twice); every ready job exists and is incomplete,
    every completed job is complete, and the current job, if any, is
    ready. *)
Theorem queues_stay_consistent (s0 : Simulator) :
  (forall s t, reachable s0 s t -> consistent s) /\
  (forall fuel s', run fuel s0 = Some s' -> consistent s').
Proof.
  split; [apply reachable_consistent|].
  intros fuel s'. unfold run.
  destruct (loop fuel (run_start s0) 0) as [[s1 t1]|] eqn:E; [|discriminate].
  intro H. injection H as <-.
  destruct (loop_reachable s0 fuel _ _ _ _ (reachable_start s0) E) as [Hr _].
  apply reachable_consistent in Hr. revert Hr.
  apply consistent_same_queues. repeat split.
Qed.

Lemma queues_stay_consistent_witness :
  match simulate 20 40 (Scheduler_init EDF) demo_config
                 (Servers.SporadicServer 2 5) demo_tasks with
  | Some s1 => consistent s1 /\
               List.length (completed_tasks (scheduler s1)) = 6%nat
  | None => False
  end.
Proof.
  unfold simulate.
  destruct (load_task_set 20 _ demo_tasks) as [s0|] eqn:E0;
    [|vm_compute in E0; discriminate E0].
  destruct (run 40 s0) as [s1|] eqn:E1.
  - split; [exact (proj2 (queues_stay_consistent s0) 40%nat s1 E1)|].
    vm_compute in E0. injection E0 as <-.
    vm_compute in E1. injection E1 as <-. reflexivity.
  - vm_compute in E0. injection E0 as <-. vm_compute in E1. discriminate E1.
Defined.

End InvariantProps.

(** ** Simulation engine: the clock *)

Module ClockProps.
Import Parser Schedulers Sim SimSpec EngineSpec StepProps InvariantProps.

Lemma prepare_fields s t :
  task_instances (prepare s t) = task_instances s /\
  config (prepare s t) = config s.
Proof.
  unfold prepare. cbn [task_instances config set_server].
  destruct (DeadlineProps.check_deadline_misses_spec (check_arrivals s t) t)
    as (E1 & _).
  destruct (misses_keep t (ready_queue (check_arrivals s t))
              (check_arrivals s t)) as (E2 & _).
  fold (check_deadline_misses (check_arrivals s t) t) in E2.
  destruct (ArrivalProps.check_arrivals_fields s t) as (A1 & _ & _ & A4 & _).
  split; congruence.
Qed.

Lemma least_step_le cfg r :
  epsilon < r -> least_step cfg <= py_min2 (time_quantum cfg) r.
Proof.
  intro H. unfold least_step.
  case_min (time_quantum cfg) epsilon; case_min (time_quantum cfg) r; lra.
Qed.

Lemma least_step_pos cfg : 0 < time_quantum cfg -> 0 < least_step cfg.
Proof.
  intro H. unfold least_step.
  case_min (time_quantum cfg) epsilon; [reflexivity|exact H].
Qed.

(** One iteration keeps the configuration and the releases and moves the
    clock: by at least [least_step] when a job runs, to the horizon or to a
    later release when idle. *)
Lemma iteration_progress s t :
  consistent s ->
  t < simulation_time (config s) ->
  let s' := fst (iteration s t) in
  let t' := snd (iteration s t) in
  config s' = config s /\
  refs s' = refs s /\
  (forall k, current_release (job s' k) = current_release (job s k)) /\
  (t + least_step (config s) <= t' \/
   (t < t' /\
    (t' = simulation_time (config s) \/
     exists i, In i (refs s) /\ t < current_release (job s i) /\
               t' = current_release (job s i)))).
Proof.
  intros Hc Ht. cbv zeta. unfold iteration.
  destruct (prepare_fields s t) as [Ei Ecfg].
  pose proof (prepare_consistent s t Hc) as Hc1.
  pose proof (select_next_ready (prepare s t) t) as Hsel.
  set (s1 := prepare s t) in *.
  destruct (select_next s1 t) as [[i|] srv]; cbn [fst] in Hsel.
  - specialize (Hsel i eq_refl).
    assert (Hi : In i (refs (set_server s1 srv)))
      by (apply (ready_in_store s1 Hc1), Hsel).
    destruct (run_job_fields (set_server s1 srv) t i Hi)
      as (_ & _ & _ & _ & E5 & E6 & _ & E8 & E9).
    change (config (set_server s1 srv)) with (config s1) in *.
    change (job (set_server s1 srv)) with (job s1) in *.
    change (task_instances (set_server s1 srv)) with (task_instances s1) in *.
    split; [congruence|].
    split; [apply refs_same_length; congruence|].
    split.
    + intro k. destruct (E8 k) as (_ & _ & E). rewrite E.
      unfold job. now rewrite Ei.
    + left. rewrite <- Ecfg.
      eapply Qle_trans; [|exact E9].
      apply Qplus_le_r. apply least_step_le.
      pose proof (ready_incomplete s1 Hc1 i Hsel) as Hinc.
      unfold is_complete in Hinc. now apply Qle_bool_gt in Hinc.
  - assert (Ht1 : t < simulation_time (config (set_server s1 srv)))
      by (change (config (set_server s1 srv)) with (config s1);
          now rewrite Ecfg).
    destruct (IdleProps.idle_fields (set_server s1 srv) t Ht1)
      as ([G1 G2] & _ & G3 & G4 & _).
    rewrite G4.
    change (config (set_server s1 srv)) with (config s1) in *.
    assert (Eidle : task_instances (fst (idle (set_server s1 srv) t))
                    = task_instances s /\
                    config (fst (idle (set_server s1 srv) t)) = config s).
    { unfold idle. destruct (Qltb t _); cbn; split; assumption. }
    destruct Eidle as [Ej Ec].
    split; [exact Ec|]. split; [unfold refs; now rewrite Ej|].
    split; [intro k; unfold job; now rewrite Ej|].
    right. split; [exact G1|].
    destruct G3 as [E|(i & (Hi & Hl & _) & E)].
    + left. congruence.
    + right. exists i. unfold refs, job in *.
      cbn [task_instances set_server] in *. rewrite Ei in *. auto.
Qed.

(** X19.  In every state the loop reaches before the horizon, one iteration
    never moves the clock backwards, and moves it strictly forward when no
    job is executed (the idle branch jumps to a later instant); the
    configuration and the release time of every job are left as they
    are. *)
Theorem iteration_never_moves_clock_back (s0 s : Simulator) (t : Q) :
  reachable s0 s t ->
  0 < time_quantum (config s) ->
  t < simulation_time (config s) ->
  t <= snd (iteration s t) /\
  (executed s t = None -> t < snd (iteration s t)) /\
  config (fst (iteration s t)) = config s /\
  (forall k, current_release (job (fst (iteration s t)) k)
             = current_release (job s k)).
Proof.
  intros Hr Hq Ht.
  pose proof (reachable_consistent _ _ _ Hr) as Hc.
  destruct (iteration_progress s t Hc Ht) as (Ec & _ & Erel & Hp).
  pose proof (least_step_pos _ Hq) as Hd.
  assert (Hlt : t < snd (iteration s t))
    by (destruct Hp as [Hp|[Hp _]]; lra).
  split; [lra|]. split; [intros _; exact Hlt|]. split; assumption.
Qed.

Lemma iteration_never_moves_clock_back_witness :
  let s0 := mkSim (Scheduler_init RM) demo_config Servers.BackgroundServer
                  None [Job_init (mkTask 1 PERIODIC 1 4 4 0 NONE) 2] []
                  None in
  reachable s0 (run_start s0) 0 /\
  0 < time_quantum (config (run_start s0)) /\
  0 < simulation_time (config (run_start s0)) /\
  executed (run_start s0) 0 = None /\
  0 < snd (iteration (run_start s0) 0).
Proof.
  intro s0.
  assert (He : executed (run_start s0) 0 = None) by reflexivity.
  split; [constructor|]. split; [reflexivity|]. split; [reflexivity|].
  split; [exact He|].
  exact (proj1 (proj2 (iteration_never_moves_clock_back s0 (run_start s0) 0
                         (reachable_start s0) eq_refl eq_refl)) He).
Defined.

End ClockProps.

(** ** Simulation engine: log, scheduler clock and counts *)

Module LogProps.
Import Parser Schedulers Sim SimSpec EngineSpec StepProps InvariantProps.

Lemma log_extends_refl s : log_extends s s.
Proof. exists []. now rewrite app_nil_r. Qed.

Lemma log_extends_trans s1 s2 s3 :
  log_extends s1 s2 -> log_extends s2 s3 -> log_extends s1 s3.
Proof.
  intros [a Ea] [b Eb]. exists (a ++ b). now rewrite Eb, Ea, app_assoc.
Qed.

Ltac grows :=
  unfold log_extends, event_log;
  first [ exists []; rewrite app_nil_r; reflexivity
        | eexists; cbn; rewrite <- ?app_assoc; reflexivity ].

Lemma prepare_log s t :
  log_extends s (prepare s t) /\
  current_time (scheduler (prepare s t)) = current_time (scheduler s).
Proof.
  unfold prepare. cbn [scheduler set_server].
  destruct (ArrivalProps.check_arrivals_fields s t)
    as (_ & _ & _ & _ & _ & _ & _ & _ & _ & A10 & A11).
  destruct (DeadlineProps.check_deadline_misses_spec (check_arrivals s t) t)
    as (_ & _ & _ & D4).
  destruct (misses_keep t (ready_queue (check_arrivals s t))
              (check_arrivals s t)) as (_ & _ & _ & _ & _ & D6).
  fold (check_deadline_misses (check_arrivals s t) t) in D6.
  split; [|congruence].
  unfold log_extends, event_log. cbn [scheduler set_server].
  rewrite D4, A11, <- app_assoc. eauto.
Qed.

Lemma preempt_log s t i : log_extends s (preempt s t i).
Proof.
  unfold preempt. destruct (current_task s); [|grows].
  destruct (_ && _); grows.
Qed.

Lemma switch_to_log s t i : log_extends s (fst (switch_to s t i)).
Proof.
  unfold switch_to. destruct (same_ref _ _); [grows|].
  destruct (current_task s).
  - destruct (Qltb 0 _); destruct (start_time _); grows.
  - destruct (start_time _); grows.
Qed.

Lemma complete_log s t i :
  log_extends s (complete s t i) /\
  current_time (scheduler (complete s t i)) = current_time (scheduler s).
Proof.
  unfold complete. destruct (is_complete _); split; try reflexivity; grows.
Qed.

Lemma run_job_log s t i :
  log_extends s (fst (run_job s t i)) /\
  current_time (scheduler (fst (run_job s t i))) = snd (run_job s t i).
Proof.
  unfold run_job.
  pose proof (preempt_log s t i) as P. set (s1 := preempt s t i) in *.
  pose proof (switch_to_log s1 t i) as S.
  destruct (switch_to s1 t i) as [s2 t2]. cbn [fst snd] in *.
  match goal with
  | |- context [complete ?m ?tt i] =>
      destruct (complete_log m tt i) as [C1 C2];
      assert (M : event_log m = event_log s2 /\
                  current_time (scheduler m) = tt)
        by (destruct (is_aperiodic _ i); split; reflexivity)
  end.
  destruct M as [M1 M2]. split.
  - eapply log_extends_trans; [exact P|].
    eapply log_extends_trans; [exact S|].
    destruct C1 as [more C1]. exists more. now rewrite C1, M1.
  - now rewrite C2, M2.
Qed.

Lemma idle_log s t :
  log_extends s (fst (idle s t)) /\
  current_time (scheduler (fst (idle s t))) = snd (idle s t).
Proof.
  unfold idle. destruct (Qltb t _); split; try reflexivity; grows.
Qed.

Lemma iteration_log s t :
  log_extends s (fst (iteration s t)) /\
  current_time (scheduler (fst (iteration s t))) = snd (iteration s t).
Proof.
  unfold iteration.
  destruct (prepare_log s t) as [P _]. set (s1 := prepare s t) in *.
  destruct (select_next s1 t) as [[i|] srv].
  - destruct (run_job_log (set_server s1 srv) t i) as [R1 R2].
    split; [|exact R2].
    eapply log_extends_trans; [exact P|]. exact R1.
  - destruct (idle_log (set_server s1 srv) t) as [R1 R2].
    split; [|exact R2].
    eapply log_extends_trans; [exact P|]. exact R1.
Qed.

Lemma reachable_log s0 s t :
  reachable s0 s t ->
  log_extends (run_start s0) s /\ current_time (scheduler s) = t /\
  config s = config s0.
Proof.
  induction 1 as [|s t Hr (IH1 & IH2 & IH3) Ht].
  - split; [apply log_extends_refl|]. split; reflexivity.
  - destruct (iteration_log s t) as [L1 L2].
    pose proof (reachable_consistent _ _ _ Hr) as Hc.
    destruct (ClockProps.iteration_progress s t Hc Ht) as (Ec & _).
    split; [eapply log_extends_trans; eassumption|].
    split; [exact L2|congruence].
Qed.

(** X20.  The scheduler's [current_time], which the LST policy reads, equals
    the loop's clock whenever a job is selected; and the log of a finished
    run starts with the [START] event at time 0 and ends with the [END]
    event, stamped with the final clock, which has reached the horizon and
    is the [total_time] of the statistics. *)
Theorem scheduler_clock_follows_the_loop (s0 : Simulator) :
  (forall s t, reachable s0 s t ->
     current_time (scheduler s) = t /\
     current_time (scheduler (prepare s t)) = t) /\
  (forall fuel s', run fuel s0 = Some s' ->
     exists events,
       event_log s' =
         mkEvent 0 None "START" SimulationStarted :: events
         ++ [mkEvent (current_time (scheduler s')) None "END"
                     SimulationCompleted] /\
       simulation_time (config s0) <= current_time (scheduler s') /\
       Statistics.total_time
         (Statistics.get_statistics (scheduler s') (task_instances s'))
       = current_time (scheduler s')).
Proof.
  split.
  - intros s t Hr. destruct (reachable_log _ _ _ Hr) as (_ & E & _).
    destruct (prepare_log s t) as [_ E']. split; congruence.
  - intros fuel s'. unfold run.
    destruct (loop fuel (run_start s0) 0) as [[s1 t1]|] eqn:E;
      [|discriminate].
    intro H. injection H as <-.
    destruct (loop_reachable s0 fuel _ _ _ _ (reachable_start s0) E)
      as [Hr Hend].
    destruct (reachable_log _ _ _ Hr) as ([more L] & Et & Ec).
    exists more. unfold event_log in *.
    assert (Eend : current_time
                     (scheduler (log s1 t1 None "END" SimulationCompleted))
                   = t1) by exact Et.
    rewrite Eend. split; [|split].
    + cbn [scheduler log set_scheduler add_event schedule_events].
      rewrite L. reflexivity.
    + now rewrite <- Ec.
    + exact Et.
Qed.

Lemma scheduler_clock_follows_the_loop_witness :
  match simulate 20 40 (Scheduler_init LST) demo_config
                 Servers.BackgroundServer demo_tasks with
  | Some s1 =>
      simulation_time demo_config <= current_time (scheduler s1)
  | None => False
  end.
Proof.
  unfold simulate.
  destruct (load_task_set 20 _ demo_tasks) as [s0|] eqn:E0;
    [|vm_compute in E0; discriminate E0].
  assert (Ec : config s0 = demo_config).
  { vm_compute in E0. injection E0 as <-. reflexivity. }
  destruct (run 40 s0) as [s1|] eqn:E1.
  - destruct (proj2 (scheduler_clock_follows_the_loop s0) 40%nat s1 E1)
      as (events & _ & H & _).
    now rewrite Ec in H.
  - vm_compute in E0. injection E0 as <-. vm_compute in E1. discriminate E1.
Defined.

(** X21.  At any time the jobs that are ready, completed or missed are
    distinct jobs of the store: their numbers add up to at most the number
    of activations generated. *)
Theorem terminated_jobs_are_counted_once (s0 s : Simulator) (t : Q) :
  reachable s0 s t ->
  (List.length (ready_queue s)
   + List.length (completed_tasks (scheduler s))
   + List.length (missed_deadlines (scheduler s))
   <= List.length (task_instances s))%nat.
Proof.
  intro Hr. destruct (reachable_consistent _ _ _ Hr).
  rewrite <- Nat.add_assoc, <- !length_app.
  rewrite <- (length_seq (List.length (task_instances s)) 0).
  apply NoDup_incl_length.
  - apply NoDup_app; [assumption| |].
    + apply NoDup_app; [assumption|assumption|auto].
    + intros i Hi Hc. apply in_app_or in Hc. destruct Hc as [Hc|Hc].
      * eapply ready_not_completed0; eassumption.
      * eapply ready_not_missed0; eassumption.
  - intros i Hi. apply in_app_or in Hi. destruct Hi as [Hi|Hi]; [auto|].
    apply in_app_or in Hi. destruct Hi as [Hi|Hi]; auto.
Qed.

Lemma terminated_jobs_are_counted_once_witness :
  let s0 := mkSim (Scheduler_init RM) demo_config Servers.BackgroundServer
                  None [Job_init (mkTask 1 PERIODIC 1 4 4 0 NONE) 0] []
                  None in
  reachable s0 (fst (iteration (run_start s0) 0))
               (snd (iteration (run_start s0) 0)) /\
  (List.length (completed_tasks
                  (scheduler (fst (iteration (run_start s0) 0))))
   <= 1)%nat.
Proof.
  intro s0.
  assert (Hr : reachable s0 (fst (iteration (run_start s0) 0))
                         (snd (iteration (run_start s0) 0))).
  { apply reachable_step; [constructor|reflexivity]. }
  split; [exact Hr|].
  pose proof (terminated_jobs_are_counted_once s0 _ _ Hr) as H.
  change (List.length (task_instances (fst (iteration (run_start s0) 0))))
    with 1%nat in H.
  lia.
Defined.

End LogProps.

(** ** Simulation engine: start and completion times *)

Module TimingProps.
Import Parser Schedulers Sim SimSpec EngineSpec TimingSpec.
Import StepProps InvariantProps.

Lemma switch_to_start s t i :
  In i (refs s) ->
  let s' := fst (switch_to s t i) in
  let t' := snd (switch_to s t i) in
  (forall k, k <> i -> start_time (job s' k) = start_time (job s k)) /\
  start_time (job s' i) =
    match start_time (job s i) with
    | Some x => Some x
    | None => if same_ref (current_task s) i then None else Some t'
    end.
Proof.
  intro Hi. unfold switch_to.
  destruct (same_ref (current_task s) i) eqn:Es.
  { cbn [fst snd]. split; [reflexivity|].
    destruct (start_time (job s i)); reflexivity. }
  assert (K : forall (m : Simulator) (u : Q),
    task_instances m = task_instances s ->
    let r := match start_time (job m i) with
             | None => (log (update_job m i (set_start_time u)) u (Some i)
                            "START" StartedExecution, u)
             | Some _ => (m, u)
             end in
    (forall k, k <> i -> start_time (job (fst r) k) = start_time (job s k)) /\
    start_time (job (fst r) i) =
      match start_time (job s i) with
      | Some x => Some x
      | None => Some (snd r)
      end).
  { intros m u Em. assert (Ej : forall k, job m k = job s k)
      by (intro k; unfold job; now rewrite Em).
    assert (Hm : In i (refs m))
      by (apply refs_lt; rewrite Em; now apply refs_lt).
    cbv zeta. rewrite Ej.
    destruct (start_time (job s i)) eqn:E0; cbn [fst snd].
    - split; [intros k _; now rewrite Ej|now rewrite Ej].
    - split.
      + intros k Hk.
        change (job (log ?x _ _ _ _) k) with (job x k).
        now rewrite job_update_neq, Ej.
      + change (job (log ?x _ _ _ _) i) with (job x i).
        rewrite job_update_eq by exact Hm. reflexivity. }
  destruct (current_task s) as [c|].
  - destruct (Qltb 0 (context_switch_overhead (config s))).
    + apply K. reflexivity.
    + apply K. reflexivity.
  - apply K. reflexivity.
Qed.

Lemma complete_times s t i :
  In i (refs s) ->
  let s' := complete s t i in
  (forall k, k <> i ->
     completion_time (job s' k) = completion_time (job s k)) /\
  completion_time (job s' i) =
    (if is_complete (job s i) then Some t else completion_time (job s i)).
Proof.
  intro Hi. unfold complete. destruct (is_complete (job s i)).
  - split.
    + intros k Hk. change (job (set_current_task ?x _) k) with (job x k).
      unfold job. cbn [task_instances log set_scheduler set_ready].
      fold (job (update_job s i (set_completion_time t)) k).
      now rewrite job_update_neq.
    + unfold job. cbn [task_instances set_current_task log set_scheduler
                       set_ready].
      fold (job (update_job s i (set_completion_time t)) i).
      now rewrite job_update_eq.
  - split; reflexivity.
Qed.

(** Start and completion times after the branch [if next_task:]. *)
Lemma run_job_times s t i :
  In i (refs s) ->
  let r := remaining (job s i) in
  let e := py_min2 (time_quantum (config s)) r in
  let done := Qle_bool (py_max2 0 (r - e)) epsilon in
  let s' := fst (run_job s t i) in
  let t' := snd (run_job s t i) in
  exists t2,
    t <= t2 /\ t' = t2 + e /\
    (forall k, k <> i ->
       start_time (job s' k) = start_time (job s k) /\
       completion_time (job s' k) = completion_time (job s k)) /\
    start_time (job s' i) =
      match start_time (job s i) with
      | Some x => Some x
      | None => if same_ref (current_task s) i then None else Some t2
      end /\
    completion_time (job s' i) =
      (if done then Some t' else completion_time (job s i)).
Proof.
  intros Hi r e done s' t'. subst s' t'. unfold run_job.
  destruct (preempt_fields s t i)
    as (_ & P2 & _ & _ & P5 & P6 & P7 & P8 & P9 & _).
  set (s1 := preempt s t i) in *.
  assert (Hi1 : In i (refs s1))
    by (apply refs_lt; rewrite P6; now apply refs_lt).
  destruct (switch_to_fields s1 t i)
    as (_ & _ & _ & _ & S5 & S6 & S7 & S8 & _ & S10).
  destruct (switch_to_start s1 t i Hi1) as [T1 T2].
  destruct (switch_to s1 t i) as [s2 t2]. cbn [fst snd] in *.
  exists t2. split; [exact S10|].
  assert (Hi2 : In i (refs s2)).
  { apply refs_lt. rewrite S6, P6. now apply refs_lt. }
  assert (Er : remaining (job s2 i) = r) by (rewrite S7, P7; reflexivity).
  assert (Ec : config s2 = config s) by congruence.
  cbv zeta.
  change (config (set_current_task s2 (Some i))) with (config s2).
  change (job (set_current_task s2 (Some i)) i) with (job s2 i).
  rewrite Ec, Er. fold e.
  set (s4 := update_job (set_current_task s2 (Some i)) i
                        (fun j => fst (execute j e))).
  assert (F4 : forall k, start_time (job s4 k) = start_time (job s2 k) /\
                         completion_time (job s4 k)
                           = completion_time (job s2 k) /\
                         List.length (task_instances s4)
                           = List.length (task_instances s2)).
  { intro k. unfold s4.
    rewrite !(job_update_field _ _ i (fun j => fst (execute j e)) k)
      by reflexivity.
    unfold update_job.
    cbn [task_instances set_instances set_current_task].
    rewrite update_length. repeat split. }
  assert (R4 : remaining (job s4 i) = py_max2 0 (r - e)).
  { unfold s4. rewrite job_update_eq by exact Hi2.
    change (job (set_current_task s2 (Some i)) i) with (job s2 i).
    unfold execute. cbn [fst remaining]. rewrite Er.
    assert (Ee : py_min2 e r = e) by (unfold e; apply py_min2_idem).
    now rewrite Ee. }
  match goal with
  | |- context [complete ?m ?tt i] =>
      assert (J6 : forall k, job m k = job s4 k)
        by (intro k; destruct (is_aperiodic s4 i); reflexivity);
      assert (L6 : In i (refs m))
        by (apply refs_lt;
            destruct (is_aperiodic s4 i);
            cbn [task_instances set_scheduler set_server];
            rewrite (proj2 (proj2 (F4 i))); now apply refs_lt);
      destruct (complete_times m tt i L6) as [C1 C2];
      destruct (complete_fields m tt i)
        as (_ & _ & _ & _ & _ & _ & _ & C8 & _);
      set (s6 := m) in *
  end.
  cbn [fst snd]. split; [reflexivity|].
  assert (D : is_complete (job s6 i) = done).
  { unfold is_complete. now rewrite J6, R4. }
  rewrite D in C2.
  split; [|split].
  - intros k Hk. split.
    + rewrite C8, J6, (proj1 (F4 k)), T1 by exact Hk. apply P8.
    + rewrite C1, J6 by exact Hk.
      rewrite (proj1 (proj2 (F4 k))), S8. apply P9.
  - rewrite C8, J6, (proj1 (F4 i)), T2, P8, P2. reflexivity.
  - rewrite C2, J6, (proj1 (proj2 (F4 i))), S8, P9. reflexivity.
Qed.

Lemma prepare_queues s t :
  let s1 := prepare s t in
  task_instances s1 = task_instances s /\
  (forall i, In i (ready_queue s1) ->
     In i (ready_queue s) \/ current_release (job s i) <= t) /\
  (forall c, current_task s1 = Some c -> current_task s = Some c) /\
  completed_tasks (scheduler s1) = completed_tasks (scheduler s).
Proof.
  unfold prepare.
  cbn [task_instances ready_queue current_task scheduler set_server].
  destruct (ArrivalProps.check_arrivals_fields s t)
    as (A1 & A2 & A3 & _ & _ & _ & A7 & _).
  set (sa := check_arrivals s t) in *.
  destruct (DeadlineProps.check_deadline_misses_spec sa t) as (D1 & D2 & _).
  destruct (misses_keep t (ready_queue sa) sa) as (_ & _ & _ & D4 & _).
  fold (check_deadline_misses sa t) in D4.
  split; [congruence|]. split; [|split; [|congruence]].
  - intros i Hi. rewrite D2 in Hi. apply filter_In in Hi.
    destruct Hi as [Hi _]. rewrite A2 in Hi. apply in_app_or in Hi.
    destruct Hi as [Hi|Hi]; [now left|right].
    apply filter_In in Hi. destruct Hi as [_ Hi].
    apply ArrivalProps.has_arrived_iff in Hi. tauto.
  - intros c Hc.
    destruct (misses_current t (task_instances sa) (ready_queue sa) sa c
                eq_refl Hc) as [Hc' _].
    congruence.
Qed.

Lemma prepare_timed s t : timed s t -> timed (prepare s t) t.
Proof.
  intros [].
  destruct (prepare_queues s t) as (E1 & Hr & Hc & E4).
  assert (Ej : forall k, job (prepare s t) k = job s k)
    by (intro k; unfold job; now rewrite E1).
  constructor; intros *; rewrite ?Ej, ?E4; auto.
  intro Hi. destruct (Hr _ Hi); auto.
Qed.

Lemma run_job_timed s t i :
  consistent s -> timed s t -> In i (ready_queue s) ->
  0 < time_quantum (config s) ->
  timed (fst (run_job s t i)) (snd (run_job s t i)).
Proof.
  intros Hc [] Hi Hq.
  pose proof (ready_in_store s Hc i Hi) as Hs.
  destruct (run_job_fields s t i Hs)
    as (E1 & E2 & E3 & _ & _ & _ & _ & E8 & _).
  destruct (run_job_times s t i Hs) as (t2 & H2 & Et & To & Ts & Tc).
  set (s' := fst (run_job s t i)) in *.
  set (t' := snd (run_job s t i)) in *.
  set (e := py_min2 (time_quantum (config s)) (remaining (job s i))) in *.
  set (done := Qle_bool _ epsilon) in *.
  assert (He : 0 < e).
  { pose proof (ready_incomplete s Hc i Hi) as Hinc.
    unfold is_complete in Hinc. apply Qle_bool_gt in Hinc.
    unfold epsilon in Hinc. unfold e.
    case_min (time_quantum (config s)) (remaining (job s i)); lra. }
  assert (Ht : t2 <= t') by (rewrite Et; lra).
  assert (Hrel : forall k, current_release (job s' k)
                           = current_release (job s k))
    by (intro k; apply (E8 k)).
  assert (Hsi : exists st, start_time (job s' i) = Some st /\
                           current_release (job s i) <= st /\ st <= t2).
  { rewrite Ts. destruct (start_time (job s i)) as [x|] eqn:E0.
    - exists x. split; [reflexivity|].
      destruct (started_after_release0 i x E0). split; lra.
    - destruct (same_ref (current_task s) i) eqn:Es.
      + exfalso. destruct (current_task s) as [c|] eqn:Ecur;
          [|discriminate]. simpl in Es. apply Nat.eqb_eq in Es. subst c.
        now apply (current_has_started0 i).
      + exists t2. split; [reflexivity|].
        specialize (ready_released0 i Hi). split; lra. }
  destruct Hsi as (sti & Esti & Hsti1 & Hsti2).
  constructor.
  - intros k Hk. rewrite Hrel. rewrite E1 in Hk.
    assert (In k (ready_queue s))
      by (destruct done; eauto using remove_first_subset).
    specialize (ready_released0 k H). lra.
  - intros k st Hst. rewrite Hrel.
    destruct (Nat.eq_dec k i) as [->|Hk].
    + rewrite Esti in Hst. injection Hst as <-. split; lra.
    + rewrite (proj1 (To k Hk)) in Hst.
      destruct (started_after_release0 k st Hst). split; lra.
  - intros k ct Hct. destruct (Nat.eq_dec k i) as [->|Hk].
    + exists sti. split; [exact Esti|]. rewrite Tc in Hct.
      destruct done.
      * injection Hct as <-. split; lra.
      * destruct (completed_after_start0 i ct Hct) as (st & Est & H1 & H3).
        rewrite Ts, Est in Esti. injection Esti as <-. split; lra.
    + rewrite (proj2 (To k Hk)) in Hct.
      destruct (completed_after_start0 k ct Hct) as (st & Est & H1 & H3).
      exists st. rewrite (proj1 (To k Hk)). split; [exact Est|]. split; lra.
  - intros c Ec. rewrite E2 in Ec. destruct done; [discriminate|].
    injection Ec as <-. now rewrite Esti.
  - intros k Hk. rewrite E3 in Hk.
    assert (Hold : In k (completed_tasks (scheduler s)) ->
                   completion_time (job s' k) <> None).
    { intro H. assert (k <> i).
      { intros ->. eapply (ready_not_completed s Hc); eassumption. }
      rewrite (proj2 (To k H0)). auto. }
    destruct done eqn:Ed; [|auto].
    apply in_app_or in Hk. destruct Hk as [Hk|[<-|[]]]; [auto|].
    now rewrite Tc.
Qed.

Lemma idle_timed s t :
  timed s t -> 0 < time_quantum (config s) ->
  timed (fst (idle s t)) (snd (idle s t)).
Proof.
  intros [] Hq.
  assert (H : t <= snd (idle s t) /\
              task_instances (fst (idle s t)) = task_instances s /\
              ready_queue (fst (idle s t)) = ready_queue s /\
              completed_tasks (scheduler (fst (idle s t)))
                = completed_tasks (scheduler s) /\
              current_task (fst (idle s t)) = None).
  { unfold idle.
    destruct (Qltb t (find_next_event_time (set_current_task s None) t))
      eqn:E; (split; [cbn [snd config set_current_task]
                     |cbn; repeat split]).
    - apply Qltb_lt in E. lra.
    - lra. }
  destruct H as (Ht & E1 & E2 & E3 & E4).
  assert (Ej : forall k, job (fst (idle s t)) k = job s k)
    by (intro k; unfold job; now rewrite E1).
  constructor; intros *; rewrite ?Ej, ?E2, ?E3, ?E4.
  - intro Hi. specialize (ready_released0 _ Hi). lra.
  - intro Hst. destruct (started_after_release0 _ _ Hst). split; lra.
  - intro Hct. destruct (completed_after_start0 _ _ Hct) as (st & A & B & C).
    exists st. split; [exact A|]. split; lra.
  - discriminate.
  - auto.
Qed.

Lemma iteration_timed s t :
  consistent s -> timed s t -> 0 < time_quantum (config s) ->
  timed (fst (iteration s t)) (snd (iteration s t)).
Proof.
  intros Hc Ht Hq.
  pose proof (prepare_consistent s t Hc) as Hc1.
  pose proof (prepare_timed s t Ht) as Ht1.
  destruct (ClockProps.prepare_fields s t) as [_ Ecfg].
  unfold iteration.
  pose proof (select_next_ready (prepare s t) t) as Hsel.
  set (s1 := prepare s t) in *.
  destruct (select_next s1 t) as [[i|] srv]; cbn [fst] in Hsel.
  - apply run_job_timed.
    + revert Hc1. apply consistent_same_queues. repeat split.
    + destruct Ht1. constructor; assumption.
    + apply (Hsel i eq_refl).
    + cbn [config set_server]. now rewrite Ecfg.
  - apply idle_timed.
    + destruct Ht1. constructor; assumption.
    + cbn [config set_server]. now rewrite Ecfg.
Qed.

Lemma fresh_job s k :
  fresh_store s ->
  start_time (job s k) = None /\ completion_time (job s k) = None.
Proof.
  unfold fresh_store, job. intro H. revert k.
  induction H as [|j l Hj Hl IH]; intros [|k]; simpl; auto.
Qed.

Lemma reachable_timed s0 s t :
  fresh_store s0 -> 0 < time_quantum (config s0) ->
  reachable s0 s t -> timed s t.
Proof.
  intros Hf Hq Hr. induction Hr as [|s t Hr IH Ht].
  - assert (Ej : forall k, job (run_start s0) k = job s0 k)
      by reflexivity.
    constructor; intros *; rewrite ?Ej; cbn.
    + tauto.
    + rewrite (proj1 (fresh_job s0 k Hf)). discriminate.
    + rewrite (proj2 (fresh_job s0 k Hf)). discriminate.
    + discriminate.
    + tauto.
  - apply iteration_timed; [eapply reachable_consistent; eassumption|exact IH|].
    destruct (LogProps.reachable_log _ _ _ Hr) as (_ & _ & Ec).
    now rewrite Ec.
Qed.

Lemma periodic_jobs_fresh fuel t h :
  forall r js, periodic_jobs fuel t r h = Some js ->
    Forall (fun j => start_time j = None /\ completion_time j = None) js.
Proof.
  induction fuel as [|fuel IH]; intros r js; simpl.
  - destruct (Qltb r h); [discriminate|]. intro E. injection E as <-.
    constructor.
  - destruct (Qltb r h).
    + destruct (periodic_jobs fuel t (r + period t) h) as [js'|] eqn:E';
        [|discriminate].
      intro E. injection E as <-. constructor; [split; reflexivity|].
      eapply IH, E'.
    + intro E. injection E as <-. constructor.
Qed.

Lemma all_periodic_jobs_fresh fuel h l :
  forall js, all_periodic_jobs fuel l h = Some js ->
    Forall (fun j => start_time j = None /\ completion_time j = None) js.
Proof.
  induction l as [|t l IH]; intros js; simpl.
  - intro E. injection E as <-. constructor.
  - destruct (periodic_jobs fuel t (release_time t) h) as [a|] eqn:Ea;
      [|discriminate].
    destruct (all_periodic_jobs fuel l h) as [b|]; [|discriminate].
    intro E. injection E as <-. apply Forall_app. split.
    + eapply periodic_jobs_fresh, Ea.
    + now apply IH.
Qed.

Lemma load_task_set_fresh g s ts s0 :
  load_task_set g s ts = Some s0 ->
  fresh_store s0 /\ config s0 = config s.
Proof.
  unfold load_task_set, generate_task_instances, unsorted_instances.
  cbn [task_set set_task_set config].
  destruct (all_periodic_jobs g (periodic_tasks ts) _) as [pj|] eqn:E;
    [|discriminate].
  intro H. injection H as <-. split; [|reflexivity].
  unfold fresh_store. cbn [task_instances set_instances].
  eapply Permutation_Forall;
    [symmetry; apply ActivationProps.sort_perm|].
  apply Forall_app. split; [eapply all_periodic_jobs_fresh, E|].
  apply Forall_app. split; apply Forall_map, Forall_forall;
    intros; split; reflexivity.
Qed.

(** X22.  After a run of a loaded task set with a positive quantum, every
    completed job has a start and a completion time with
    [release <= start <= completion <= final clock], and at most [1e-9] of
    execution left. *)
Theorem completed_jobs_have_ordered_times
  (g fuel : nat) (s s0 s' : Simulator) (ts : TaskSet) (i : nat) :
  load_task_set g s ts = Some s0 ->
  0 < time_quantum (config s) ->
  run fuel s0 = Some s' ->
  In i (completed_tasks (scheduler s')) ->
  exists st ct,
    start_time (job s' i) = Some st /\
    completion_time (job s' i) = Some ct /\
    current_release (job s' i) <= st /\ st <= ct /\
    ct <= current_time (scheduler s') /\
    is_complete (job s' i) = true.
Proof.
  intros Hl Hq Hrun Hi.
  destruct (load_task_set_fresh _ _ _ _ Hl) as [Hf Ec].
  rewrite <- Ec in Hq. unfold run in Hrun.
  destruct (loop fuel (run_start s0) 0) as [[s1 t1]|] eqn:E; [|discriminate].
  injection Hrun as <-.
  destruct (loop_reachable s0 fuel _ _ _ _ (reachable_start s0) E) as [Hr _].
  pose proof (reachable_timed _ _ _ Hf Hq Hr) as Ht.
  pose proof (reachable_consistent _ _ _ Hr) as Hc.
  destruct (LogProps.reachable_log _ _ _ Hr) as (_ & Et & _).
  change (job (log s1 t1 None "END" SimulationCompleted) i) with (job s1 i).
  change (current_time (scheduler (log s1 t1 None "END" SimulationCompleted)))
    with (current_time (scheduler s1)).
  change (In i (completed_tasks (scheduler s1))) in Hi.
  destruct (completion_time (job s1 i)) as [ct|] eqn:Ect.
  2:{ exfalso. now apply (completed_have_time s1 t1 Ht i Hi). }
  destruct (completed_after_start s1 t1 Ht i ct Ect) as (st & Est & H1 & H2).
  destruct (started_after_release s1 t1 Ht i st Est) as [H3 _].
  exists st, ct. rewrite Et. repeat split; try assumption.
  now apply (completed_complete s1 Hc).
Qed.

Lemma completed_jobs_have_ordered_times_witness :
  match load_task_set 20 (Simulator_init (Scheduler_init EDF) demo_config
                                         None) demo_tasks with
  | Some s0 =>
      match run 40 s0 with
      | Some s' =>
          In 0%nat (completed_tasks (scheduler s')) /\
          exists st ct,
            start_time (job s' 0) = Some st /\
            completion_time (job s' 0) = Some ct /\
            current_release (job s' 0) <= st /\ st <= ct
      | None => False
      end
  | None => False
  end.
Proof.
  destruct (load_task_set 20 _ demo_tasks) as [s0|] eqn:E0;
    [|vm_compute in E0; discriminate E0].
  destruct (run 40 s0) as [s'|] eqn:E1.
  - assert (Hin : In 0%nat (completed_tasks (scheduler s'))).
    { vm_compute in E0. injection E0 as <-.
      vm_compute in E1. injection E1 as <-. simpl. auto. }
    split; [exact Hin|].
    destruct (completed_jobs_have_ordered_times 20 40 _ s0 s' demo_tasks
                0%nat E0 eq_refl E1 Hin)
      as (st & ct & A & B & C & D & _).
    exists st, ct. auto.
  - vm_compute in E0. injection E0 as <-. vm_compute in E1. discriminate E1.
Defined.

End TimingProps.

(** ** Simulation engine: missed jobs, work conservation, server use *)

Module EngineMoreProps.
Import Parser Schedulers Sim SimSpec EngineSpec EngineMoreSpec.
Import StepProps InvariantProps.

Lemma prepare_missed s t :
  forall i, In i (missed_deadlines (scheduler (prepare s t))) ->
    In i (missed_deadlines (scheduler s)) \/
    (is_complete (job s i) = false /\ abs_deadline (job s i) < t).
Proof.
  intros i. unfold prepare. cbn [scheduler set_server].
  destruct (ArrivalProps.check_arrivals_fields s t)
    as (A1 & _ & _ & _ & _ & _ & _ & A8 & _).
  set (sa := check_arrivals s t) in *.
  destruct (DeadlineProps.check_deadline_misses_spec sa t) as (_ & _ & D3 & _).
  rewrite D3, A8. intro Hi. apply in_app_or in Hi.
  destruct Hi as [Hi|Hi]; [now left|right].
  apply filter_In in Hi. destruct Hi as [_ Hl].
  unfold late, job in Hl. rewrite A1 in Hl.
  apply andb_true_iff in Hl. destruct Hl as [H1 H2].
  apply Qltb_lt in H1. apply negb_true_iff in H2. auto.
Qed.

Lemma iteration_missed s t :
  consistent s -> 0 < time_quantum (config s) ->
  missed_are_late s t ->
  missed_are_late (fst (iteration s t)) (snd (iteration s t)).
Proof.
  intros Hc Hq Hm.
  pose proof (prepare_consistent s t Hc) as Hc1.
  destruct (ClockProps.prepare_fields s t) as [Ei Ecfg].
  pose proof (prepare_missed s t) as Hpm.
  assert (Hm1 : missed_are_late (prepare s t) t).
  { intros i Hi. unfold job. rewrite Ei. fold (job s i).
    destruct (Hpm i Hi); auto. }
  clear Hm Hpm. unfold iteration.
  pose proof (select_next_ready (prepare s t) t) as Hsel.
  set (s1 := prepare s t) in *.
  destruct (select_next s1 t) as [[i|] srv]; cbn [fst] in Hsel.
  - specialize (Hsel i eq_refl).
    destruct (run_job_fields (set_server s1 srv) t i
                (ready_in_store s1 Hc1 i Hsel))
      as (_ & _ & _ & E4 & _ & _ & E7 & E8 & E9).
    change (job (set_server s1 srv)) with (job s1) in *.
    change (config (set_server s1 srv)) with (config s1) in *.
    assert (He : 0 < py_min2 (time_quantum (config s1))
                             (remaining (job s1 i))).
    { pose proof (ready_incomplete s1 Hc1 i Hsel) as Hinc.
      unfold is_complete in Hinc. apply Qle_bool_gt in Hinc.
      unfold epsilon in Hinc. rewrite Ecfg.
      case_min (time_quantum (config s)) (remaining (job s1 i)); lra. }
    intros k Hk. rewrite E4 in Hk.
    change (In k (missed_deadlines (scheduler s1))) in Hk.
    destruct (Hm1 k Hk) as [H1 H2].
    assert (Hne : k <> i).
    { intros ->. eapply (ready_not_missed s1 Hc1); eassumption. }
    split.
    + unfold is_complete. rewrite E7.
      apply Nat.eqb_neq in Hne. rewrite Hne. exact H1.
    + destruct (E8 k) as (_ & Ed & _). rewrite Ed. lra.
  - assert (H : t <= snd (idle (set_server s1 srv) t) /\
                task_instances (fst (idle (set_server s1 srv) t))
                  = task_instances s1 /\
                missed_deadlines (scheduler (fst (idle (set_server s1 srv) t)))
                  = missed_deadlines (scheduler s1)).
    { unfold idle.
      destruct (Qltb t (find_next_event_time _ t)) eqn:E;
        (split; [cbn [snd config set_current_task set_server]
                |cbn; split; reflexivity]).
      - apply Qltb_lt in E. lra.
      - rewrite Ecfg. lra. }
    destruct H as (Ht & E1 & E2).
    intros k Hk. rewrite E2 in Hk. destruct (Hm1 k Hk) as [H1 H2].
    unfold job. rewrite E1. fold (job s1 k). split; [exact H1|lra].
Qed.

Lemma reachable_missed s0 s t :
  0 < time_quantum (config s0) -> reachable s0 s t -> missed_are_late s t.
Proof.
  intros Hq Hr. induction Hr as [|s t Hr IH Ht].
  - intros i [].
  - apply iteration_missed; [eapply reachable_consistent; eassumption| |exact IH].
    destruct (LogProps.reachable_log _ _ _ Hr) as (_ & _ & Ec).
    now rewrite Ec.
Qed.

(** X23.  With a positive quantum, every job a run records as missed is not
    completed, still has more than [1e-9] of execution left, and has a
    deadline strictly before the final clock. *)
Theorem missed_jobs_are_late_and_incomplete
  (s0 s' : Simulator) (fuel i : nat) :
  0 < time_quantum (config s0) ->
  run fuel s0 = Some s' ->
  In i (missed_deadlines (scheduler s')) ->
  ~ In i (completed_tasks (scheduler s')) /\
  is_complete (job s' i) = false /\
  abs_deadline (job s' i) < current_time (scheduler s').
Proof.
  intros Hq Hrun Hi. unfold run in Hrun.
  destruct (loop fuel (run_start s0) 0) as [[s1 t1]|] eqn:E; [|discriminate].
  injection Hrun as <-.
  destruct (loop_reachable s0 fuel _ _ _ _ (reachable_start s0) E) as [Hr _].
  pose proof (reachable_missed _ _ _ Hq Hr) as Hm.
  pose proof (reachable_consistent _ _ _ Hr) as Hc.
  destruct (LogProps.reachable_log _ _ _ Hr) as (_ & Et & _).
  change (In i (missed_deadlines (scheduler s1))) in Hi.
  change (job (log s1 t1 None "END" SimulationCompleted) i) with (job s1 i).
  change (current_time (scheduler (log s1 t1 None "END" SimulationCompleted)))
    with (current_time (scheduler s1)).
  change (completed_tasks
            (scheduler (log s1 t1 None "END" SimulationCompleted)))
    with (completed_tasks (scheduler s1)).
  destruct (Hm i Hi) as [H1 H2]. rewrite Et.
  split; [|split; assumption].
  intro Hcm. eapply (completed_not_missed s1 Hc); eassumption.
Qed.

Lemma missed_jobs_are_late_and_incomplete_witness :
  let tk := mkTask 1 PERIODIC 4 2 2 0 NONE in
  let s0 := mkSim (Scheduler_init RM) (mkConfig 6 1 true 0)
                  Servers.BackgroundServer None
                  [Job_init tk 0; Job_init tk 2; Job_init tk 4] [] None in
  match run 20 s0 with
  | Some s' =>
      In 0%nat (missed_deadlines (scheduler s')) /\
      is_complete (job s' 0) = false /\
      abs_deadline (job s' 0) < current_time (scheduler s')
  | None => False
  end.
Proof.
  intros tk s0.
  destruct (run 20 s0) as [s'|] eqn:E1;
    [|vm_compute in E1; discriminate E1].
  assert (Hin : In 0%nat (missed_deadlines (scheduler s'))).
  { vm_compute in E1. injection E1 as <-. simpl. auto. }
  split; [exact Hin|].
  exact (proj2 (missed_jobs_are_late_and_incomplete s0 s' 20 0
                  eq_refl E1 Hin)).
Defined.

(** X24.  When a Periodic or Dynamic job is ready at the moment of
    selection, the iteration does not idle: it executes a job, and that job
    is Periodic or Dynamic. *)
Theorem deadline_work_is_never_left_waiting
  (s : Simulator) (t : Q) (i : nat) :
  let s1 := prepare s t in
  In i (ready_queue s1) -> is_aperiodic s1 i = false ->
  exists j, executed s t = Some j /\ In j (ready_queue s1) /\
            is_aperiodic s1 j = false.
Proof.
  intros s1 Hi Hap. unfold executed, select_next. fold s1.
  destruct (filter (fun r => negb (is_aperiodic s1 r)) (ready_queue s1))
    as [|x l] eqn:Ep.
  - exfalso. apply SelectionProps.filter_nil_none in Ep.
    rewrite Forall_forall in Ep. specialize (Ep i Hi).
    rewrite Hap in Ep. discriminate.
  - cbn [fst].
    destruct (select_ref s1 (x :: l)) as [j|] eqn:Ej; [|discriminate Ej].
    exists j. split; [reflexivity|].
    apply SelectionProps.select_ref_In in Ej. rewrite <- Ep in Ej.
    apply filter_In in Ej. destruct Ej as [Hj Hn].
    split; [exact Hj|]. now apply negb_true_iff in Hn.
Qed.

Lemma deadline_work_is_never_left_waiting_witness :
  let s := mkSim (Scheduler_init RM) demo_config Servers.BackgroundServer
                 None [Job_init (mkTask 1 PERIODIC 1 4 4 0 NONE) 0] []
                 None in
  In 0%nat (ready_queue (prepare s 0)) /\
  is_aperiodic (prepare s 0) 0 = false /\
  exists j, executed s 0 = Some j.
Proof.
  intro s.
  assert (H1 : In 0%nat (ready_queue (prepare s 0))) by (simpl; auto).
  split; [exact H1|]. split; [reflexivity|].
  destruct (deadline_work_is_never_left_waiting s 0 0 H1 eq_refl)
    as (j & Ej & _).
  now exists j.
Defined.

Lemma served_refl s : served_from s s.
Proof. exists []. split; [constructor|reflexivity]. Qed.

Lemma calls_app srv a b :
  snd (Servers.calls srv (a ++ b))
  = snd (Servers.calls (snd (Servers.calls srv a)) b).
Proof.
  revert srv. induction a as [|c a IH]; intro srv; simpl; [reflexivity|].
  destruct (Servers.call srv c) as [r s1].
  specialize (IH s1).
  destruct (Servers.calls s1 (a ++ b)) as [rs s2].
  destruct (Servers.calls s1 a) as [rs' s2']. simpl in *. exact IH.
Qed.

Lemma served_trans s1 s2 s3 :
  served_from s1 s2 -> served_from s2 s3 -> served_from s1 s3.
Proof.
  intros (a & Ha & Ea) (b & Hb & Eb). exists (a ++ b).
  split; [apply Forall_app; auto|].
  now rewrite calls_app, <- Ea.
Qed.

Lemma served_one s s' c :
  ServerSpec.nonneg_consume c ->
  aperiodic_server s' = snd (Servers.call (aperiodic_server s) c) ->
  served_from s s'.
Proof.
  intros Hc E. exists [c]. split; [repeat constructor; exact Hc|].
  simpl. destruct (Servers.call (aperiodic_server s) c). exact E.
Qed.

Lemma served_same s s' :
  aperiodic_server s' = aperiodic_server s -> served_from s s'.
Proof. intro E. exists []. split; [constructor|exact E]. Qed.

Lemma prepare_served s t : served_from s (prepare s t).
Proof.
  apply served_one with (c := Servers.Replenish t); [exact I|].
  unfold prepare. cbn [aperiodic_server set_server Servers.call snd].
  destruct (ArrivalProps.check_arrivals_fields s t)
    as (_ & _ & _ & _ & _ & A6 & _).
  destruct (misses_keep t (ready_queue (check_arrivals s t))
              (check_arrivals s t)) as (_ & _ & D3 & _).
  fold (check_deadline_misses (check_arrivals s t) t) in D3.
  now rewrite D3, A6.
Qed.

Lemma select_next_served s t :
  served_from s (set_server s (snd (select_next s t))).
Proof.
  unfold select_next.
  destruct (filter _ (ready_queue s)); [|now apply served_same].
  destruct (filter _ (ready_queue s)); [now apply served_same|].
  apply served_one with (c := Servers.CanServe t); [exact I|].
  cbn [Servers.call].
  destruct (Servers.can_serve (aperiodic_server s) t) as [[|] srv];
    reflexivity.
Qed.

Lemma run_job_served s t i :
  0 <= py_min2 (time_quantum (config s)) (remaining (job s i)) ->
  In i (refs s) ->
  served_from s (fst (run_job s t i)).
Proof.
  intros He Hi. unfold run_job.
  destruct (preempt_fields s t i) as (_ & _ & _ & _ & P5 & P6 & P7 & _).
  assert (Ps : aperiodic_server (preempt s t i) = aperiodic_server s).
  { unfold preempt. destruct (current_task s); [|reflexivity].
    destruct (_ && _); reflexivity. }
  set (s1 := preempt s t i) in *.
  destruct (switch_to_fields s1 t i) as (_ & _ & _ & _ & S5 & _ & S7 & _).
  assert (Ss : aperiodic_server (fst (switch_to s1 t i))
               = aperiodic_server s1).
  { unfold switch_to. destruct (same_ref _ _); [reflexivity|].
    destruct (current_task s1).
    - destruct (Qltb 0 _); destruct (start_time _); reflexivity.
    - destruct (start_time _); reflexivity. }
  destruct (switch_to s1 t i) as [s2 t2]. cbn [fst snd] in *.
  assert (Er : remaining (job s2 i) = remaining (job s i))
    by (rewrite S7, P7; reflexivity).
  assert (Ec : config s2 = config s) by congruence.
  cbv zeta.
  change (config (set_current_task s2 (Some i))) with (config s2).
  change (job (set_current_task s2 (Some i)) i) with (job s2 i).
  rewrite Ec, Er.
  set (e := py_min2 (time_quantum (config s)) (remaining (job s i))) in *.
  set (s4 := update_job (set_current_task s2 (Some i)) i
                        (fun j => fst (execute j e))).
  assert (E4 : aperiodic_server s4 = aperiodic_server s).
  { unfold s4. cbn [aperiodic_server update_job set_instances
                    set_current_task]. now rewrite Ss, Ps. }
  cbn [fst].
  match goal with
  | |- served_from s (complete ?m ?tt i) =>
      assert (Cs : aperiodic_server (complete m tt i) = aperiodic_server m)
        by (unfold complete; destruct (is_complete _); reflexivity)
  end.
  destruct (is_aperiodic s4 i).
  - apply served_one with (c := Servers.Consume e t2); [exact He|].
    rewrite Cs. cbn [aperiodic_server set_scheduler set_server
                     Servers.call snd].
    now rewrite E4.
  - apply served_same. rewrite Cs.
    cbn [aperiodic_server set_scheduler]. exact E4.
Qed.

Lemma iteration_served s t :
  consistent s -> 0 < time_quantum (config s) ->
  served_from s (fst (iteration s t)).
Proof.
  intros Hc Hq.
  pose proof (prepare_consistent s t Hc) as Hc1.
  destruct (ClockProps.prepare_fields s t) as [_ Ecfg].
  eapply served_trans; [apply (prepare_served s t)|].
  unfold iteration.
  pose proof (select_next_ready (prepare s t) t) as Hsel.
  pose proof (select_next_served (prepare s t) t) as Hsrv.
  set (s1 := prepare s t) in *.
  destruct (select_next s1 t) as [[i|] srv]; cbn [fst snd] in *.
  - specialize (Hsel i eq_refl).
    eapply served_trans; [exact Hsrv|].
    apply run_job_served.
    + pose proof (ready_incomplete s1 Hc1 i Hsel) as Hinc.
      unfold is_complete in Hinc. apply Qle_bool_gt in Hinc.
      unfold epsilon in Hinc.
      change (config (set_server s1 srv)) with (config s1).
      change (job (set_server s1 srv) i) with (job s1 i).
      rewrite Ecfg.
      case_min (time_quantum (config s)) (remaining (job s1 i)); lra.
    + apply (ready_in_store s1 Hc1 i Hsel).
  - eapply served_trans; [exact Hsrv|].
    apply served_same. unfold idle.
    destruct (Qltb t _); reflexivity.
Qed.

Lemma reachable_served s0 s t :
  0 < time_quantum (config s0) -> reachable s0 s t -> served_from s0 s.
Proof.
  intros Hq Hr. induction Hr as [|s t Hr IH Ht].
  - now apply served_same.
  - eapply served_trans; [exact IH|].
    apply iteration_served; [eapply reachable_consistent; eassumption|].
    destruct (LogProps.reachable_log _ _ _ Hr) as (_ & _ & Ec).
    now rewrite Ec.
Qed.

(** X25.  The engine drives its server only through [replenish],
    [can_serve] and [consume] of positive amounts; so for a Polling,
    Deferrable or Sporadic server constructed with positive capacity and
    period, [0 <= current_capacity <= capacity] holds in every state the
    loop reaches, and the nominal capacity is never changed. *)
Theorem server_stays_bounded_during_run
  (mk : Q -> Q -> Servers.Server) (cap per : Q) (s0 s : Simulator) (t : Q) :
  ServerSpec.tracked mk -> 0 < cap -> 0 < per ->
  aperiodic_server s0 = mk cap per ->
  0 < time_quantum (config s0) ->
  reachable s0 s t ->
  served_from s0 s /\
  ServerSpec.bounded (aperiodic_server s) /\
  Servers.capacity (Servers.base (aperiodic_server s)) = cap.
Proof.
  intros Hmk Hcap Hper E0 Hq Hr.
  pose proof (reachable_served _ _ _ Hq Hr) as Hs.
  split; [exact Hs|].
  destruct Hs as (cs & Hcs & E). rewrite E, E0.
  assert (H0 : ServerSpec.bounded (mk cap per) /\
               ServerSpec.queue_ok (mk cap per) /\
               Servers.capacity (Servers.base (mk cap per)) = cap).
  { destruct Hmk; unfold ServerSpec.bounded; simpl; repeat split;
      try constructor; lra. }
  destruct H0 as (Hb & Hqk & Ec).
  destruct (ServerProps.calls_preserve cs Hcs (mk cap per)) as [Hb' Ec'].
  - rewrite Ec. lra.
  - split; assumption.
  - split; [exact Hb'|congruence].
Qed.

Lemma server_stays_bounded_during_run_witness :
  let ap := fst (parse_aperiodic_task 0 0 1 NONE) in
  let s0 := mkSim (Scheduler_init RM) (mkConfig 10 1 true 0)
                  (Servers.PollingServer 2 5) None [Job_init ap 0] []
                  None in
  let s := fst (iteration (run_start s0) 0) in
  reachable s0 s (snd (iteration (run_start s0) 0)) /\
  ServerSpec.bounded (aperiodic_server s) /\
  Servers.current_capacity (Servers.base (aperiodic_server s)) == 1.
Proof.
  intros ap s0 s.
  assert (Hr : reachable s0 s (snd (iteration (run_start s0) 0))).
  { apply reachable_step; [constructor|reflexivity]. }
  split; [exact Hr|]. split; [|reflexivity].
  exact (proj1 (proj2 (server_stays_bounded_during_run
           Servers.PollingServer 2 5 s0 s _ ServerSpec.tracked_polling
           eq_refl eq_refl eq_refl eq_refl Hr))).
Defined.

End EngineMoreProps.
